(** * Columnar analytics engine: encoders, decoders and page skipping

    A shallow embedding of [src/encoding.cpp] (variable-length integers,
    run-length, delta and dictionary codecs) and of the page-skip test of
    [include/execution.h], with the properties the specification states
    about them.

    Conventions.
    - Fixed-width C++ integers are values of [Z]; every conversion and
      every operation that can leave the width has its wrap-around
      written out ([u8], [u32], [u64], [i32], [i64]).
    - A [const uint8_t* data] is the list of the bytes that can be read
      from the pointer on; [data + pos] is [drop pos data].  The separate
      [size] argument is what the caller declares, a [size_t].
    - A C++ function either returns, throws one of the [std::runtime_error]s
      of the file or the [std::length_error] of [std::vector::reserve], or
      reads outside the memory behind its pointer.
    - A vector grows as long as its [max_size()] allows: running out of
      memory below that limit is not a behaviour of the model. *)

From Stdlib Require Import ZArith Lia Bool List Ascii String.
From stdpp Require Import base tactics option list gmap strings.
Import ListNotations.

#[local] Open Scope Z_scope.

(** ** Machine integers *)

Definition u8 (z : Z) : Z := z mod 2 ^ 8.
Definition u32 (z : Z) : Z := z mod 2 ^ 32.
Definition u64 (z : Z) : Z := z mod 2 ^ 64.

(** [static_cast<int32_t>] and [static_cast<int64_t>]: two's complement. *)
Definition i32 (z : Z) : Z := (z + 2 ^ 31) mod 2 ^ 32 - 2 ^ 31.
Definition i64 (z : Z) : Z := (z + 2 ^ 63) mod 2 ^ 64 - 2 ^ 63.

Definition is_u8 (z : Z) : Prop := 0 <= z < 2 ^ 8.
Definition is_u32 (z : Z) : Prop := 0 <= z < 2 ^ 32.
Definition is_i32 (z : Z) : Prop := - 2 ^ 31 <= z < 2 ^ 31.
Definition is_i64 (z : Z) : Prop := - 2 ^ 63 <= z < 2 ^ 63.

(** [size_t] arithmetic, [size - pos] in particular, is modulo 2^64. *)
Definition size_sub (a b : Z) : Z := u64 (a - b).

(** ** Outcomes of a call *)

(** The errors the specification names.  [encoding.cpp] throws three
    messages: "Truncated varint: unexpected end of buffer" ([Truncated]),
    "Varint overflow: more than N bytes" ([Overflow]) and "Invalid
    dictionary index" ([InvalidDictIndex]).  No statement of the file
    throws [InvalidRun].  [LengthError] is the [std::length_error] that
    [result.reserve(num_values)] throws. *)
Inductive error : Set :=
  | Truncated
  | Overflow
  | InvalidRun
  | InvalidDictIndex
  | LengthError.

Inductive outcome (A : Type) : Type :=
  | Ok (a : A)
  | Throw (e : error)
  | OutOfBounds.
Arguments Ok {A} a.
Arguments Throw {A} e.
Arguments OutOfBounds {A}.

Definition bind {A B} (m : outcome A) (k : A -> outcome B) : outcome B :=
  match m with
  | Ok a => k a
  | Throw e => Throw e
  | OutOfBounds => OutOfBounds
  end.

Notation "'try' x ':=' m 'in' k" := (bind m (fun x => k))
  (at level 10, x name, m at level 100, k at level 200).
Notation "'try' ( x , y ) ':=' m 'in' k" := (bind m (fun '(x, y) => k))
  (at level 10, x name, y name, m at level 100, k at level 200).

(** ** Vectors *)

(** [std::vector<T>::max_size()] for an element of [elem_bytes] bytes:
    [PTRDIFF_MAX / sizeof(T)] with libstdc++ on a 64-bit target, that is
    2^61 - 1 for [int32_t] and 2^60 - 1 for [int64_t]. *)
Definition max_size (elem_bytes : Z) : Z := (2 ^ 63 - 1) / elem_bytes.

(** [result.reserve(n)] on an empty vector: [std::length_error] when [n]
    exceeds [max_size()]; nothing that a caller can see otherwise. *)
Definition reserve (elem_bytes n : Z) : outcome unit :=
  if max_size elem_bytes <? n then Throw LengthError else Ok tt.

(** ** Variable-length integers *)

Module VarintCodec.

(** The [while (value >= 0x80)] loop shared by [encodeUInt32] and
    [encodeInt64].  Each turn shifts the value right by seven bits, so
    a value below [2 ^ (7 * fuel)] leaves the loop before the fuel is
    spent (lemma [encode_loop_fuel]). *)
Fixpoint encode_loop (fuel : nat) (value : Z) : list Z :=
  match fuel with
  | O => []
  | S fuel' =>
      if 0x80 <=? value
      then u8 (Z.lor (Z.land value 0x7F) 0x80)
             :: encode_loop fuel' (Z.shiftr value 7)
      else [u8 value]
  end.

(** The bytes written to [output]; the returned [pos] is their number. *)
Definition encodeUInt32 (value : Z) : list Z := encode_loop 5 value.

(** [uint32_t encoded = (value << 1) ^ (value >> 31);] on [int32_t]. *)
Definition zigzag32 (value : Z) : Z :=
  u32 (Z.lxor (i32 (Z.shiftl value 1)) (Z.shiftr value 31)).

Definition encodeInt32 (value : Z) : list Z := encodeUInt32 (zigzag32 value).

(** [(static_cast<uint64_t>(value) << 1) ^ (value >> 63)] *)
Definition zigzag64 (value : Z) : Z :=
  Z.lxor (u64 (Z.shiftl (u64 value) 1)) (u64 (Z.shiftr value 63)).

Definition encodeInt64 (value : Z) : list Z := encode_loop 10 (zigzag64 value).

(** [(encoded >> 1) ^ -(encoded & 1)] on [uintN_t], then the cast. *)
Definition unzigzag32 (encoded : Z) : Z :=
  i32 (Z.lxor (Z.shiftr encoded 1) (u32 (- Z.land encoded 1))).
Definition unzigzag64 (encoded : Z) : Z :=
  i64 (Z.lxor (Z.shiftr encoded 1) (u64 (- Z.land encoded 1))).

Section SafeLoop.
(** Width of [result] and the byte limit: 32 and [MAX_VARINT32_BYTES],
    64 and [MAX_VARINT64_BYTES]. *)
Variable bits : Z.
Variable max_bytes : Z.

(** The loop of [decodeUInt32Safe] and [decodeInt64Safe].  [data] is
    the memory from [data + pos] on, so [data[pos++]] takes its head.
    Returns [result] and [*bytes_read]. *)
Fixpoint safe_loop (data : list Z) (buffer_size result shift pos : Z)
  {struct data} : outcome (Z * Z) :=
  if (pos <? buffer_size) && (shift <? bits) then
    match data with
    | [] => OutOfBounds
    | byte :: data' =>
        let pos := pos + 1 in
        let result :=
          Z.lor result (Z.shiftl (Z.land byte 0x7F) shift mod 2 ^ bits) in
        if Z.land byte 0x80 =? 0 then Ok (result, pos)
        else
          let shift := shift + 7 in
          if max_bytes <=? pos then Throw Overflow
          else safe_loop data' buffer_size result shift pos
    end
  else Throw Truncated.
End SafeLoop.

Definition decodeUInt32Safe (data : list Z) (buffer_size : Z)
  : outcome (Z * Z) :=
  safe_loop 32 5 data buffer_size 0 0 0.

Definition decodeInt32Safe (data : list Z) (buffer_size : Z)
  : outcome (Z * Z) :=
  try (encoded, bytes_read) := decodeUInt32Safe data buffer_size in
  Ok (unzigzag32 encoded, bytes_read).

Definition decodeInt64Safe (data : list Z) (buffer_size : Z)
  : outcome (Z * Z) :=
  try (result, bytes_read) := safe_loop 64 10 data buffer_size 0 0 0 in
  Ok (unzigzag64 result, bytes_read).

End VarintCodec.

(** ** Fixed-width fields *)

(** [std::memcpy] of a little-endian field: the [n] bytes of [z], and the
    unsigned value of the first [n] bytes behind a pointer ([None] when
    fewer than [n] bytes can be read there). *)
Fixpoint le_bytes (n : nat) (z : Z) : list Z :=
  match n with
  | O => []
  | S n' => u8 z :: le_bytes n' (Z.shiftr z 8)
  end.

Fixpoint read_le (n : nat) (data : list Z) : option Z :=
  match n with
  | O => Some 0
  | S n' =>
      match data with
      | [] => None
      | byte :: data' =>
          match read_le n' data' with
          | Some hi => Some (Z.lor (u8 byte) (Z.shiftl hi 8))
          | None => None
          end
      end
  end.

(** [data + pos] *)
Definition advance (data : list Z) (pos : Z) : list Z := drop (Z.to_nat pos) data.

(** ** Run-length encoding *)

Module RLEEncoder.

(** Inner [while] of the encoders: [rest] is the vector from index
    [i + run_length] on.  [run_length] is a [uint32_t]: on a run of 2^32
    equal values it wraps to 0 and the loop does not end.  The function
    is the loop on a vector of fewer than 2^32 values, where the counter
    cannot wrap; every statement about the encoders carries that bound. *)
Fixpoint count_run (current : Z) (rest : list Z) (run_length : Z) : Z :=
  match rest with
  | v :: rest' =>
      if v =? current then count_run current rest' (run_length + 1)
      else run_length
  | [] => run_length
  end.

(** Outer [while (i < values.size())]: [values] is the vector from index
    [i] on; [i += run_length] drops the run.  Every turn consumes at
    least one value, so [length values] turns are enough. *)
Fixpoint build_runs (fuel : nat) (values : list Z) : list (Z * Z) :=
  match fuel, values with
  | S fuel', current :: rest =>
      let run_length := count_run current rest 1 in
      (run_length, current)
        :: build_runs fuel' (drop (Z.to_nat run_length) values)
  | _, _ => []
  end.

Section Width.
(** [sizeof] of the value type, and [VarintCodec::encodeInt32] /
    [decodeInt32Safe] or the 64-bit pair. *)
Variable elem_bytes : Z.
Variable encode_value : Z -> list Z.
Variable decode_value : list Z -> Z -> outcome (Z * Z).

(** [for (const auto& [run_len, value] : runs)] *)
Definition run_bytes (runs : list (Z * Z)) : list Z :=
  flat_map (fun '(run_len, value) =>
              VarintCodec.encodeUInt32 run_len ++ encode_value value)
           runs.

Definition write_runs (runs : list (Z * Z)) : list Z :=
  VarintCodec.encodeUInt32 (u32 (Z.of_nat (length runs))) ++ run_bytes runs.

Definition encode (values : list Z) : list Z :=
  match values with
  | [] => []
  | _ => write_runs (build_runs (length values) values)
  end.

(** The [for (i < num_runs)] loop, [result] being the vector so far. *)
Fixpoint decode_runs (num_runs : nat) (data : list Z) (size pos : Z)
  (result : list Z) : outcome (list Z) :=
  match num_runs with
  | O => Ok result
  | S num_runs' =>
      try (run_length, bytes_read) :=
        VarintCodec.decodeUInt32Safe (advance data pos) (size_sub size pos) in
      let pos := pos + bytes_read in
      try (value, bytes_read) :=
        decode_value (advance data pos) (size_sub size pos) in
      let pos := pos + bytes_read in
      decode_runs num_runs' data size pos
        (result ++ replicate (Z.to_nat run_length) value)
  end.

(** The statements that follow [result.reserve(num_values)]. *)
Definition decode_reserved (data : list Z) (size : Z) : outcome (list Z) :=
  let pos := 0 in
  try (num_runs, bytes_read) :=
    VarintCodec.decodeUInt32Safe (advance data pos) (size_sub size pos) in
  let pos := pos + bytes_read in
  decode_runs (Z.to_nat num_runs) data size pos [].

(** [num_values] only sizes [result.reserve], which comes first. *)
Definition decode (data : list Z) (size num_values : Z)
  : outcome (list Z) :=
  try reserved := reserve elem_bytes num_values in
  decode_reserved data size.

(** The [(run_length, value)] pairs the loop of [decode] reads, in
    order; [decode] replicates each of them (lemma
    [decode_runs_read_runs]). *)
Fixpoint read_runs (num_runs : nat) (data : list Z) (size pos : Z)
  : outcome (list (Z * Z)) :=
  match num_runs with
  | O => Ok []
  | S num_runs' =>
      try (run_length, bytes_read) :=
        VarintCodec.decodeUInt32Safe (advance data pos) (size_sub size pos) in
      let pos := pos + bytes_read in
      try (value, bytes_read) :=
        decode_value (advance data pos) (size_sub size pos) in
      let pos := pos + bytes_read in
      try runs := read_runs num_runs' data size pos in
      Ok ((run_length, value) :: runs)
  end.

Definition decoded_runs (data : list Z) (size : Z)
  : outcome (list (Z * Z)) :=
  try (num_runs, bytes_read) :=
    VarintCodec.decodeUInt32Safe data (size_sub size 0) in
  read_runs (Z.to_nat num_runs) data size bytes_read.
End Width.

Definition encodeInt32 : list Z -> list Z :=
  encode VarintCodec.encodeInt32.
Definition encodeInt64 : list Z -> list Z :=
  encode VarintCodec.encodeInt64.
Definition decodeInt32 : list Z -> Z -> Z -> outcome (list Z) :=
  decode 4 VarintCodec.decodeInt32Safe.
Definition decodeInt64 : list Z -> Z -> Z -> outcome (list Z) :=
  decode 8 VarintCodec.decodeInt64Safe.

(** What a list of runs stands for. *)
Definition expand (runs : list (Z * Z)) : list Z :=
  flat_map (fun '(run_length, value) => replicate (Z.to_nat run_length) value)
           runs.

End RLEEncoder.

(** ** Delta encoding *)

Module DeltaEncoder.

Section Width.
(** Bytes of the base value, the cast to the value type ([i32] or
    [i64]) and the varint codec of that width. *)
Variable width : nat.
Variable cast : Z -> Z.
Variable encode_value : Z -> list Z.
Variable decode_value : list Z -> Z -> outcome (Z * Z).

(** [for (i = 1; ...)]: [delta = values[i] - prev], wrapping. *)
Fixpoint write_deltas (prev : Z) (values : list Z) : list Z :=
  match values with
  | [] => []
  | v :: rest => encode_value (cast (v - prev)) ++ write_deltas v rest
  end.

Definition encode (values : list Z) : list Z :=
  match values with
  | [] => []
  | base :: rest =>
      le_bytes width base
        ++ VarintCodec.encodeUInt32 (u32 (Z.of_nat (length values) - 1))
        ++ write_deltas base rest
  end.

(** [current += delta], wrapping. *)
Fixpoint read_deltas (num_deltas : nat) (data : list Z) (size pos : Z)
  (current : Z) (result : list Z) : outcome (list Z) :=
  match num_deltas with
  | O => Ok result
  | S num_deltas' =>
      try (delta, bytes_read) :=
        decode_value (advance data pos) (size_sub size pos) in
      let pos := pos + bytes_read in
      let current := cast (current + delta) in
      read_deltas num_deltas' data size pos current (result ++ [current])
  end.

(** The statements that follow [result.reserve(num_values)].  The base
    is copied without a look at [size]. *)
Definition decode_reserved (data : list Z) (size : Z) : outcome (list Z) :=
  match read_le width data with
  | None => OutOfBounds
  | Some raw =>
      let base := cast raw in
      let pos := Z.of_nat width in
      try (num_deltas, bytes_read) :=
        VarintCodec.decodeUInt32Safe (advance data pos) (size_sub size pos) in
      let pos := pos + bytes_read in
      read_deltas (Z.to_nat num_deltas) data size pos base [base]
  end.

(** [if (num_values == 0) return {};], then [result.reserve(num_values)]
    for elements of [width] bytes. *)
Definition decode (data : list Z) (size num_values : Z)
  : outcome (list Z) :=
  if num_values =? 0 then Ok []
  else
    try reserved := reserve (Z.of_nat width) num_values in
    decode_reserved data size.
End Width.

Definition encodeInt32 : list Z -> list Z :=
  encode 4 i32 VarintCodec.encodeInt32.
Definition encodeInt64 : list Z -> list Z :=
  encode 8 i64 VarintCodec.encodeInt64.
Definition decodeInt32 : list Z -> Z -> Z -> outcome (list Z) :=
  decode 4 i32 VarintCodec.decodeInt32Safe.
Definition decodeInt64 : list Z -> Z -> Z -> outcome (list Z) :=
  decode 8 i64 VarintCodec.decodeInt64Safe.

End DeltaEncoder.

(** ** Dictionary encoding *)

(** A [std::string] and its bytes. *)
Definition string_bytes (s : string) : list Z :=
  map (fun c => Z.of_nat (nat_of_ascii c)) (list_ascii_of_string s).
Definition bytes_string (bytes : list Z) : string :=
  string_of_list_ascii (map (fun b => ascii_of_nat (Z.to_nat (u8 b))) bytes).

Module DictionaryEncoder.

(** The two members of the encoder object. *)
Record t : Type := mk {
  dict_ : gmap string Z;
  dict_values_ : list string
}.

Definition clear (self : t) : t := mk ∅ [].

(** Body of [for (const auto& value : values)]. *)
Definition add (st : t * list Z) (value : string) : t * list Z :=
  let '(self, indices) := st in
  match dict_ self !! value with
  | None =>
      let idx := u32 (Z.of_nat (length (dict_values_ self))) in
      (mk (<[value := idx]> (dict_ self)) (dict_values_ self ++ [value]),
       indices ++ [idx])
  | Some idx => (self, indices ++ [idx])
  end.

Definition write_entry (str : string) : list Z :=
  le_bytes 4 (u32 (Z.of_nat (String.length str))) ++ string_bytes str.

(** The encoder after the call, and the bytes returned. *)
Definition encode (self : t) (values : list string) : t * list Z :=
  let '(self, indices) := fold_left add values (clear self, []) in
  let dict_size := u32 (Z.of_nat (length (dict_values_ self))) in
  (self,
   le_bytes 4 dict_size
     ++ flat_map write_entry (dict_values_ self)
     ++ RLEEncoder.encodeInt32 (map i32 indices)).

(** [std::string str(data + pos, len)] *)
Definition read_string (data : list Z) (len : Z) : option string :=
  if Z.of_nat (length data) <? len then None
  else Some (bytes_string (take (Z.to_nat len) data)).

(** The [for (i < dict_size)] loop; nothing is compared with [size]. *)
Fixpoint read_entries (dict_size : nat) (data : list Z) (pos : Z)
  (dictionary : list string) : outcome (list string * Z) :=
  match dict_size with
  | O => Ok (dictionary, pos)
  | S dict_size' =>
      match read_le 4 (advance data pos) with
      | None => OutOfBounds
      | Some len =>
          let pos := pos + 4 in
          match read_string (advance data pos) len with
          | None => OutOfBounds
          | Some str =>
              read_entries dict_size' data (pos + len) (dictionary ++ [str])
          end
      end
  end.

(** [for (int32_t idx : indices)] *)
Fixpoint lookup_all (dictionary : list string) (indices : list Z)
  (result : list string) : outcome (list string) :=
  match indices with
  | [] => Ok result
  | idx :: indices' =>
      if (idx <? 0) || (i32 (Z.of_nat (length dictionary)) <=? idx)
      then Throw InvalidDictIndex
      else
        match dictionary !! Z.to_nat idx with
        | None => OutOfBounds
        | Some str => lookup_all dictionary indices' (result ++ [str])
        end
  end.

Definition read_dictionary (data : list Z) : outcome (list string * Z) :=
  match read_le 4 data with
  | None => OutOfBounds
  | Some dict_size => read_entries (Z.to_nat dict_size) data 4 []
  end.

Definition decode (data : list Z) (size num_values : Z)
  : outcome (list string) :=
  try (dictionary, pos) := read_dictionary data in
  try indices :=
    RLEEncoder.decodeInt32 (advance data pos) (size_sub size pos) num_values in
  lookup_all dictionary indices [].

End DictionaryEncoder.

(** ** Predicates and page statistics *)

Inductive CompareOp : Set := EQ | NE | LT | LE | GT | GE.

Record PageStats : Set := {
  min_int : option Z;
  max_int : option Z;
  null_count : Z;
  distinct_count_estimate : Z
}.

Record Predicate : Set := {
  column : string;
  op : CompareOp;
  value : Z
}.

(** Modelled from the spec: [Predicate::evaluate] is declared in
    [execution.h] and defined in a file that is not part of the sources
    at hand; the specification calls it a typed comparison of the column
    value with the predicate's value. *)
Definition evaluate (p : Predicate) (col_value : Z) : bool :=
  match op p with
  | EQ => col_value =? value p
  | NE => negb (col_value =? value p)
  | LT => col_value <? value p
  | LE => col_value <=? value p
  | GT => value p <? col_value
  | GE => value p <=? col_value
  end.

(** Modelled from the spec: [Predicate::canSkipPage] is declared in
    [execution.h] and defined in a file that is not part of the sources
    at hand.  The rule is the one of the specification: both bounds must
    be present, then GT v skips iff max <= v, GE v iff max < v, LT v iff
    min >= v, LE v iff min > v, EQ v iff v < min or v > max, NE v iff
    min == max == v. *)
Definition canSkipPage (p : Predicate) (stats : PageStats) : bool :=
  match min_int stats, max_int stats with
  | Some min, Some max =>
      let v := value p in
      match op p with
      | GT => max <=? v
      | GE => max <? v
      | LT => v <=? min
      | LE => v <? min
      | EQ => (v <? min) || (max <? v)
      | NE => (min =? max) && (max =? v)
      end
  | _, _ => false
  end.

(** ** Reading the formats *)

(** The mapping the signed encoders are meant to compute. *)
Definition zigzag (v : Z) : Z := if v <? 0 then - 2 * v - 1 else 2 * v.

(** High bit of a varint byte: more bytes follow. *)
Definition continues (byte : Z) : bool := negb (Z.land byte 0x80 =? 0).

(** Seven payload bits per byte, least significant group first. *)
Fixpoint payload (bytes : list Z) : Z :=
  match bytes with
  | [] => 0
  | byte :: bytes' => Z.land byte 0x7F + 2 ^ 7 * payload bytes'
  end.

(** Index of the first byte whose continuation bit is clear. *)
Fixpoint terminator (bytes : list Z) : option nat :=
  match bytes with
  | [] => None
  | byte :: bytes' =>
      if continues byte then S <$> terminator bytes' else Some O
  end.

(** One varint: every byte continues except the last one. *)
Fixpoint varint_shape (bytes : list Z) : bool :=
  match bytes with
  | [] => false
  | [byte] => negb (continues byte)
  | byte :: bytes' => continues byte && varint_shape bytes'
  end.

Definition all_continue (bytes : list Z) : Prop :=
  Forall (fun b => continues b = true) bytes.

(** The first [size] bytes hold no byte with the continuation bit clear. *)
Definition ends_mid_varint (data : list Z) (size : Z) : Prop :=
  all_continue (take (Z.to_nat size) data).

(** A run the format can hold: a 32-bit length and a value of the
    column's type. *)
Definition run_ok (value_ok : Z -> Prop) (run : Z * Z) : Prop :=
  is_u32 run.1 /\ value_ok run.2.

(** Runs are maximal: none is empty and neighbours differ in value. *)
Fixpoint maximal_runs (runs : list (Z * Z)) : Prop :=
  match runs with
  | [] => True
  | (run_length, value) :: runs' =>
      1 <= run_length
      /\ match runs' with
         | [] => True
         | (_, value') :: _ => value <> value'
         end
      /\ maximal_runs runs'
  end.

Definition total_run_length (runs : list (Z * Z)) : Z :=
  fold_right (fun run total => run.1 + total) 0 runs.

(** [dictionary] lists the distinct strings of [values] in the order in
    which they are first seen. *)
Definition first_seen_order (dictionary values : list string) : Prop :=
  NoDup dictionary
  /\ (forall s, s ∈ dictionary <-> s ∈ values)
  /\ (forall i j s t,
        dictionary !! i = Some s -> dictionary !! j = Some t -> (i < j)%nat ->
        exists n, values !! n = Some s /\ t ∉ take n values).

(** ** The unbounded varint decoders *)

(** [decodeUInt32], [decodeInt32] and [decodeInt64] take no buffer size
    and throw nothing.  A call returns, or reads a byte that is not
    behind the pointer, or shifts a [uintN_t] by [N] bits or more.  The
    last two are undefined behaviour: the model stops there and says
    nothing of what a compiled program goes on to do. *)
Inductive unchecked (A : Type) : Type :=
  | Returns (a : A)
  | ReadsPastEnd
  | ShiftsPastWidth.
Arguments Returns {A} a.
Arguments ReadsPastEnd {A}.
Arguments ShiftsPastWidth {A}.

Module VarintCodecLegacy.

(** The [while (true)] loop: [data[pos++]] is read first, then shifted.
    [data] is the memory from [data + pos] on. *)
Fixpoint unbounded_loop (bits : Z) (data : list Z) (result shift pos : Z)
  {struct data} : unchecked (Z * Z) :=
  match data with
  | [] => ReadsPastEnd
  | byte :: data' =>
      let pos := pos + 1 in
      if bits <=? shift then ShiftsPastWidth
      else
        let result :=
          Z.lor result (Z.shiftl (Z.land byte 0x7F) shift mod 2 ^ bits) in
        if Z.land byte 0x80 =? 0 then Returns (result, pos)
        else unbounded_loop bits data' result (shift + 7) pos
  end.

Definition decodeUInt32 (data : list Z) : unchecked (Z * Z) :=
  unbounded_loop 32 data 0 0 0.

Definition decodeInt32 (data : list Z) : unchecked (Z * Z) :=
  match decodeUInt32 data with
  | Returns (encoded, bytes_read) =>
      Returns (VarintCodec.unzigzag32 encoded, bytes_read)
  | ReadsPastEnd => ReadsPastEnd
  | ShiftsPastWidth => ShiftsPastWidth
  end.

Definition decodeInt64 (data : list Z) : unchecked (Z * Z) :=
  match unbounded_loop 64 data 0 0 0 with
  | Returns (result, bytes_read) =>
      Returns (VarintCodec.unzigzag64 result, bytes_read)
  | ReadsPastEnd => ReadsPastEnd
  | ShiftsPastWidth => ShiftsPastWidth
  end.

End VarintCodecLegacy.

(** ** Command line helpers *)

Module Cli.

(** The [for (char c : str)] loop of [split], with [tokens] and [token]. *)
Fixpoint split_loop (str : string) (delimiter : ascii)
  (tokens : list string) (token : string) : list string * string :=
  match str with
  | EmptyString => (tokens, token)
  | String c str' =>
      if Ascii.eqb c delimiter then
        if negb (String.eqb token EmptyString)
        then split_loop str' delimiter (tokens ++ [token]) EmptyString
        else split_loop str' delimiter tokens token
      else split_loop str' delimiter tokens (String.append token (String c EmptyString))
  end.

Definition split (str : string) (delimiter : ascii) : list string :=
  let '(tokens, token) := split_loop str delimiter [] EmptyString in
  if negb (String.eqb token EmptyString) then tokens ++ [token] else tokens.

End Cli.

(** The differences [DeltaEncoder] writes: each value against the one
    before it, wrapped by [cast]. *)
Fixpoint deltas (cast : Z -> Z) (prev : Z) (values : list Z) : list Z :=
  match values with
  | [] => []
  | v :: rest => cast (v - prev) :: deltas cast v rest
  end.

(** * Properties *)

(** ** Concrete runs of the model *)

Example varint_300 : VarintCodec.encodeUInt32 300 = [172; 2].
Proof. reflexivity. Qed.

Example varint_300_back :
  VarintCodec.decodeUInt32Safe [172; 2] 2 = Ok (300, 2).
Proof. reflexivity. Qed.

Example varint_truncated :
  VarintCodec.decodeUInt32Safe [128; 128] 2 = Throw Truncated.
Proof. reflexivity. Qed.

Example varint_overflow :
  VarintCodec.decodeUInt32Safe [255; 255; 255; 255; 255; 255] 6 = Throw Overflow.
Proof. reflexivity. Qed.

Example varint_signed_back :
  map (fun v => VarintCodec.decodeInt32Safe
                  (VarintCodec.encodeInt32 v ++ [0; 0; 0; 0; 0]) 5)
      [0; 1; -1; 127; -127; 10000; -10000; 2147483647; -2147483648]
  = [Ok (0, 1); Ok (1, 1); Ok (-1, 1); Ok (127, 2); Ok (-127, 2);
     Ok (10000, 3); Ok (-10000, 3); Ok (2147483647, 5); Ok (-2147483648, 5)].
Proof. reflexivity. Qed.

Example rle_int32_test :
  RLEEncoder.encodeInt32 [5; 5; 5; 5; 10; 10; 3; 3; 3; 3; 3]
  = [3; 4; 10; 2; 20; 5; 6]
  /\ RLEEncoder.decodeInt32 [3; 4; 10; 2; 20; 5; 6] 7 11
     = Ok [5; 5; 5; 5; 10; 10; 3; 3; 3; 3; 3].
Proof. split; reflexivity. Qed.

Example delta_int64_test :
  let V := [1000; 1100; 1200; 1300; 1400] in
  let bytes := DeltaEncoder.encodeInt64 V in
  DeltaEncoder.decodeInt64 bytes (Z.of_nat (length bytes)) 5 = Ok V
  /\ (Z.of_nat (length bytes) < 40)%Z.
Proof. vm_compute. split; reflexivity. Qed.

Example dictionary_test :
  let V := ["apple"; "banana"; "apple"; "cherry"; "banana"; "apple"]%string in
  let bytes := (DictionaryEncoder.encode (DictionaryEncoder.mk ∅ []) V).2 in
  DictionaryEncoder.decode bytes (Z.of_nat (length bytes)) 6 = Ok V.
Proof. vm_compute. reflexivity. Qed.

Example skip_page_test :
  let stats := {| min_int := Some 100; max_int := Some 200;
                  null_count := 0; distinct_count_estimate := 0 |} in
  canSkipPage {| column := "value"; op := GT; value := 250 |} stats = true
  /\ canSkipPage {| column := "value"; op := LT; value := 50 |} stats = true
  /\ canSkipPage {| column := "value"; op := GT; value := 150 |} stats = false.
Proof. repeat split. Qed.

(** ** Arithmetic of the fixed-width types *)

Lemma u8_id z : is_u8 z -> u8 z = z.
Proof. unfold is_u8, u8. intros H. apply Z.mod_small. lia. Qed.

Lemma u32_id z : is_u32 z -> u32 z = z.
Proof. unfold is_u32, u32. intros H. apply Z.mod_small. lia. Qed.

Lemma i32_id z : is_i32 z -> i32 z = z.
Proof. unfold is_i32, i32. intros H. rewrite Z.mod_small; lia. Qed.

Lemma i64_id z : is_i64 z -> i64 z = z.
Proof. unfold is_i64, i64. intros H. rewrite Z.mod_small; lia. Qed.

Lemma i32_range z : is_i32 (i32 z).
Proof.
  unfold is_i32, i32.
  pose proof (Z.mod_pos_bound (z + 2 ^ 31) (2 ^ 32)). lia.
Qed.

Lemma i64_range z : is_i64 (i64 z).
Proof.
  unfold is_i64, i64.
  pose proof (Z.mod_pos_bound (z + 2 ^ 63) (2 ^ 64)). lia.
Qed.

Lemma testbit_above z n i :
  0 <= z < 2 ^ n -> 0 <= n <= i -> Z.testbit z i = false.
Proof.
  intros Hz Hi. rewrite <- (Z.mod_small z (2 ^ n)) by lia.
  apply Z.mod_pow2_bits_high. lia.
Qed.

(** Bits that do not overlap add up. *)
Lemma lor_shifted a c s :
  0 <= a < 2 ^ s -> 0 <= s -> Z.lor a (c * 2 ^ s) = a + c * 2 ^ s.
Proof.
  intros Ha Hs.
  assert (Hdis : Z.land a (c * 2 ^ s) = 0).
  { apply Z.bits_inj'. intros i Hi. rewrite Z.land_spec, Z.bits_0.
    destruct (Z.lt_ge_cases i s).
    - rewrite Z.mul_pow2_bits_low by lia. apply andb_false_r.
    - rewrite (testbit_above a s i) by lia. reflexivity. }
  rewrite Z.add_nocarry_lxor by exact Hdis.
  symmetry. apply Z.lxor_lor. exact Hdis.
Qed.

(** Exclusive or with all ones complements within the width. *)
Lemma lxor_ones x n :
  0 <= n -> 0 <= x < 2 ^ n -> Z.lxor x (2 ^ n - 1) = 2 ^ n - 1 - x.
Proof.
  intros Hn Hx.
  replace (2 ^ n - 1) with (Z.ones n) by (rewrite Z.ones_equiv; lia).
  replace (Z.ones n - x) with (Z.land (Z.lnot x) (Z.ones n)).
  - apply Z.bits_inj'. intros i Hi.
    rewrite Z.lxor_spec, Z.land_spec, Z.lnot_spec by lia.
    destruct (Z.lt_ge_cases i n).
    + rewrite Z.ones_spec_low by lia.
      destruct (Z.testbit x i); reflexivity.
    + rewrite Z.ones_spec_high by lia.
      rewrite (testbit_above x n i) by lia. reflexivity.
  - rewrite Z.land_ones by lia. rewrite Z.ones_equiv.
    unfold Z.lnot. rewrite <- Z.sub_1_r.
    replace (- x - 1) with (2 ^ n - 1 - x + (-1) * 2 ^ n) by lia.
    rewrite Z.mod_add by lia. rewrite Z.mod_small; lia.
Qed.

(** ** Zigzag *)

Lemma shiftr_sign v n :
  0 <= n -> - 2 ^ n <= v < 2 ^ n ->
  Z.shiftr v n = if v <? 0 then -1 else 0.
Proof.
  intros Hn Hv. rewrite Z.shiftr_div_pow2 by lia.
  destruct (Z.ltb_spec v 0).
  - assert (- 1 <= v / 2 ^ n < 0); [|lia]. split.
    + apply Z.div_le_lower_bound; lia.
    + apply Z.div_lt_upper_bound; lia.
  - apply Z.div_small. lia.
Qed.

Lemma zigzag32_eq v : is_i32 v -> VarintCodec.zigzag32 v = zigzag v.
Proof.
  unfold is_i32, VarintCodec.zigzag32, zigzag. intros Hv.
  rewrite (shiftr_sign v 31) by lia.
  rewrite Z.shiftl_mul_pow2 by lia.
  destruct (Z.ltb_spec v 0).
  - rewrite Z.lxor_m1_r. unfold Z.lnot. rewrite <- Z.sub_1_r.
    unfold u32, i32.
    transitivity ((2 ^ 31 - 1 - (v * 2 ^ 1 + 2 ^ 31) mod 2 ^ 32) mod 2 ^ 32).
    { f_equal. lia. }
    rewrite Zminus_mod_idemp_r.
    transitivity ((- 2 * v - 1) mod 2 ^ 32).
    { f_equal. lia. }
    apply Z.mod_small. lia.
  - rewrite Z.lxor_0_r. unfold u32, i32.
    rewrite Zminus_mod_idemp_l.
    transitivity ((2 * v) mod 2 ^ 32).
    { f_equal. lia. }
    apply Z.mod_small. lia.
Qed.

Lemma zigzag64_eq v : is_i64 v -> VarintCodec.zigzag64 v = zigzag v.
Proof.
  unfold is_i64, VarintCodec.zigzag64, zigzag. intros Hv.
  rewrite (shiftr_sign v 63) by lia.
  rewrite Z.shiftl_mul_pow2 by lia.
  unfold u64.
  destruct (Z.ltb_spec v 0).
  - replace (v mod 2 ^ 64) with (v + 2 ^ 64).
    2:{ symmetry. rewrite <- (Z.mod_add v 1) by lia.
        apply Z.mod_small. lia. }
    replace (((v + 2 ^ 64) * 2 ^ 1) mod 2 ^ 64) with (2 * v + 2 ^ 64).
    2:{ symmetry.
        replace ((v + 2 ^ 64) * 2 ^ 1) with (2 * v + 2 ^ 64 + 1 * 2 ^ 64) by lia.
        rewrite Z.mod_add by lia. apply Z.mod_small. lia. }
    replace (-1 mod 2 ^ 64) with (2 ^ 64 - 1) by reflexivity.
    rewrite lxor_ones by lia. lia.
  - rewrite (Z.mod_small v) by lia.
    rewrite (Z.mod_small 0) by lia.
    rewrite Z.lxor_0_r. rewrite Z.mod_small; lia.
Qed.

Lemma zigzag_range v n :
  0 <= n -> - 2 ^ n <= v < 2 ^ n -> 0 <= zigzag v < 2 ^ (n + 1).
Proof.
  intros Hn Hv. rewrite Z.pow_add_r by lia. unfold zigzag.
  destruct (Z.ltb_spec v 0); lia.
Qed.

Lemma land_1_zigzag v : Z.land (zigzag v) 1 = if v <? 0 then 1 else 0.
Proof.
  change 1 with (Z.ones 1) at 1. rewrite Z.land_ones by lia.
  unfold zigzag. destruct (Z.ltb_spec v 0).
  - replace (- 2 * v - 1) with (1 + (- v - 1) * 2) by lia.
    rewrite Z.mod_add by lia. reflexivity.
  - replace (2 * v) with (0 + v * 2) by lia.
    rewrite Z.mod_add by lia. reflexivity.
Qed.

Lemma shiftr_1_zigzag v :
  Z.shiftr (zigzag v) 1 = if v <? 0 then - v - 1 else v.
Proof.
  rewrite Z.shiftr_div_pow2 by lia. unfold zigzag.
  destruct (Z.ltb_spec v 0).
  - replace (- 2 * v - 1) with (1 + (- v - 1) * 2 ^ 1) by lia.
    rewrite Z.div_add by lia. reflexivity.
  - replace (2 * v) with (0 + v * 2 ^ 1) by lia.
    rewrite Z.div_add by lia. reflexivity.
Qed.

Lemma unzigzag32_zigzag v : is_i32 v -> VarintCodec.unzigzag32 (zigzag v) = v.
Proof.
  unfold is_i32, VarintCodec.unzigzag32. intros Hv.
  rewrite land_1_zigzag, shiftr_1_zigzag.
  destruct (Z.ltb_spec v 0).
  - replace (u32 (- (1))) with (2 ^ 32 - 1) by reflexivity.
    rewrite lxor_ones by lia.
    unfold i32.
    replace (2 ^ 32 - 1 - (- v - 1) + 2 ^ 31) with (v + 2 ^ 31 + 1 * 2 ^ 32) by lia.
    rewrite Z.mod_add by lia. rewrite Z.mod_small; lia.
  - replace (u32 (- 0)) with 0 by reflexivity.
    rewrite Z.lxor_0_r. apply i32_id. unfold is_i32. lia.
Qed.

Lemma unzigzag64_zigzag v : is_i64 v -> VarintCodec.unzigzag64 (zigzag v) = v.
Proof.
  unfold is_i64, VarintCodec.unzigzag64. intros Hv.
  rewrite land_1_zigzag, shiftr_1_zigzag.
  destruct (Z.ltb_spec v 0).
  - replace (u64 (- (1))) with (2 ^ 64 - 1) by reflexivity.
    rewrite lxor_ones by lia.
    unfold i64.
    replace (2 ^ 64 - 1 - (- v - 1) + 2 ^ 63) with (v + 2 ^ 63 + 1 * 2 ^ 64) by lia.
    rewrite Z.mod_add by lia. rewrite Z.mod_small; lia.
  - replace (u64 (- 0)) with 0 by reflexivity.
    rewrite Z.lxor_0_r. apply i64_id. unfold is_i64. lia.
Qed.

(** ** The bounded varint decoders *)

Lemma land_7f byte : Z.land byte 0x7F = byte mod 2 ^ 7.
Proof. change 0x7F with (Z.ones 7). apply Z.land_ones. lia. Qed.

Lemma land_7f_range byte : 0 <= Z.land byte 0x7F < 2 ^ 7.
Proof. rewrite land_7f. apply Z.mod_pos_bound. lia. Qed.

Section SafeLoopFacts.
Variable bits : Z.
Variable max_bytes : Z.
Hypothesis max_bytes_pos : 0 < max_bytes.
Hypothesis last_shift : 7 * (max_bytes - 1) < bits.

(** One turn of the loop adds the payload of the byte at its place. *)
Lemma accumulate result c s :
  0 <= result < 2 ^ s -> 0 <= s <= bits -> 0 <= c ->
  Z.lor result (Z.shiftl c s mod 2 ^ bits) = (result + 2 ^ s * c) mod 2 ^ bits.
Proof.
  intros Hr Hs Hc. rewrite Z.shiftl_mul_pow2 by lia.
  assert (Hsplit : 2 ^ bits = 2 ^ (bits - s) * 2 ^ s).
  { rewrite <- Z.pow_add_r by lia. f_equal. lia. }
  assert (Hhi : 0 < 2 ^ (bits - s)) by (apply Z.pow_pos_nonneg; lia).
  assert (Hlo : 0 < 2 ^ s) by (apply Z.pow_pos_nonneg; lia).
  rewrite Hsplit.
  rewrite Z.mul_mod_distr_r by lia.
  rewrite lor_shifted by lia.
  pose proof (Z.mod_pos_bound c (2 ^ (bits - s)) Hhi) as Hm.
  symmetry.
  rewrite (Z.div_mod c (2 ^ (bits - s))) at 1 by lia.
  replace (result + 2 ^ s * (2 ^ (bits - s) * (c / 2 ^ (bits - s)) + c mod 2 ^ (bits - s)))
    with (result + c mod 2 ^ (bits - s) * 2 ^ s
          + c / 2 ^ (bits - s) * (2 ^ (bits - s) * 2 ^ s)) by ring.
  rewrite Z.mod_add by lia.
  apply Z.mod_small. nia.
Qed.

(** The loop as a function of the first terminating byte it can reach. *)
Lemma safe_loop_eq data : forall size result pos,
  0 <= pos < max_bytes ->
  0 <= result < 2 ^ (7 * pos) ->
  size <= pos + Z.of_nat (length data) ->
  VarintCodec.safe_loop bits max_bytes data size result (7 * pos) pos =
    match terminator (take (Z.to_nat (Z.min size max_bytes - pos)) data) with
    | Some j =>
        Ok ((result + 2 ^ (7 * pos) * payload (take (S j) data)) mod 2 ^ bits,
            pos + Z.of_nat j + 1)
    | None => if size <? max_bytes then Throw Truncated else Throw Overflow
    end.
Proof.
  induction data as [|b data IH]; intros size result pos Hpos Hres Hsize.
  - simpl in *. rewrite take_nil. simpl.
    destruct (Z.ltb_spec pos size); [lia|]. simpl.
    destruct (Z.ltb_spec size max_bytes); [reflexivity|lia].
  - cbn [VarintCodec.safe_loop].
    destruct (Z.ltb_spec pos size) as [Hlt|Hge]; cbn [andb].
    + destruct (Z.ltb_spec (7 * pos) bits) as [_|?]; [|lia].
      replace (Z.to_nat (Z.min size max_bytes - pos))
        with (S (Z.to_nat (Z.min size max_bytes - (pos + 1)))) by lia.
      cbn [take terminator]. unfold continues.
      destruct (Z.eqb_spec (Z.land b 128) 0) as [Hterm|Hcont]; cbn [negb].
      * rewrite accumulate by (pose proof (land_7f_range b); lia).
        rewrite take_0. cbn [payload].
        rewrite Z.mul_0_r, Z.add_0_r, Nat2Z.inj_0, Z.add_0_r. reflexivity.
      * destruct (Z.leb_spec max_bytes (pos + 1)) as [Hmax|Hmore].
        -- replace (Z.to_nat (Z.min size max_bytes - (pos + 1))) with O by lia.
           rewrite take_0. cbn.
           destruct (Z.ltb_spec size max_bytes); [lia|reflexivity].
        -- rewrite accumulate by (pose proof (land_7f_range b); lia).
           pose proof (land_7f_range b) as Hb.
           assert (Hpow : 2 ^ (7 * (pos + 1)) = 2 ^ (7 * pos) * 2 ^ 7).
           { rewrite <- Z.pow_add_r by lia. f_equal. lia. }
           assert (Hle : 2 ^ (7 * (pos + 1)) <= 2 ^ bits)
             by (apply Z.pow_le_mono_r; lia).
           rewrite Z.mod_small by nia.
           replace (7 * pos + 7) with (7 * (pos + 1)) by lia.
           rewrite IH by (simpl in Hsize; nia).
           destruct (terminator _) as [j|]; cbn [fmap option_fmap option_map];
             [|reflexivity].
           cbn [take payload]. f_equal. f_equal; [|lia].
           f_equal. rewrite Hpow. ring.
    + replace (Z.to_nat (Z.min size max_bytes - pos)) with O by lia.
      rewrite take_0. cbn.
      destruct (Z.ltb_spec size max_bytes); [reflexivity|lia].
Qed.
End SafeLoopFacts.

Lemma decodeUInt32Safe_eq data size :
  size <= Z.of_nat (length data) ->
  VarintCodec.decodeUInt32Safe data size =
    match terminator (take (Z.to_nat (Z.min size 5)) data) with
    | Some j => Ok (payload (take (S j) data) mod 2 ^ 32, Z.of_nat j + 1)
    | None => if size <? 5 then Throw Truncated else Throw Overflow
    end.
Proof.
  intros Hsize. unfold VarintCodec.decodeUInt32Safe.
  change 0 with (7 * 0) at 2.
  rewrite safe_loop_eq by (simpl; lia).
  rewrite Z.sub_0_r. destruct (terminator _); [|reflexivity].
  do 3 f_equal. simpl. lia.
Qed.

Lemma decodeInt64Safe_eq data size :
  size <= Z.of_nat (length data) ->
  VarintCodec.decodeInt64Safe data size =
    match terminator (take (Z.to_nat (Z.min size 10)) data) with
    | Some j =>
        Ok (VarintCodec.unzigzag64 (payload (take (S j) data) mod 2 ^ 64),
            Z.of_nat j + 1)
    | None => if size <? 10 then Throw Truncated else Throw Overflow
    end.
Proof.
  intros Hsize. unfold VarintCodec.decodeInt64Safe.
  change 0 with (7 * 0) at 2.
  rewrite safe_loop_eq by (simpl; lia).
  rewrite Z.sub_0_r. destruct (terminator _) as [j|].
  - cbn [bind]. do 4 f_equal. simpl. lia.
  - destruct (size <? 10); reflexivity.
Qed.

Lemma terminator_None bytes :
  terminator bytes = None <-> all_continue bytes.
Proof.
  unfold all_continue.
  induction bytes as [|b bytes IH]; simpl.
  - split; [constructor|reflexivity].
  - destruct (continues b) eqn:Hb.
    + destruct (terminator bytes); simpl; split; intros H.
      * discriminate.
      * inversion H; subst. apply IH in H3. discriminate.
      * constructor; [exact Hb|]. apply IH. reflexivity.
      * reflexivity.
    + split; intros H; [discriminate|]. inversion H; congruence.
Qed.

Lemma terminator_Some bytes j :
  terminator bytes = Some j <->
  all_continue (take j bytes)
  /\ exists b, bytes !! j = Some b /\ continues b = false.
Proof.
  unfold all_continue.
  revert j. induction bytes as [|b bytes IH]; intros j; simpl.
  - split; [discriminate|]. intros [_ [b [Hb _]]]. discriminate.
  - destruct (continues b) eqn:Hb.
    + destruct j as [|j]; simpl.
      * split.
        -- destruct (terminator bytes); discriminate.
        -- intros [_ [b' [Hb' Hc]]]. congruence.
      * split.
        -- specialize (IH j).
           destruct (terminator bytes) as [k|]; [|discriminate].
           simpl. intros [= ->]. destruct (proj1 IH eq_refl) as [HF Hex].
           split; [constructor; assumption|exact Hex].
        -- intros [HF Hex]. inversion HF; subst.
           assert (Hk : terminator bytes = Some j) by (apply IH; auto).
           rewrite Hk. reflexivity.
    + destruct j as [|j]; simpl.
      * split; [|reflexivity]. intros _. split; [constructor|]. eauto.
      * split; [discriminate|]. intros [H _]. inversion H; congruence.
Qed.

Lemma terminator_take data n j b :
  (j < n)%nat -> all_continue (take j data) ->
  data !! j = Some b -> continues b = false ->
  terminator (take n data) = Some j.
Proof.
  intros Hj Hall Hb Hc. apply terminator_Some. split.
  - rewrite take_take. replace (j `min` n)%nat with j by lia. exact Hall.
  - exists b. split; [|exact Hc]. rewrite lookup_take_lt by lia. exact Hb.
Qed.

Section BoundedOutcomes.
(** Any decoder that follows the equation of [safe_loop_eq]. *)
Variable A : Type.
Variable decoder : outcome A.
Variable data : list Z.
Variable size max_bytes : Z.
Variable value : nat -> A.
Hypothesis decoder_eq :
  decoder =
    match terminator (take (Z.to_nat (Z.min size max_bytes)) data) with
    | Some j => Ok (value j)
    | None => if size <? max_bytes then Throw Truncated else Throw Overflow
    end.

Lemma outcome_truncated :
  decoder = Throw Truncated <-> size < max_bytes /\ ends_mid_varint data size.
Proof.
  unfold ends_mid_varint. rewrite <- terminator_None. rewrite decoder_eq.
  destruct (Z.ltb_spec size max_bytes) as [Hlt|Hge].
  - replace (Z.min size max_bytes) with size by lia.
    destruct (terminator (take (Z.to_nat size) data)); split; intros H;
      try discriminate; try (destruct H; discriminate); auto.
  - destruct (terminator (take (Z.to_nat (Z.min size max_bytes)) data));
      split; intros H; try discriminate; lia.
Qed.

Lemma outcome_overflow :
  decoder = Throw Overflow
  <-> max_bytes <= size /\ ends_mid_varint data max_bytes.
Proof.
  unfold ends_mid_varint. rewrite <- terminator_None. rewrite decoder_eq.
  destruct (Z.ltb_spec size max_bytes) as [Hlt|Hge].
  - destruct (terminator (take (Z.to_nat (Z.min size max_bytes)) data));
      split; intros H; try discriminate; lia.
  - replace (Z.min size max_bytes) with max_bytes by lia.
    destruct (terminator (take (Z.to_nat max_bytes) data)); split; intros H;
      try discriminate; try (destruct H; discriminate); auto.
Qed.

Lemma outcome_value j b :
  Z.of_nat j < Z.min size max_bytes ->
  all_continue (take j data) -> data !! j = Some b -> continues b = false ->
  decoder = Ok (value j).
Proof.
  intros Hj Hall Hb Hc. rewrite decoder_eq.
  rewrite (terminator_take data _ j b) by (auto; lia). reflexivity.
Qed.

Lemma outcome_in_bounds : decoder <> OutOfBounds.
Proof.
  rewrite decoder_eq.
  destruct (terminator _); [discriminate|].
  destruct (size <? max_bytes); discriminate.
Qed.
End BoundedOutcomes.

(** C4, as the code has it: with the declared size within the memory
    behind [data], [decodeUInt32Safe] (resp. [decodeInt64Safe]) throws
    Truncated exactly when the buffer holds fewer than 5 (resp. 10) bytes
    and every one of them has the continuation bit set; it throws Overflow
    exactly when the buffer holds at least 5 (resp. 10) bytes and the
    first 5 (resp. 10) all have the continuation bit set; otherwise the
    first byte [j] with the bit clear lies within these limits and the
    call returns the payload of bytes [0..j], truncated to the width (and
    zigzag-decoded for int64), with [bytes_read = j + 1]. *)
Theorem C4_bounded_varint_outcomes (data : list Z) (size : Z) :
  0 <= size <= Z.of_nat (length data) ->
  (VarintCodec.decodeUInt32Safe data size = Throw Truncated
     <-> size < 5 /\ ends_mid_varint data size)
  /\ (VarintCodec.decodeUInt32Safe data size = Throw Overflow
     <-> 5 <= size /\ ends_mid_varint data 5)
  /\ (forall j b,
        Z.of_nat j < Z.min size 5 ->
        all_continue (take j data) -> data !! j = Some b ->
        continues b = false ->
        VarintCodec.decodeUInt32Safe data size
        = Ok (payload (take (S j) data) mod 2 ^ 32, Z.of_nat j + 1))
  /\ (VarintCodec.decodeInt64Safe data size = Throw Truncated
     <-> size < 10 /\ ends_mid_varint data size)
  /\ (VarintCodec.decodeInt64Safe data size = Throw Overflow
     <-> 10 <= size /\ ends_mid_varint data 10)
  /\ (forall j b,
        Z.of_nat j < Z.min size 10 ->
        all_continue (take j data) -> data !! j = Some b ->
        continues b = false ->
        VarintCodec.decodeInt64Safe data size
        = Ok (VarintCodec.unzigzag64 (payload (take (S j) data) mod 2 ^ 64),
              Z.of_nat j + 1))
  /\ VarintCodec.decodeUInt32Safe data size <> OutOfBounds
  /\ VarintCodec.decodeInt64Safe data size <> OutOfBounds.
Proof.
  intros [Hsize Hmem].
  pose proof (decodeUInt32Safe_eq data size Hmem) as H32.
  pose proof (decodeInt64Safe_eq data size Hmem) as H64.
  split; [exact (outcome_truncated _ _ _ _ _ _ H32)|].
  split; [exact (outcome_overflow _ _ _ _ _ _ H32)|].
  split; [exact (outcome_value _ _ _ _ _ _ H32)|].
  split; [exact (outcome_truncated _ _ _ _ _ _ H64)|].
  split; [exact (outcome_overflow _ _ _ _ _ _ H64)|].
  split; [exact (outcome_value _ _ _ _ _ _ H64)|].
  split; [exact (outcome_in_bounds _ _ _ _ _ _ H32)|].
  exact (outcome_in_bounds _ _ _ _ _ _ H64).
Qed.

Lemma C4_bounded_varint_outcomes_witness :
  0 <= 2 <= Z.of_nat (length [172; 2])
  /\ VarintCodec.decodeUInt32Safe [172; 2] 2 = Ok (300, 2).
Proof.
  assert (H : 0 <= 2 <= Z.of_nat (length [172; 2])) by (simpl; lia).
  split; [exact H|].
  destruct (C4_bounded_varint_outcomes [172; 2] 2 H) as (_ & _ & Hv & _).
  apply (Hv 1%nat 2).
  - reflexivity.
  - repeat constructor.
  - reflexivity.
  - reflexivity.
Defined.

(** C4 as stated fails: five bytes that all continue, in a buffer of
    exactly five bytes, end before any byte with the bit clear, and the
    decoder reports Overflow, not Truncated. *)
Lemma C4_counterexample :
  let buf := [128; 128; 128; 128; 128] in
  ends_mid_varint buf 5
  /\ VarintCodec.decodeUInt32Safe buf 5 = Throw Overflow
  /\ ~ (VarintCodec.decodeUInt32Safe buf 5 = Throw Truncated
        <-> ends_mid_varint buf 5).
Proof.
  assert (Hmid : ends_mid_varint [128; 128; 128; 128; 128] 5)
    by (repeat constructor).
  split; [exact Hmid|]. split; [reflexivity|].
  intros [_ H]. specialize (H Hmid). discriminate H.
Qed.

(** ** The varint encoders *)

Lemma u8_enum (P : Z -> bool) :
  forallb P (map Z.of_nat (seq 0 256)) = true ->
  forall b, is_u8 b -> P b = true.
Proof.
  intros H b Hb. rewrite forallb_forall in H. apply H.
  apply in_map_iff. exists (Z.to_nat b). unfold is_u8 in Hb.
  split; [lia|]. apply in_seq. lia.
Qed.

Lemma continues_u8 b : is_u8 b -> continues b = (128 <=? b).
Proof.
  intros Hb.
  apply Bool.eqb_prop.
  apply (u8_enum (fun b => Bool.eqb (continues b) (128 <=? b)));
    [vm_compute; reflexivity|exact Hb].
Qed.

Lemma varint_shape_cons b bytes :
  bytes <> [] -> varint_shape (b :: bytes) = continues b && varint_shape bytes.
Proof. destruct bytes; [congruence|reflexivity]. Qed.

Lemma continuation_byte v :
  0 <= v ->
  let byte := u8 (Z.lor (Z.land v 0x7F) 0x80) in
  is_u8 byte /\ continues byte = true /\ Z.land byte 0x7F = v mod 2 ^ 7.
Proof.
  intros Hv byte. subst byte.
  pose proof (land_7f_range v) as Hr.
  change 128 with (1 * 2 ^ 7). rewrite lor_shifted by lia.
  assert (Hb : is_u8 (Z.land v 127 + 1 * 2 ^ 7)) by (unfold is_u8; lia).
  rewrite (u8_id _ Hb). split; [exact Hb|]. split.
  - rewrite continues_u8 by exact Hb. apply Z.leb_le. lia.
  - rewrite (land_7f (_ + _)). rewrite Z.mod_add by lia.
    rewrite Z.mod_small by lia. apply land_7f.
Qed.

Lemma encode_loop_spec fuel : forall v,
  (0 < fuel)%nat -> 0 <= v < 2 ^ (7 * Z.of_nat fuel) ->
  let bytes := VarintCodec.encode_loop fuel v in
  varint_shape bytes = true /\ payload bytes = v
  /\ Forall is_u8 bytes /\ (1 <= length bytes <= fuel)%nat.
Proof.
  induction fuel as [|fuel IH]; intros v Hfuel Hv; [lia|].
  cbn [VarintCodec.encode_loop].
  destruct (Z.leb_spec 128 v) as [Hbig|Hsmall].
  - assert (Hfuel' : (0 < fuel)%nat).
    { destruct fuel; [|lia]. simpl in Hv. lia. }
    assert (Hv' : 0 <= Z.shiftr v 7 < 2 ^ (7 * Z.of_nat fuel)).
    { rewrite Z.shiftr_div_pow2 by lia. split.
      - apply Z.div_pos; lia.
      - apply Z.div_lt_upper_bound; [lia|].
        rewrite <- Z.pow_add_r by lia.
        replace (7 + 7 * Z.of_nat fuel) with (7 * Z.of_nat (S fuel)) by lia.
        lia. }
    destruct (IH _ Hfuel' Hv') as (Hshape & Hpay & Hu8 & Hlen).
    destruct (continuation_byte v) as (Hb & Hc & Hl); [lia|].
    cbv zeta. split; [|split; [|split]].
    + rewrite varint_shape_cons.
      * rewrite Hc, Hshape. reflexivity.
      * intros Hnil. rewrite Hnil in Hlen. simpl in Hlen. lia.
    + cbn [payload]. rewrite Hl, Hpay.
      rewrite Z.shiftr_div_pow2 by lia.
      rewrite (Z.div_mod v (2 ^ 7)) at 3 by lia. lia.
    + constructor; assumption.
    + simpl. lia.
  - assert (Hb : is_u8 v) by (unfold is_u8; lia).
    rewrite (u8_id _ Hb). cbv zeta. split; [|split; [|split]].
    + simpl. rewrite continues_u8 by exact Hb.
      destruct (Z.leb_spec 128 v); [lia|reflexivity].
    + simpl. rewrite land_7f. rewrite Z.mod_small; lia.
    + constructor; [exact Hb|constructor].
    + simpl. lia.
Qed.

(** Fuel beyond the length of the varint changes nothing. *)
Lemma encode_loop_fuel fuel : forall fuel' v,
  0 <= v < 2 ^ (7 * Z.of_nat fuel) -> (0 < fuel <= fuel')%nat ->
  VarintCodec.encode_loop fuel' v = VarintCodec.encode_loop fuel v.
Proof.
  induction fuel as [|fuel IH]; intros fuel' v Hv Hfuel; [lia|].
  destruct fuel' as [|fuel']; [lia|].
  cbn [VarintCodec.encode_loop].
  destruct (Z.leb_spec 128 v) as [Hbig|Hsmall]; [|reflexivity].
  f_equal. apply IH.
  - rewrite Z.shiftr_div_pow2 by lia. split.
    + apply Z.div_pos; lia.
    + apply Z.div_lt_upper_bound; [lia|].
      rewrite <- Z.pow_add_r by lia.
      replace (7 + 7 * Z.of_nat fuel) with (7 * Z.of_nat (S fuel)) by lia.
      lia.
  - destruct fuel; [|lia]. simpl in Hv. lia.
Qed.

Lemma terminator_shape bytes : forall extra n,
  varint_shape bytes = true -> (length bytes <= n)%nat ->
  terminator (take n (bytes ++ extra)) = Some (pred (length bytes)).
Proof.
  induction bytes as [|b bytes IH]; intros extra n Hshape Hn; [discriminate|].
  destruct n as [|n]; [simpl in Hn; lia|].
  destruct bytes as [|b' bytes].
  - simpl in *. destruct (continues b); [discriminate|reflexivity].
  - rewrite varint_shape_cons in Hshape by discriminate.
    apply andb_prop in Hshape as [Hc Hshape].
    change ((b :: b' :: bytes) ++ extra) with (b :: ((b' :: bytes) ++ extra)).
    cbn [take terminator]. rewrite Hc.
    rewrite IH by (simpl in *; auto; lia). reflexivity.
Qed.

(** What the bounded decoders make of a well-formed varint that is
    followed by anything, when the declared size covers it. *)
Lemma decodeUInt32Safe_shape bytes extra size :
  varint_shape bytes = true -> (length bytes <= 5)%nat ->
  Z.of_nat (length bytes) <= size <= Z.of_nat (length (bytes ++ extra)) ->
  VarintCodec.decodeUInt32Safe (bytes ++ extra) size
  = Ok (payload bytes mod 2 ^ 32, Z.of_nat (length bytes)).
Proof.
  intros Hshape Hlen Hsize.
  rewrite decodeUInt32Safe_eq by lia.
  rewrite terminator_shape by (auto; lia).
  assert (Hpos : (0 < length bytes)%nat)
    by (destruct bytes; [discriminate|simpl; lia]).
  replace (S (pred (length bytes))) with (length bytes) by lia.
  rewrite take_app_length. do 2 f_equal. lia.
Qed.

Lemma decodeInt64Safe_shape bytes extra size :
  varint_shape bytes = true -> (length bytes <= 10)%nat ->
  Z.of_nat (length bytes) <= size <= Z.of_nat (length (bytes ++ extra)) ->
  VarintCodec.decodeInt64Safe (bytes ++ extra) size
  = Ok (VarintCodec.unzigzag64 (payload bytes mod 2 ^ 64),
        Z.of_nat (length bytes)).
Proof.
  intros Hshape Hlen Hsize.
  rewrite decodeInt64Safe_eq by lia.
  rewrite terminator_shape by (auto; lia).
  assert (Hpos : (0 < length bytes)%nat)
    by (destruct bytes; [discriminate|simpl; lia]).
  replace (S (pred (length bytes))) with (length bytes) by lia.
  rewrite take_app_length. do 2 f_equal. lia.
Qed.

Lemma encodeUInt32_spec v :
  is_u32 v ->
  let bytes := VarintCodec.encodeUInt32 v in
  varint_shape bytes = true /\ payload bytes = v
  /\ Forall is_u8 bytes /\ (1 <= length bytes <= 5)%nat.
Proof.
  intros Hv. apply encode_loop_spec; [lia|]. unfold is_u32 in Hv. simpl. lia.
Qed.

Lemma encodeInt32_spec v :
  is_i32 v ->
  let bytes := VarintCodec.encodeInt32 v in
  varint_shape bytes = true /\ payload bytes = zigzag v
  /\ Forall is_u8 bytes /\ (1 <= length bytes <= 5)%nat.
Proof.
  intros Hv. unfold VarintCodec.encodeInt32.
  rewrite zigzag32_eq by exact Hv.
  apply encodeUInt32_spec. apply (zigzag_range v 31); [lia|exact Hv].
Qed.

Lemma encodeInt64_spec v :
  is_i64 v ->
  let bytes := VarintCodec.encodeInt64 v in
  varint_shape bytes = true /\ payload bytes = zigzag v
  /\ Forall is_u8 bytes /\ (1 <= length bytes <= 10)%nat.
Proof.
  intros Hv. unfold VarintCodec.encodeInt64.
  rewrite zigzag64_eq by exact Hv.
  apply encode_loop_spec; [lia|].
  pose proof (zigzag_range v 63 ltac:(lia) Hv). simpl in *. lia.
Qed.

Section VarintRoundTrip.
Variable extra : list Z.
Variable size : Z.

Lemma decode_encodeUInt32 v :
  is_u32 v ->
  Z.of_nat (length (VarintCodec.encodeUInt32 v)) <= size
    <= Z.of_nat (length (VarintCodec.encodeUInt32 v ++ extra)) ->
  VarintCodec.decodeUInt32Safe (VarintCodec.encodeUInt32 v ++ extra) size
  = Ok (v, Z.of_nat (length (VarintCodec.encodeUInt32 v))).
Proof.
  intros Hv Hsize.
  destruct (encodeUInt32_spec v Hv) as (Hshape & Hpay & _ & Hlen).
  rewrite decodeUInt32Safe_shape by (auto; lia).
  rewrite Hpay. do 2 f_equal. apply Z.mod_small. exact Hv.
Qed.

Lemma decode_encodeInt32 v :
  is_i32 v ->
  Z.of_nat (length (VarintCodec.encodeInt32 v)) <= size
    <= Z.of_nat (length (VarintCodec.encodeInt32 v ++ extra)) ->
  VarintCodec.decodeInt32Safe (VarintCodec.encodeInt32 v ++ extra) size
  = Ok (v, Z.of_nat (length (VarintCodec.encodeInt32 v))).
Proof.
  intros Hv Hsize.
  destruct (encodeInt32_spec v Hv) as (Hshape & Hpay & _ & Hlen).
  unfold VarintCodec.decodeInt32Safe.
  rewrite decodeUInt32Safe_shape by (auto; lia).
  cbn [bind]. rewrite Hpay.
  rewrite Z.mod_small by (apply (zigzag_range v 31); [lia|exact Hv]).
  rewrite unzigzag32_zigzag by exact Hv. reflexivity.
Qed.

Lemma decode_encodeInt64 v :
  is_i64 v ->
  Z.of_nat (length (VarintCodec.encodeInt64 v)) <= size
    <= Z.of_nat (length (VarintCodec.encodeInt64 v ++ extra)) ->
  VarintCodec.decodeInt64Safe (VarintCodec.encodeInt64 v ++ extra) size
  = Ok (v, Z.of_nat (length (VarintCodec.encodeInt64 v))).
Proof.
  intros Hv Hsize.
  destruct (encodeInt64_spec v Hv) as (Hshape & Hpay & _ & Hlen).
  rewrite decodeInt64Safe_shape by (auto; lia).
  rewrite Hpay.
  rewrite Z.mod_small by (apply (zigzag_range v 63); [lia|exact Hv]).
  rewrite unzigzag64_zigzag by exact Hv. reflexivity.
Qed.
End VarintRoundTrip.

(** C5: a value written by [encodeUInt32], [encodeInt32] or [encodeInt64]
    and read back by the bounded decoder of the same type, from a buffer
    whose declared size covers the varint, is returned unchanged with
    [bytes_read] equal to the encoded length.  The signed encoders write
    the zigzag image [(n << 1) ^ (n >> (width - 1))] of the value, which
    is [2n] for [n >= 0] and [-2n - 1] for [n < 0]; every encoding holds
    seven payload bits per byte, low group first, and only the last byte
    has the high bit clear. *)
Theorem C5_varint_round_trip (u n w : Z) (extra : list Z) (slack : Z) :
  is_u32 u -> is_i32 n -> is_i64 w ->
  0 <= slack <= Z.of_nat (length extra) ->
  let eu := VarintCodec.encodeUInt32 u in
  let en := VarintCodec.encodeInt32 n in
  let ew := VarintCodec.encodeInt64 w in
  VarintCodec.decodeUInt32Safe (eu ++ extra) (Z.of_nat (length eu) + slack)
    = Ok (u, Z.of_nat (length eu))
  /\ VarintCodec.decodeInt32Safe (en ++ extra) (Z.of_nat (length en) + slack)
    = Ok (n, Z.of_nat (length en))
  /\ VarintCodec.decodeInt64Safe (ew ++ extra) (Z.of_nat (length ew) + slack)
    = Ok (w, Z.of_nat (length ew))
  /\ (varint_shape eu = true /\ payload eu = u)
  /\ (varint_shape en = true
      /\ payload en = u32 (Z.lxor (i32 (Z.shiftl n 1)) (Z.shiftr n 31))
      /\ payload en = zigzag n)
  /\ (varint_shape ew = true
      /\ payload ew
         = Z.lxor (u64 (Z.shiftl (u64 w) 1)) (u64 (Z.shiftr w 63))
      /\ payload ew = zigzag w).
Proof.
  intros Hu Hn Hw Hslack eu en ew.
  destruct (encodeUInt32_spec u Hu) as (Hsu & Hpu & _).
  destruct (encodeInt32_spec n Hn) as (Hsn & Hpn & _).
  destruct (encodeInt64_spec w Hw) as (Hsw & Hpw & _).
  subst eu en ew.
  split; [|split; [|split]].
  - apply decode_encodeUInt32; [exact Hu|]. rewrite length_app. lia.
  - apply decode_encodeInt32; [exact Hn|]. rewrite length_app. lia.
  - apply decode_encodeInt64; [exact Hw|]. rewrite length_app. lia.
  - split; [auto|]. split.
    + split; [exact Hsn|]. split; [|exact Hpn].
      rewrite Hpn. symmetry. apply zigzag32_eq. exact Hn.
    + split; [exact Hsw|]. split; [|exact Hpw].
      rewrite Hpw. symmetry. apply zigzag64_eq. exact Hw.
Qed.

Lemma C5_varint_round_trip_witness :
  VarintCodec.decodeUInt32Safe (VarintCodec.encodeUInt32 300 ++ [7])
    (Z.of_nat (length (VarintCodec.encodeUInt32 300)) + 1)
  = Ok (300, Z.of_nat (length (VarintCodec.encodeUInt32 300))).
Proof.
  refine (proj1 (C5_varint_round_trip 300 (-10000) (-2 ^ 40) [7] 1 _ _ _ _));
    unfold is_u32, is_i32, is_i64; simpl; lia.
Defined.

(** ** Reserving the result *)

Lemma reserve_Ok elem_bytes n :
  n <= max_size elem_bytes -> reserve elem_bytes n = Ok tt.
Proof.
  intros Hn. unfold reserve.
  destruct (Z.ltb_spec (max_size elem_bytes) n); [lia|reflexivity].
Qed.

Lemma reserve_Throw elem_bytes n :
  max_size elem_bytes < n -> reserve elem_bytes n = Throw LengthError.
Proof.
  intros Hn. unfold reserve.
  destruct (Z.ltb_spec (max_size elem_bytes) n); [reflexivity|lia].
Qed.

Lemma rle_decode_reserved elem_bytes decode_value data size num_values :
  num_values <= max_size elem_bytes ->
  RLEEncoder.decode elem_bytes decode_value data size num_values
  = RLEEncoder.decode_reserved decode_value data size.
Proof.
  intros Hn. unfold RLEEncoder.decode. rewrite reserve_Ok by exact Hn.
  reflexivity.
Qed.

Lemma rle_decode_length_error elem_bytes decode_value data size num_values :
  max_size elem_bytes < num_values ->
  RLEEncoder.decode elem_bytes decode_value data size num_values
  = Throw LengthError.
Proof.
  intros Hn. unfold RLEEncoder.decode. rewrite reserve_Throw by exact Hn.
  reflexivity.
Qed.

Lemma delta_decode_reserved width cast decode_value data size num_values :
  num_values <> 0 -> num_values <= max_size (Z.of_nat width) ->
  DeltaEncoder.decode width cast decode_value data size num_values
  = DeltaEncoder.decode_reserved width cast decode_value data size.
Proof.
  intros H0 Hn. unfold DeltaEncoder.decode.
  destruct (Z.eqb_spec num_values 0) as [?|_]; [contradiction|].
  rewrite reserve_Ok by exact Hn. reflexivity.
Qed.

Lemma delta_decode_length_error width cast decode_value data size num_values :
  max_size (Z.of_nat width) < num_values -> 0 <= max_size (Z.of_nat width) ->
  DeltaEncoder.decode width cast decode_value data size num_values
  = Throw LengthError.
Proof.
  intros Hn H0. unfold DeltaEncoder.decode.
  destruct (Z.eqb_spec num_values 0) as [?|_]; [lia|].
  rewrite reserve_Throw by exact Hn. reflexivity.
Qed.

Lemma max_size_4 : max_size 4 = 2 ^ 61 - 1.
Proof. reflexivity. Qed.

Lemma max_size_8 : max_size 8 = 2 ^ 60 - 1.
Proof. reflexivity. Qed.

(** ** Run-length encoding *)

Lemma advance_at data pre rest pos :
  data = pre ++ rest -> pos = Z.of_nat (length pre) -> advance data pos = rest.
Proof.
  intros -> ->. unfold advance. rewrite Nat2Z.id. apply drop_app_length.
Qed.

Lemma size_sub_id size pos :
  0 <= size - pos < 2 ^ 64 -> size_sub size pos = size - pos.
Proof. intros H. unfold size_sub, u64. apply Z.mod_small. exact H. Qed.

Lemma count_run_spec current rest : forall run_length,
  exists m : nat,
    RLEEncoder.count_run current rest run_length = run_length + Z.of_nat m
    /\ (m <= length rest)%nat
    /\ take m rest = replicate m current
    /\ match drop m rest with [] => True | v :: _ => v <> current end.
Proof.
  induction rest as [|v rest IH]; intros run_length.
  - exists O. simpl. repeat split; lia.
  - simpl. destruct (Z.eqb_spec v current) as [->|Hne].
    + destruct (IH (run_length + 1)) as (m & Hm & Hlen & Htake & Hdrop).
      exists (S m). simpl. rewrite Hm, Htake.
      repeat split; try lia; exact Hdrop.
    + exists O. simpl. repeat split; lia.
Qed.

Lemma build_runs_spec fuel : forall values,
  (length values <= fuel)%nat ->
  let runs := RLEEncoder.build_runs fuel values in
  RLEEncoder.expand runs = values
  /\ Forall (fun run => 1 <= run.1 <= Z.of_nat (length values)
                        /\ In run.2 values) runs
  /\ (length runs <= length values)%nat
  /\ maximal_runs runs
  /\ match runs, values with
     | (_, value) :: _, v :: _ => value = v
     | [], [] => True
     | _, _ => False
     end.
Proof.
  induction fuel as [|fuel IH]; intros values Hfuel.
  - destruct values; [|simpl in Hfuel; lia]. simpl. repeat split; auto.
  - destruct values as [|current rest]; [simpl; repeat split; auto|].
    cbn [RLEEncoder.build_runs].
    destruct (count_run_spec current rest 1) as (m & Hm & Hlen & Htake & Hdrop).
    rewrite Hm. replace (Z.to_nat (1 + Z.of_nat m)) with (S m) by lia.
    cbn [drop].
    destruct (IH (drop m rest)) as (Hexp & Hall & Hcount & Hmax & Hhead).
    { rewrite length_drop. simpl in Hfuel. lia. }
    cbv zeta. split; [|split; [|split; [|split]]].
    + cbn [RLEEncoder.expand flat_map]. fold (RLEEncoder.expand
        (RLEEncoder.build_runs fuel (drop m rest))).
      rewrite Hexp. replace (Z.to_nat (1 + Z.of_nat m)) with (S m) by lia.
      cbn [replicate]. rewrite <- Htake. simpl. rewrite take_drop. reflexivity.
    + constructor.
      * simpl. split; [lia|]. left. reflexivity.
      * eapply Forall_impl; [exact Hall|].
        intros [l v] [Hl Hin]. simpl in *. rewrite length_drop in Hl.
        split; [lia|]. right. rewrite <- (take_drop m rest).
        apply in_or_app. right. exact Hin.
    + simpl. rewrite length_drop in Hcount. lia.
    + cbn [maximal_runs]. split; [lia|]. split; [|exact Hmax].
      destruct (RLEEncoder.build_runs fuel (drop m rest)) as [|[l' v'] runs'];
        [exact I|].
      destruct (drop m rest) as [|v rest']; [destruct Hhead|].
      subst v'. intros Heq. apply Hdrop. symmetry. exact Heq.
    + reflexivity.
Qed.

Section RLEFacts.
Variable encode_value : Z -> list Z.
Variable decode_value : list Z -> Z -> outcome (Z * Z).
Variable value_ok : Z -> Prop.
Hypothesis codec : forall v extra size,
  value_ok v ->
  Z.of_nat (length (encode_value v)) <= size
    <= Z.of_nat (length (encode_value v ++ extra)) ->
  decode_value (encode_value v ++ extra) size
  = Ok (v, Z.of_nat (length (encode_value v))).

#[local] Abbreviation run_ok := (run_ok value_ok).
#[local] Abbreviation run_bytes := (RLEEncoder.run_bytes encode_value).

Lemma decode_runs_written runs : forall data pre post size result,
  data = pre ++ run_bytes runs ++ post ->
  Forall run_ok runs ->
  Z.of_nat (length (pre ++ run_bytes runs)) <= size
    <= Z.of_nat (length data) ->
  size < 2 ^ 64 ->
  RLEEncoder.decode_runs decode_value (length runs) data size
    (Z.of_nat (length pre)) result
  = Ok (result ++ RLEEncoder.expand runs).
Proof.
  induction runs as [|[l v] runs IH];
    intros data pre post size result Hdata Hok Hsize H64.
  - simpl. rewrite app_nil_r. reflexivity.
  - inversion Hok as [|? ? [Hl Hv] Hoks]; subst. simpl in Hl, Hv.
    cbn [length RLEEncoder.decode_runs].
    cbn [RLEEncoder.run_bytes flat_map] in *. fold (run_bytes runs) in *.
    rewrite !length_app in Hsize.
    set (data := pre ++ ((VarintCodec.encodeUInt32 l ++ encode_value v)
                           ++ run_bytes runs) ++ post) in *.
    rewrite (advance_at data pre
               (VarintCodec.encodeUInt32 l
                  ++ encode_value v ++ run_bytes runs ++ post))
      by (subst data; rewrite <- ?app_assoc; reflexivity).
    rewrite size_sub_id by lia.
    rewrite decode_encodeUInt32 by (auto; rewrite !length_app; lia).
    cbn [bind].
    rewrite (advance_at data (pre ++ VarintCodec.encodeUInt32 l)
               (encode_value v ++ run_bytes runs ++ post))
      by (subst data; rewrite ?length_app, <- ?app_assoc; auto; lia).
    rewrite size_sub_id by lia.
    rewrite codec by (auto; rewrite !length_app; lia).
    cbn [bind].
    replace (Z.of_nat (length pre)
             + Z.of_nat (length (VarintCodec.encodeUInt32 l))
             + Z.of_nat (length (encode_value v)))
      with (Z.of_nat (length (pre ++ VarintCodec.encodeUInt32 l
                                ++ encode_value v)))
      by (rewrite !length_app; lia).
    rewrite (IH data _ post size).
    + cbn [RLEEncoder.expand flat_map]. rewrite <- app_assoc. reflexivity.
    + subst data. rewrite <- ?app_assoc. reflexivity.
    + exact Hoks.
    + subst data. rewrite !length_app in *. lia.
    + exact H64.
Qed.

(** The decoder on the bytes [write_runs] produces, followed by anything. *)
Lemma decode_written runs post size :
  Forall run_ok runs ->
  Z.of_nat (length runs) < 2 ^ 32 ->
  Z.of_nat (length (RLEEncoder.write_runs encode_value runs)) <= size
    <= Z.of_nat (length (RLEEncoder.write_runs encode_value runs ++ post)) ->
  size < 2 ^ 64 ->
  RLEEncoder.decode_reserved decode_value
    (RLEEncoder.write_runs encode_value runs ++ post) size
  = Ok (RLEEncoder.expand runs).
Proof.
  intros Hok Hcount Hsize H64.
  unfold RLEEncoder.decode_reserved, RLEEncoder.write_runs in *.
  assert (Hn : is_u32 (Z.of_nat (length runs))) by (unfold is_u32; lia).
  rewrite (u32_id _ Hn) in *.
  rewrite !length_app in Hsize.
  unfold advance at 1. change (Z.to_nat 0) with O. rewrite drop_0.
  rewrite size_sub_id by lia. rewrite Z.sub_0_r.
  rewrite <- app_assoc.
  rewrite decode_encodeUInt32 by (auto; rewrite !length_app; lia).
  cbn [bind]. rewrite Nat2Z.id. rewrite Z.add_0_l.
  rewrite (decode_runs_written runs _ _ post size []).
  - reflexivity.
  - reflexivity.
  - exact Hok.
  - rewrite !length_app. lia.
  - exact H64.
Qed.

(** Round trip of a non-empty vector, whatever follows in the buffer. *)
Lemma rle_round_trip values post size :
  values <> [] ->
  Forall value_ok values ->
  Z.of_nat (length values) < 2 ^ 32 ->
  Z.of_nat (length (RLEEncoder.encode encode_value values)) <= size
    <= Z.of_nat (length (RLEEncoder.encode encode_value values ++ post)) ->
  size < 2 ^ 64 ->
  RLEEncoder.decode_reserved decode_value
    (RLEEncoder.encode encode_value values ++ post) size
  = Ok values.
Proof.
  intros Hne Hok Hlen Hsize H64.
  destruct (build_runs_spec (length values) values (Nat.le_refl _))
    as (Hexp & Hall & Hcount & _).
  destruct values as [|v values]; [congruence|].
  unfold RLEEncoder.encode in *.
  rewrite decode_written; auto.
  - rewrite Hexp. reflexivity.
  - eapply Forall_impl; [exact Hall|].
    intros [l x] [Hl Hin]. split.
    + unfold is_u32. simpl in *. lia.
    + rewrite Forall_forall in Hok. apply Hok.
      apply list_elem_of_In. exact Hin.
  - lia.
Qed.
End RLEFacts.

(** *** What the bounded decoders can return *)

Lemma terminator_extend data extra n n' j :
  terminator (take n data) = Some j -> (n <= n')%nat ->
  terminator (take n' (data ++ extra)) = Some j
  /\ take (S j) (data ++ extra) = take (S j) data
  /\ (S j <= n)%nat /\ (S j <= length data)%nat.
Proof.
  intros Hj Hn. apply terminator_Some in Hj as [Hall (b & Hb & Hc)].
  apply lookup_take_Some in Hb as [Hb Hlt].
  pose proof (lookup_lt_Some _ _ _ Hb) as Hlen.
  rewrite take_take in Hall. replace (j `min` n)%nat with j in Hall by lia.
  split; [|split; [|split]]; try lia.
  - apply (terminator_take _ _ j b); auto; try lia.
    + rewrite take_app_le by lia. exact Hall.
    + apply lookup_app_l_Some. exact Hb.
  - apply take_app_le. lia.
Qed.

Lemma decodeUInt32Safe_Ok data size v n :
  size <= Z.of_nat (length data) ->
  VarintCodec.decodeUInt32Safe data size = Ok (v, n) ->
  is_u32 v /\ 1 <= n <= size /\ n <= 5
  /\ forall extra size',
       size <= size' <= Z.of_nat (length (data ++ extra)) ->
       VarintCodec.decodeUInt32Safe (data ++ extra) size' = Ok (v, n).
Proof.
  intros Hsize. rewrite decodeUInt32Safe_eq by exact Hsize.
  destruct (terminator _) as [j|] eqn:Hj;
    [|destruct (size <? 5); discriminate].
  intros [= <- <-].
  split; [apply Z.mod_pos_bound; lia|].
  destruct (terminator_extend data [] _ _ j Hj (Nat.le_refl _))
    as (_ & _ & Hjn & _).
  split; [lia|]. split; [lia|].
  intros extra size' Hsize'.
  rewrite decodeUInt32Safe_eq by lia.
  destruct (terminator_extend data extra _ (Z.to_nat (Z.min size' 5)) j Hj)
    as (-> & -> & _); [lia|reflexivity].
Qed.

Lemma decodeInt32Safe_Ok data size v n :
  size <= Z.of_nat (length data) ->
  VarintCodec.decodeInt32Safe data size = Ok (v, n) ->
  is_i32 v /\ 1 <= n <= size /\ n <= 5
  /\ forall extra size',
       size <= size' <= Z.of_nat (length (data ++ extra)) ->
       VarintCodec.decodeInt32Safe (data ++ extra) size' = Ok (v, n).
Proof.
  intros Hsize. unfold VarintCodec.decodeInt32Safe.
  destruct (VarintCodec.decodeUInt32Safe data size) as [[e m]| |] eqn:He;
    try discriminate.
  cbn [bind]. intros [= <- <-].
  destruct (decodeUInt32Safe_Ok _ _ _ _ Hsize He) as (_ & Hn & Hn5 & Hext).
  split; [apply i32_range|]. split; [exact Hn|]. split; [exact Hn5|].
  intros extra size' Hsize'. rewrite (Hext extra size' Hsize'). reflexivity.
Qed.

Lemma decodeInt64Safe_Ok data size v n :
  size <= Z.of_nat (length data) ->
  VarintCodec.decodeInt64Safe data size = Ok (v, n) ->
  is_i64 v /\ 1 <= n <= size /\ n <= 10
  /\ forall extra size',
       size <= size' <= Z.of_nat (length (data ++ extra)) ->
       VarintCodec.decodeInt64Safe (data ++ extra) size' = Ok (v, n).
Proof.
  intros Hsize. rewrite decodeInt64Safe_eq by exact Hsize.
  destruct (terminator _) as [j|] eqn:Hj;
    [|destruct (size <? 10); discriminate].
  intros [= <- <-].
  split; [apply i64_range|].
  destruct (terminator_extend data [] _ _ j Hj (Nat.le_refl _))
    as (_ & _ & Hjn & _).
  split; [lia|]. split; [lia|].
  intros extra size' Hsize'.
  rewrite decodeInt64Safe_eq by lia.
  destruct (terminator_extend data extra _ (Z.to_nat (Z.min size' 10)) j Hj)
    as (-> & -> & _); [lia|reflexivity].
Qed.

(** The loop throws nothing but Truncated and Overflow. *)
Lemma safe_loop_throws bits max_bytes data : forall size result shift pos e,
  VarintCodec.safe_loop bits max_bytes data size result shift pos = Throw e ->
  e = Truncated \/ e = Overflow.
Proof.
  induction data as [|b data IH]; intros size result shift pos e;
    cbn [VarintCodec.safe_loop].
  - destruct (_ && _); intros [= <-]; auto.
  - destruct (_ && _); [|intros [= <-]; auto].
    destruct (_ =? 0); [discriminate|].
    destruct (_ <=? _); [intros [= <-]; auto|]. apply IH.
Qed.

Lemma decodeUInt32Safe_throws data size e :
  VarintCodec.decodeUInt32Safe data size = Throw e ->
  e = Truncated \/ e = Overflow.
Proof. apply safe_loop_throws. Qed.

Lemma decodeInt32Safe_throws data size e :
  VarintCodec.decodeInt32Safe data size = Throw e ->
  e = Truncated \/ e = Overflow.
Proof.
  unfold VarintCodec.decodeInt32Safe.
  destruct (VarintCodec.decodeUInt32Safe data size) as [[v n]| |] eqn:He;
    cbn [bind]; try discriminate.
  intros [= <-]. eapply decodeUInt32Safe_throws. exact He.
Qed.

Lemma decodeInt64Safe_throws data size e :
  VarintCodec.decodeInt64Safe data size = Throw e ->
  e = Truncated \/ e = Overflow.
Proof.
  unfold VarintCodec.decodeInt64Safe.
  destruct (VarintCodec.safe_loop 64 10 data size 0 0 0) as [[v n]| |] eqn:He;
    cbn [bind]; try discriminate.
  intros [= <-]. eapply safe_loop_throws. exact He.
Qed.

Lemma safe_loop_nonneg bits max_bytes data : forall size result shift pos v n,
  0 <= result ->
  VarintCodec.safe_loop bits max_bytes data size result shift pos = Ok (v, n) ->
  0 <= v.
Proof.
  induction data as [|b data IH]; intros size result shift pos v n Hres;
    cbn [VarintCodec.safe_loop].
  - destruct (_ && _); discriminate.
  - destruct (_ && _); [|discriminate].
    assert (Hacc : 0 <= Z.lor result
                          (Z.shiftl (Z.land b 127) shift mod 2 ^ bits)).
    { apply Z.lor_nonneg. split; [exact Hres|].
      assert (Hx : 0 <= Z.shiftl (Z.land b 127) shift)
        by (apply Z.shiftl_nonneg; pose proof (land_7f_range b); lia).
      destruct (Z.lt_ge_cases bits 0) as [Hb|Hb].
      - rewrite Z.pow_neg_r by lia. rewrite Z.mod_0_r. exact Hx.
      - apply Z.mod_pos_bound. apply Z.pow_pos_nonneg; lia. }
    destruct (_ =? 0); [intros [= <- <-]; exact Hacc|].
    destruct (_ <=? _); [discriminate|]. apply IH. exact Hacc.
Qed.


Section RLEDecodeFacts.
Variable decode_value : list Z -> Z -> outcome (Z * Z).
Hypothesis decode_value_Ok : forall data size v n,
  size <= Z.of_nat (length data) ->
  decode_value data size = Ok (v, n) ->
  1 <= n <= size
  /\ forall extra size',
       size <= size' <= Z.of_nat (length (data ++ extra)) ->
       decode_value (data ++ extra) size' = Ok (v, n).
Hypothesis decode_value_throws : forall data size e,
  decode_value data size = Throw e -> e = Truncated \/ e = Overflow.





Lemma length_advance data pos :
  0 <= pos <= Z.of_nat (length data) ->
  Z.of_nat (length (advance data pos)) = Z.of_nat (length data) - pos.
Proof. intros Hpos. unfold advance. rewrite length_drop. lia. Qed.



Lemma decode_runs_throws num_runs : forall data size pos result e,
  RLEEncoder.decode_runs decode_value num_runs data size pos result = Throw e ->
  e = Truncated \/ e = Overflow.
Proof.
  induction num_runs as [|num_runs IH]; intros data size pos result e;
    [discriminate|].
  cbn [RLEEncoder.decode_runs].
  destruct (VarintCodec.decodeUInt32Safe _ _) as [[l n]| |] eqn:Hl;
    cbn [bind]; try discriminate.
  - destruct (decode_value _ _) as [[v m]| |] eqn:Hv;
      cbn [bind]; try discriminate.
    + apply IH.
    + intros [= <-]. eapply decode_value_throws. exact Hv.
  - intros [= <-]. eapply decodeUInt32Safe_throws. exact Hl.
Qed.

Lemma decode_throws data size e :
  RLEEncoder.decode_reserved decode_value data size = Throw e ->
  e = Truncated \/ e = Overflow.
Proof.
  unfold RLEEncoder.decode_reserved.
  destruct (VarintCodec.decodeUInt32Safe _ _) as [[l n]| |] eqn:Hl;
    cbn [bind]; try discriminate.
  - apply decode_runs_throws.
  - intros [= <-]. eapply decodeUInt32Safe_throws. exact Hl.
Qed.
End RLEDecodeFacts.

(** *** The two widths *)

Lemma RLE_int32_round_trip values post size num_values :
  values <> [] -> Forall is_i32 values ->
  Z.of_nat (length values) < 2 ^ 32 ->
  Z.of_nat (length (RLEEncoder.encodeInt32 values)) <= size
    <= Z.of_nat (length (RLEEncoder.encodeInt32 values ++ post)) ->
  size < 2 ^ 64 ->
  num_values <= max_size 4 ->
  RLEEncoder.decodeInt32 (RLEEncoder.encodeInt32 values ++ post) size num_values
  = Ok values.
Proof.
  intros Hne Hok Hlen Hsize H64 Hnum.
  unfold RLEEncoder.decodeInt32. rewrite rle_decode_reserved by exact Hnum.
  apply (rle_round_trip VarintCodec.encodeInt32 VarintCodec.decodeInt32Safe
           is_i32); auto.
  intros v extra sz Hv Hsz. apply decode_encodeInt32; assumption.
Qed.

Lemma RLE_int64_round_trip values post size num_values :
  values <> [] -> Forall is_i64 values ->
  Z.of_nat (length values) < 2 ^ 32 ->
  Z.of_nat (length (RLEEncoder.encodeInt64 values)) <= size
    <= Z.of_nat (length (RLEEncoder.encodeInt64 values ++ post)) ->
  size < 2 ^ 64 ->
  num_values <= max_size 8 ->
  RLEEncoder.decodeInt64 (RLEEncoder.encodeInt64 values ++ post) size num_values
  = Ok values.
Proof.
  intros Hne Hok Hlen Hsize H64 Hnum.
  unfold RLEEncoder.decodeInt64. rewrite rle_decode_reserved by exact Hnum.
  apply (rle_round_trip VarintCodec.encodeInt64 VarintCodec.decodeInt64Safe
           is_i64); auto.
  intros v extra sz Hv Hsz. apply decode_encodeInt64; assumption.
Qed.

(** What the decoders throw: the two varint errors and, from
    [result.reserve], the length error. *)
Lemma rle_decode_throws elem_bytes decode_value data size num_values e :
  (forall data size e,
      decode_value data size = Throw e -> e = Truncated \/ e = Overflow) ->
  RLEEncoder.decode elem_bytes decode_value data size num_values = Throw e ->
  (e = LengthError /\ max_size elem_bytes < num_values)
  \/ (num_values <= max_size elem_bytes /\ (e = Truncated \/ e = Overflow)).
Proof.
  intros Hdv. unfold RLEEncoder.decode, reserve.
  destruct (Z.ltb_spec (max_size elem_bytes) num_values) as [Hbig|Hfit];
    cbn [bind].
  - intros [= <-]. left. split; [reflexivity|exact Hbig].
  - intros H. right. split; [exact Hfit|].
    exact (decode_throws decode_value Hdv data size e H).
Qed.

(** The runs the encoders write are maximal and stand for the input. *)
Lemma RLE_runs_maximal values :
  let runs := RLEEncoder.build_runs (length values) values in
  maximal_runs runs /\ RLEEncoder.expand runs = values.
Proof.
  destruct (build_runs_spec (length values) values (Nat.le_refl _))
    as (Hexp & _ & _ & Hmax & _).
  split; assumption.
Qed.

(** C1 at the empty vector: both encoders return zero bytes, and both
    decoders, handed these zero bytes with [num_values = 0], throw the
    "Truncated varint" error where the claim has them return the empty
    vector.  The delta decoders, which test [num_values == 0] first,
    return the empty vector on the same input. *)
Theorem C1_rle_empty_vector_does_not_round_trip :
  RLEEncoder.encodeInt32 [] = []
  /\ RLEEncoder.encodeInt64 [] = []
  /\ RLEEncoder.decodeInt32 (RLEEncoder.encodeInt32 []) 0 0 = Throw Truncated
  /\ RLEEncoder.decodeInt64 (RLEEncoder.encodeInt64 []) 0 0 = Throw Truncated
  /\ DeltaEncoder.decodeInt32 (DeltaEncoder.encodeInt32 []) 0 0 = Ok []
  /\ DeltaEncoder.decodeInt64 (DeltaEncoder.encodeInt64 []) 0 0 = Ok [].
Proof. repeat split. Qed.

(** C7 as stated fails: a buffer with one run of length 0 decodes to the
    empty vector without any error. *)
Lemma C7_counterexample :
  RLEEncoder.decoded_runs VarintCodec.decodeInt32Safe [1; 0; 10] 3
    = Ok [(0, 5)]
  /\ RLEEncoder.decodeInt32 [1; 0; 10] 3 0 = Ok []
  /\ RLEEncoder.decodeInt64 [1; 0; 10] 3 0 = Ok []
  /\ RLEEncoder.decodeInt32 [1; 0; 10] 3 0 <> Throw InvalidRun
  /\ RLEEncoder.decodeInt64 [1; 0; 10] 3 0 <> Throw InvalidRun.
Proof. repeat split; discriminate. Qed.

(** C7, as the code has it: the decoders have no InvalidRun error, on
    any buffer and with any [num_values].  A buffer that holds runs
    [(run_length, value)], zero lengths included, whose values fit a
    vector, read with a [num_values] that declares no more values than
    there are, decodes to each value repeated [run_length] times, so
    that a run of length 0 is accepted and contributes no value. *)
Theorem C7_zero_length_runs_are_accepted
  (runs32 runs64 : list (Z * Z)) (post : list Z)
  (num_values32 num_values64 : Z) :
  Forall (run_ok is_i32) runs32 ->
  Forall (run_ok is_i64) runs64 ->
  Z.of_nat (length runs32) < 2 ^ 32 ->
  Z.of_nat (length runs64) < 2 ^ 32 ->
  Z.of_nat (length (RLEEncoder.write_runs VarintCodec.encodeInt32 runs32 ++ post))
    < 2 ^ 64 ->
  Z.of_nat (length (RLEEncoder.write_runs VarintCodec.encodeInt64 runs64 ++ post))
    < 2 ^ 64 ->
  num_values32 <= total_run_length runs32 <= max_size 4 ->
  num_values64 <= total_run_length runs64 <= max_size 8 ->
  let data32 := RLEEncoder.write_runs VarintCodec.encodeInt32 runs32 ++ post in
  let data64 := RLEEncoder.write_runs VarintCodec.encodeInt64 runs64 ++ post in
  RLEEncoder.decodeInt32 data32 (Z.of_nat (length data32)) num_values32
    = Ok (RLEEncoder.expand runs32)
  /\ RLEEncoder.decodeInt64 data64 (Z.of_nat (length data64)) num_values64
    = Ok (RLEEncoder.expand runs64)
  /\ (forall value runs',
        RLEEncoder.expand ((0, value) :: runs') = RLEEncoder.expand runs')
  /\ (forall data size num_values,
        RLEEncoder.decodeInt32 data size num_values <> Throw InvalidRun
        /\ RLEEncoder.decodeInt64 data size num_values <> Throw InvalidRun).
Proof.
  intros Hok32 Hok64 Hcount32 Hcount64 H32 H64 Hnum32 Hnum64 data32 data64.
  subst data32 data64.
  split; [|split; [|split]].
  - unfold RLEEncoder.decodeInt32. rewrite rle_decode_reserved by lia.
    apply (decode_written VarintCodec.encodeInt32 VarintCodec.decodeInt32Safe
             is_i32); auto.
    + intros v extra sz Hv Hsz. apply decode_encodeInt32; assumption.
    + rewrite length_app. lia.
  - unfold RLEEncoder.decodeInt64. rewrite rle_decode_reserved by lia.
    apply (decode_written VarintCodec.encodeInt64 VarintCodec.decodeInt64Safe
             is_i64); auto.
    + intros v extra sz Hv Hsz. apply decode_encodeInt64; assumption.
    + rewrite length_app. lia.
  - reflexivity.
  - intros data size num_values. split; intros H.
    + destruct (rle_decode_throws 4 _ data size num_values _
                  decodeInt32Safe_throws H) as [[? _]|[_ [?|?]]];
        discriminate.
    + destruct (rle_decode_throws 8 _ data size num_values _
                  decodeInt64Safe_throws H) as [[? _]|[_ [?|?]]];
        discriminate.
Qed.

Lemma C7_zero_length_runs_are_accepted_witness :
  RLEEncoder.decodeInt32 [2; 0; 14; 2; 10] 5 0 = Ok [5; 5]
  /\ RLEEncoder.decodeInt64 [2; 0; 14; 2; 10] 5 2 = Ok [5; 5].
Proof.
  refine (let H := C7_zero_length_runs_are_accepted
                     [(0, 7); (2, 5)] [(0, 7); (2, 5)] [] 0 2
                     _ _ _ _ _ _ _ _ in
          conj (proj1 H) (proj1 (proj2 H))).
  - repeat constructor; unfold is_u32, is_i32; simpl; lia.
  - repeat constructor; unfold is_u32, is_i64; simpl; lia.
  - simpl. lia.
  - simpl. lia.
  - vm_compute. reflexivity.
  - vm_compute. reflexivity.
  - rewrite max_size_4. unfold total_run_length. simpl. lia.
  - rewrite max_size_8. unfold total_run_length. simpl. lia.
Defined.




(** ** Page skipping *)

(** C6: with both bounds present and [min <= max], [canSkipPage] answers
    true exactly when no value of [[min, max]] satisfies the predicate,
    which is the table GT: max <= v, GE: max < v, LT: min >= v, LE:
    min > v, EQ: v < min or v > max, NE: min = max = v; it answers false
    when a bound is absent; and a page it reports skippable, whose
    statistics bound every decoded value, holds no value that satisfies
    the predicate. *)
Theorem C6_page_skip_is_sound
  (p : Predicate) (stats : PageStats) (min max : Z) (values : list Z) :
  min_int stats = Some min -> max_int stats = Some max ->
  Forall (fun v => min <= v <= max) values ->
  (min <= max ->
   (canSkipPage p stats = true
    <-> forall x, min <= x <= max -> evaluate p x = false))
  /\ (canSkipPage p stats = true
      <-> match op p with
          | GT => max <= value p
          | GE => max < value p
          | LT => min >= value p
          | LE => min > value p
          | EQ => value p < min \/ value p > max
          | NE => min = max /\ max = value p
          end)
  /\ (canSkipPage p stats = true ->
      Forall (fun v => evaluate p v = false) values)
  /\ (forall stats',
        min_int stats' = None \/ max_int stats' = None ->
        canSkipPage p stats' = false).
Proof.
  intros Hmin Hmax Hbounds.
  assert (Htable : canSkipPage p stats = true
      <-> match op p with
          | GT => max <= value p
          | GE => max < value p
          | LT => min >= value p
          | LE => min > value p
          | EQ => value p < min \/ value p > max
          | NE => min = max /\ max = value p
          end).
  { unfold canSkipPage. rewrite Hmin, Hmax.
    destruct (op p);
      rewrite ?orb_true_iff, ?andb_true_iff, ?Z.leb_le, ?Z.ltb_lt, ?Z.eqb_eq;
      lia. }
  assert (Hsound : forall x,
             canSkipPage p stats = true -> min <= x <= max ->
             evaluate p x = false).
  { intros x Hskip Hx. apply Htable in Hskip. unfold evaluate.
    destruct (op p);
      rewrite ?negb_false_iff, ?Z.eqb_neq, ?Z.eqb_eq, ?Z.ltb_ge, ?Z.leb_gt;
      lia. }
  split; [|split; [exact Htable|split]].
  - intros Hle. split; [intros Hskip x Hx; apply Hsound; assumption|].
    intros Hnone. apply Htable. unfold evaluate in Hnone.
    pose proof (Hnone min ltac:(lia)) as Hlo.
    pose proof (Hnone max ltac:(lia)) as Hhi.
    destruct (op p);
      rewrite ?negb_false_iff, ?Z.eqb_neq, ?Z.eqb_eq, ?Z.ltb_ge, ?Z.leb_gt
        in Hlo, Hhi;
      try lia.
    destruct (Z.lt_ge_cases (value p) min); [lia|].
    destruct (Z.lt_ge_cases max (value p)); [lia|].
    specialize (Hnone (value p) ltac:(lia)).
    rewrite Z.eqb_refl in Hnone. discriminate.
  - intros Hskip. eapply Forall_impl; [exact Hbounds|].
    intros v Hv. apply Hsound; assumption.
  - intros stats' [H|H]; unfold canSkipPage; rewrite H; [reflexivity|].
    destruct (min_int stats'); reflexivity.
Qed.

Lemma C6_page_skip_is_sound_witness :
  let stats := {| min_int := Some 100; max_int := Some 200;
                  null_count := 0; distinct_count_estimate := 0 |} in
  let p := {| column := "value"; op := GT; value := 250 |} in
  canSkipPage p stats = true
  /\ Forall (fun v => evaluate p v = false) [100; 150; 200].
Proof.
  split; [reflexivity|].
  refine (proj1 (proj2 (proj2
    (C6_page_skip_is_sound
       {| column := "value"; op := GT; value := 250 |}
       {| min_int := Some 100; max_int := Some 200;
          null_count := 0; distinct_count_estimate := 0 |}
       100 200 [100; 150; 200] eq_refl eq_refl _))) eq_refl).
  repeat constructor; lia.
Defined.

(** ** Delta encoding *)

Lemma length_le_bytes n : forall z, length (le_bytes n z) = n.
Proof. induction n as [|n IH]; intros z; simpl; [|rewrite IH]; reflexivity. Qed.

Lemma read_le_le_bytes n : forall z extra,
  read_le n (le_bytes n z ++ extra) = Some (z mod 2 ^ (8 * Z.of_nat n)).
Proof.
  induction n as [|n IH]; intros z extra.
  - simpl. rewrite Z.mod_1_r. reflexivity.
  - cbn [le_bytes read_le app]. rewrite IH. f_equal.
    assert (Hpow : 0 < 2 ^ (8 * Z.of_nat n)) by (apply Z.pow_pos_nonneg; lia).
    unfold u8. rewrite Z.mod_mod by lia.
    rewrite Z.shiftl_mul_pow2, Z.shiftr_div_pow2 by lia.
    rewrite lor_shifted by (try apply Z.mod_pos_bound; lia).
    replace (8 * Z.of_nat (S n)) with (8 + 8 * Z.of_nat n) by lia.
    rewrite Z.pow_add_r by lia.
    rewrite Z.rem_mul_r by lia. lia.
Qed.

Lemma i32_step prev v : is_i32 v -> i32 (prev + i32 (v - prev)) = v.
Proof.
  unfold is_i32, i32. intros Hv.
  replace (prev + ((v - prev + 2 ^ 31) mod 2 ^ 32 - 2 ^ 31) + 2 ^ 31)
    with (prev + (v - prev + 2 ^ 31) mod 2 ^ 32) by lia.
  rewrite Zplus_mod_idemp_r.
  replace (prev + (v - prev + 2 ^ 31)) with (v + 2 ^ 31) by lia.
  rewrite Z.mod_small; lia.
Qed.

Lemma i64_step prev v : is_i64 v -> i64 (prev + i64 (v - prev)) = v.
Proof.
  unfold is_i64, i64. intros Hv.
  replace (prev + ((v - prev + 2 ^ 63) mod 2 ^ 64 - 2 ^ 63) + 2 ^ 63)
    with (prev + (v - prev + 2 ^ 63) mod 2 ^ 64) by lia.
  rewrite Zplus_mod_idemp_r.
  replace (prev + (v - prev + 2 ^ 63)) with (v + 2 ^ 63) by lia.
  rewrite Z.mod_small; lia.
Qed.

Lemma width_fits_4 : 2 ^ 32 <= max_size (Z.of_nat 4).
Proof. vm_compute. discriminate. Qed.

Lemma width_fits_8 : 2 ^ 32 <= max_size (Z.of_nat 8).
Proof. vm_compute. discriminate. Qed.

Lemma i32_read z : is_i32 z -> i32 (z mod 2 ^ (8 * Z.of_nat 4)) = z.
Proof.
  unfold is_i32, i32. intros Hz. change (8 * Z.of_nat 4) with 32.
  rewrite Zplus_mod_idemp_l. rewrite Z.mod_small; lia.
Qed.

Lemma i64_read z : is_i64 z -> i64 (z mod 2 ^ (8 * Z.of_nat 8)) = z.
Proof.
  unfold is_i64, i64. intros Hz. change (8 * Z.of_nat 8) with 64.
  rewrite Zplus_mod_idemp_l. rewrite Z.mod_small; lia.
Qed.

Section DeltaFacts.
Variable width : nat.
Variable cast : Z -> Z.
Variable encode_value : Z -> list Z.
Variable decode_value : list Z -> Z -> outcome (Z * Z).
Variable value_ok : Z -> Prop.
Hypothesis codec : forall v extra size,
  value_ok v ->
  Z.of_nat (length (encode_value v)) <= size
    <= Z.of_nat (length (encode_value v ++ extra)) ->
  decode_value (encode_value v ++ extra) size
  = Ok (v, Z.of_nat (length (encode_value v))).
Hypothesis cast_ok : forall z, value_ok (cast z).
Hypothesis cast_step : forall prev v,
  value_ok v -> cast (prev + cast (v - prev)) = v.
Hypothesis cast_read : forall z,
  value_ok z -> cast (z mod 2 ^ (8 * Z.of_nat width)) = z.
Hypothesis width_fits : 2 ^ 32 <= max_size (Z.of_nat width).

#[local] Abbreviation write_deltas :=
  (DeltaEncoder.write_deltas cast encode_value).
#[local] Abbreviation read_deltas :=
  (DeltaEncoder.read_deltas cast decode_value).

Lemma read_deltas_written rest : forall data pre post size prev result,
  data = pre ++ write_deltas prev rest ++ post ->
  Forall value_ok rest ->
  Z.of_nat (length (pre ++ write_deltas prev rest)) <= size
    <= Z.of_nat (length data) ->
  size < 2 ^ 64 ->
  read_deltas (length rest) data size (Z.of_nat (length pre)) prev result
  = Ok (result ++ rest).
Proof.
  induction rest as [|v rest IH];
    intros data pre post size prev result Hdata Hok Hsize H64.
  - simpl. rewrite app_nil_r. reflexivity.
  - inversion Hok as [|? ? Hv Hoks]; subst.
    cbn [length DeltaEncoder.read_deltas DeltaEncoder.write_deltas] in *.
    rewrite !length_app in Hsize.
    set (data := pre ++ (encode_value (cast (v - prev))
                           ++ write_deltas v rest) ++ post) in *.
    rewrite (advance_at data pre
               (encode_value (cast (v - prev)) ++ write_deltas v rest ++ post))
      by (subst data; rewrite <- ?app_assoc; reflexivity).
    rewrite size_sub_id by lia.
    rewrite codec by (auto; rewrite !length_app; lia).
    cbn [bind]. rewrite cast_step by exact Hv.
    replace (Z.of_nat (length pre)
             + Z.of_nat (length (encode_value (cast (v - prev)))))
      with (Z.of_nat (length (pre ++ encode_value (cast (v - prev)))))
      by (rewrite !length_app; lia).
    rewrite (IH data _ post size).
    + rewrite <- app_assoc. reflexivity.
    + subst data. rewrite <- ?app_assoc. reflexivity.
    + exact Hoks.
    + subst data. rewrite !length_app in *. lia.
    + exact H64.
Qed.

Lemma delta_round_trip values post size :
  Forall value_ok values ->
  Z.of_nat (length values) <= 2 ^ 32 ->
  Z.of_nat (length (DeltaEncoder.encode width cast encode_value values))
    <= size
    <= Z.of_nat (length (DeltaEncoder.encode width cast encode_value values
                           ++ post)) ->
  size < 2 ^ 64 ->
  DeltaEncoder.decode width cast decode_value
    (DeltaEncoder.encode width cast encode_value values ++ post) size
    (Z.of_nat (length values))
  = Ok values.
Proof.
  intros Hok Hlen Hsize H64.
  destruct values as [|base rest]; [reflexivity|].
  inversion Hok as [|? ? Hbase Hrest]; subst.
  rewrite delta_decode_reserved; [|cbn [length]; lia|lia].
  unfold DeltaEncoder.decode_reserved.
  cbn [DeltaEncoder.encode] in *.
  set (count := VarintCodec.encodeUInt32
                  (u32 (Z.of_nat (length (base :: rest)) - 1))) in *.
  rewrite !length_app, length_le_bytes in Hsize.
  rewrite <- app_assoc. rewrite read_le_le_bytes.
  rewrite cast_read by exact Hbase.
  rewrite (advance_at _ (le_bytes width base)
             (count ++ write_deltas base rest ++ post))
    by (rewrite ?length_le_bytes, <- ?app_assoc; reflexivity).
  rewrite size_sub_id by lia.
  assert (Hcount : is_u32 (Z.of_nat (length rest))).
  { unfold is_u32. simpl in Hlen. lia. }
  subst count.
  replace (Z.of_nat (length (base :: rest)) - 1)
    with (Z.of_nat (length rest)) in * by (simpl; lia).
  rewrite (u32_id _ Hcount) in *.
  rewrite decode_encodeUInt32 by (auto; rewrite !length_app; lia).
  cbn [bind]. rewrite Nat2Z.id.
  replace (Z.of_nat width
           + Z.of_nat (length (VarintCodec.encodeUInt32
                                 (Z.of_nat (length rest)))))
    with (Z.of_nat (length (le_bytes width base
                              ++ VarintCodec.encodeUInt32
                                   (Z.of_nat (length rest)))))
    by (rewrite length_app, length_le_bytes; lia).
  rewrite (read_deltas_written rest _ _ post size base [base]).
  - reflexivity.
  - rewrite <- ?app_assoc. reflexivity.
  - exact Hrest.
  - rewrite !length_app, length_le_bytes. lia.
  - exact H64.
Qed.
End DeltaFacts.

(** C2: a vector of int32 (resp. int64) values written by
    [DeltaEncoder::encodeInt32] (resp. [encodeInt64]) and read back with
    the encoded byte length and [num_values = |V|] is returned unchanged,
    the empty vector included.  Deltas are formed by wrapping subtraction
    and re-accumulated by wrapping addition, so nothing is asked of the
    differences of adjacent values.  The number of deltas is written as a
    32-bit count and sizes are [size_t]: the vectors hold at most 2^32
    values and their encodings fewer than 2^64 bytes. *)
Theorem C2_delta_round_trip (V32 V64 : list Z) :
  Forall is_i32 V32 -> Forall is_i64 V64 ->
  Z.of_nat (length V32) <= 2 ^ 32 -> Z.of_nat (length V64) <= 2 ^ 32 ->
  Z.of_nat (length (DeltaEncoder.encodeInt32 V32)) < 2 ^ 64 ->
  Z.of_nat (length (DeltaEncoder.encodeInt64 V64)) < 2 ^ 64 ->
  DeltaEncoder.decodeInt32 (DeltaEncoder.encodeInt32 V32)
    (Z.of_nat (length (DeltaEncoder.encodeInt32 V32)))
    (Z.of_nat (length V32)) = Ok V32
  /\ DeltaEncoder.decodeInt64 (DeltaEncoder.encodeInt64 V64)
       (Z.of_nat (length (DeltaEncoder.encodeInt64 V64)))
       (Z.of_nat (length V64)) = Ok V64.
Proof.
  intros H32 H64 Hl32 Hl64 Hs32 Hs64. split.
  - rewrite <- (app_nil_r (DeltaEncoder.encodeInt32 V32)) at 1.
    apply (delta_round_trip 4 i32 VarintCodec.encodeInt32
             VarintCodec.decodeInt32Safe is_i32
             (fun v extra sz => decode_encodeInt32 extra sz v)
             i32_range i32_step i32_read width_fits_4); auto.
    rewrite app_nil_r. unfold DeltaEncoder.encodeInt32. lia.
  - rewrite <- (app_nil_r (DeltaEncoder.encodeInt64 V64)) at 1.
    apply (delta_round_trip 8 i64 VarintCodec.encodeInt64
             VarintCodec.decodeInt64Safe is_i64
             (fun v extra sz => decode_encodeInt64 extra sz v)
             i64_range i64_step i64_read width_fits_8); auto.
    rewrite app_nil_r. unfold DeltaEncoder.encodeInt64. lia.
Qed.

Lemma C2_delta_round_trip_witness :
  let V32 := [2147483647; -2147483648; 0; -1] in
  let V64 := [1000; 1100; -9223372036854775808; 9223372036854775807] in
  DeltaEncoder.decodeInt32 (DeltaEncoder.encodeInt32 V32)
    (Z.of_nat (length (DeltaEncoder.encodeInt32 V32)))
    (Z.of_nat (length V32)) = Ok V32
  /\ DeltaEncoder.decodeInt64 (DeltaEncoder.encodeInt64 V64)
       (Z.of_nat (length (DeltaEncoder.encodeInt64 V64)))
       (Z.of_nat (length V64)) = Ok V64.
Proof.
  apply (C2_delta_round_trip
           [2147483647; -2147483648; 0; -1]
           [1000; 1100; -9223372036854775808; 9223372036854775807]).
  - repeat constructor; unfold is_i32; simpl; lia.
  - repeat constructor; unfold is_i64; simpl; lia.
  - simpl. lia.
  - simpl. lia.
  - vm_compute. reflexivity.
  - vm_compute. reflexivity.
Defined.

(** The differences of the first witness vector leave the 32-bit range. *)
Example delta_overflow_wraps :
  i32 (-2147483648 - 2147483647) = 1
  /\ DeltaEncoder.encodeInt32 [2147483647; -2147483648]
     = [255; 255; 255; 127; 1; 2].
Proof. split; reflexivity. Qed.

(** ** Buffers that end too early *)

(** C8 at truncated buffers.  The delta decoders copy the base, and the
    dictionary decoder copies the dictionary size, the entry lengths and
    the entry bytes, without comparing with [size]: on a buffer that
    ends inside one of these fields the read runs past the end of the
    buffer, and [size - pos] wraps around.  No Truncated error is thrown;
    when the memory behind the declared end can be read, the bytes found
    there are decoded as if they were part of the page. *)
Theorem C8_fixed_width_reads_are_unchecked :
  DeltaEncoder.decodeInt32 [1; 2] 2 1 = OutOfBounds
  /\ DeltaEncoder.decodeInt64 [1; 2; 3; 4] 4 1 = OutOfBounds
  /\ DeltaEncoder.decodeInt32 [1; 2; 3; 0; 0] 3 1 = Ok [197121]
  /\ size_sub 3 4 = 2 ^ 64 - 1
  /\ DictionaryEncoder.decode [1; 0] 2 1 = OutOfBounds
  /\ DictionaryEncoder.decode [1; 0; 0; 0; 5; 0; 0; 0; 97; 98] 10 1
     = OutOfBounds
  /\ DictionaryEncoder.decode [1; 0; 0; 0; 2; 0; 0; 0; 97; 98; 1; 1; 0] 9 1
     = Ok ["ab"%string]
  /\ VarintCodec.decodeUInt32Safe [128] 1 = Throw Truncated.
Proof. repeat split. Qed.

(** ** Dictionary encoding *)

(** C3 at the empty vector: the encoder writes a dictionary size of 0 and
    no index bytes, and the decoder, handed these four bytes with
    [num_values = 0], throws the "Truncated varint" error of the RLE
    decoder where the claim has it return the empty vector. *)
Theorem C3_dictionary_empty_vector_does_not_round_trip :
  forall self,
    DictionaryEncoder.encode self [] = (DictionaryEncoder.mk ∅ [], [0; 0; 0; 0])
    /\ DictionaryEncoder.decode [0; 0; 0; 0] 4 0 = Throw Truncated.
Proof. intros self. split; reflexivity. Qed.

Lemma lookup_all_spec dictionary : forall indices result,
  Z.of_nat (length dictionary) < 2 ^ 31 ->
  (DictionaryEncoder.lookup_all dictionary indices result
     = Throw InvalidDictIndex
   <-> Exists (fun idx => ~ 0 <= idx < Z.of_nat (length dictionary)) indices)
  /\ (Forall (fun idx => 0 <= idx < Z.of_nat (length dictionary)) indices ->
      exists strings,
        DictionaryEncoder.lookup_all dictionary indices result
          = Ok (result ++ strings)
        /\ Forall2 (fun idx str => dictionary !! Z.to_nat idx = Some str)
                   indices strings).
Proof.
  intros indices. induction indices as [|idx indices IH]; intros result Hdict.
  - cbn [DictionaryEncoder.lookup_all]. split.
    + split; [discriminate|]. intros H. inversion H.
    + intros _. exists []. rewrite app_nil_r. split; [reflexivity|constructor].
  - cbn [DictionaryEncoder.lookup_all].
    assert (Hcast : i32 (Z.of_nat (length dictionary))
                    = Z.of_nat (length dictionary))
      by (apply i32_id; unfold is_i32; lia).
    rewrite Hcast.
    destruct (Z.ltb_spec idx 0) as [Hneg|Hnonneg]; cbn [orb].
    { split.
      - split; [|reflexivity]. intros _. left. lia.
      - intros H. inversion H; subst. lia. }
    destruct (Z.leb_spec (Z.of_nat (length dictionary)) idx) as [Hbig|Hin].
    { split.
      - split; [|reflexivity]. intros _. left. lia.
      - intros H. inversion H; subst. lia. }
    destruct (dictionary !! Z.to_nat idx) as [str|] eqn:Hstr.
    2:{ apply lookup_ge_None in Hstr. lia. }
    destruct (IH (result ++ [str]) Hdict) as [Hthrow Hok]. split.
    + rewrite Hthrow. split; [intros H; right; exact H|].
      intros H. inversion H; subst; [lia|assumption].
    + intros Hall. inversion Hall; subst.
      destruct (Hok ltac:(assumption)) as (strings & -> & Hstrings).
      exists (str :: strings). rewrite <- app_assoc. split; [reflexivity|].
      constructor; assumption.
Qed.




(** *** Strings and their bytes *)

Lemma length_string_bytes s :
  length (string_bytes s) = String.length s.
Proof.
  unfold string_bytes. rewrite length_map.
  induction s as [|c s IH]; simpl; [|rewrite IH]; reflexivity.
Qed.

Lemma bytes_string_bytes s : bytes_string (string_bytes s) = s.
Proof.
  unfold bytes_string, string_bytes.
  rewrite <- (string_of_list_ascii_of_string s) at 2. f_equal.
  rewrite map_map. rewrite <- (map_id (list_ascii_of_string s)) at 2.
  apply map_ext. intros c.
  pose proof (nat_ascii_bounded c) as Hc.
  rewrite u8_id by (unfold is_u8; lia).
  rewrite Nat2Z.id. apply ascii_nat_embedding.
Qed.

Lemma read_string_written s extra :
  DictionaryEncoder.read_string (string_bytes s ++ extra)
    (Z.of_nat (String.length s)) = Some s.
Proof.
  unfold DictionaryEncoder.read_string.
  rewrite length_app, length_string_bytes.
  destruct (Z.ltb_spec (Z.of_nat (String.length s + length extra))
              (Z.of_nat (String.length s))); [lia|].
  rewrite Nat2Z.id. rewrite <- (length_string_bytes s).
  rewrite take_app_length. rewrite bytes_string_bytes. reflexivity.
Qed.

Lemma length_write_entry s :
  length (DictionaryEncoder.write_entry s) = (4 + String.length s)%nat.
Proof.
  unfold DictionaryEncoder.write_entry.
  rewrite length_app, length_le_bytes, length_string_bytes. reflexivity.
Qed.

Lemma read_entries_written entries : forall data pre post dictionary,
  data = pre ++ flat_map DictionaryEncoder.write_entry entries ++ post ->
  Forall (fun s => Z.of_nat (String.length s) < 2 ^ 32) entries ->
  DictionaryEncoder.read_entries (length entries) data
    (Z.of_nat (length pre)) dictionary
  = Ok (dictionary ++ entries,
        Z.of_nat (length (pre ++ flat_map DictionaryEncoder.write_entry entries))).
Proof.
  induction entries as [|s entries IH]; intros data pre post dictionary Hdata Hlen.
  - simpl. rewrite !app_nil_r. reflexivity.
  - inversion Hlen as [|? ? Hs Hrest]; subst.
    cbn [length DictionaryEncoder.read_entries flat_map].
    set (data := pre ++ (DictionaryEncoder.write_entry s
                           ++ flat_map DictionaryEncoder.write_entry entries)
                         ++ post).
    assert (Hu : is_u32 (Z.of_nat (String.length s))) by (unfold is_u32; lia).
    rewrite (advance_at data pre
               (le_bytes 4 (u32 (Z.of_nat (String.length s)))
                  ++ string_bytes s
                  ++ flat_map DictionaryEncoder.write_entry entries ++ post))
      by (subst data; unfold DictionaryEncoder.write_entry;
          rewrite <- ?app_assoc; reflexivity).
    rewrite read_le_le_bytes. rewrite (u32_id _ Hu).
    change (8 * Z.of_nat 4) with 32. rewrite Z.mod_small by exact Hu.
    rewrite (advance_at data
               (pre ++ le_bytes 4 (u32 (Z.of_nat (String.length s))))
               (string_bytes s
                  ++ flat_map DictionaryEncoder.write_entry entries ++ post))
      by (subst data; unfold DictionaryEncoder.write_entry;
          rewrite ?length_app, ?length_le_bytes, <- ?app_assoc; auto; lia).
    rewrite read_string_written.
    replace (Z.of_nat (length pre) + 4 + Z.of_nat (String.length s))
      with (Z.of_nat (length (pre ++ DictionaryEncoder.write_entry s)))
      by (rewrite length_app, length_write_entry; lia).
    rewrite (IH data _ post).
    + rewrite <- !app_assoc. reflexivity.
    + subst data. rewrite <- ?app_assoc. reflexivity.
    + exact Hrest.
Qed.

(** *** The state of the encoder *)

Lemma fold_add_spec values : forall self indices,
  Z.of_nat (length values) < 2 ^ 32 ->
  fold_left DictionaryEncoder.add values (DictionaryEncoder.mk ∅ [], [])
    = (self, indices) ->
  first_seen_order (DictionaryEncoder.dict_values_ self) values
  /\ (forall s idx,
        DictionaryEncoder.dict_ self !! s = Some idx
        <-> 0 <= idx
            /\ DictionaryEncoder.dict_values_ self !! Z.to_nat idx = Some s)
  /\ Forall2 (fun idx v =>
                0 <= idx
                /\ DictionaryEncoder.dict_values_ self !! Z.to_nat idx = Some v)
             indices values
  /\ (length (DictionaryEncoder.dict_values_ self) <= length values)%nat.
Proof.
  induction values as [|v l IH] using rev_ind; intros self indices Hlen.
  - simpl. intros [= <- <-]. simpl. split; [|split; [|split]].
    + split; [constructor|]. split; [reflexivity|].
      intros i j s t H. rewrite lookup_nil in H. discriminate.
    + intros s idx. rewrite lookup_empty, lookup_nil.
      split; [discriminate|]. intros [_ H]. discriminate.
    + constructor.
    + lia.
  - rewrite fold_left_app. rewrite length_app in Hlen. simpl in Hlen.
    destruct (fold_left DictionaryEncoder.add l (DictionaryEncoder.mk ∅ [], []))
      as [self0 ind0] eqn:H0.
    destruct (IH self0 ind0 ltac:(lia) eq_refl)
      as ((Hnodup & Helem & Horder) & Hmap & Hidx & Hcount).
    cbn [fold_left DictionaryEncoder.add].
    set (dv := DictionaryEncoder.dict_values_ self0) in *.
    destruct (DictionaryEncoder.dict_ self0 !! v) as [idx|] eqn:Hv.
    + intros [= <- <-]. fold dv.
      destruct (proj1 (Hmap v idx) Hv) as [Hidx0 Hidxv].
      split; [|split; [exact Hmap|split]].
      * split; [exact Hnodup|]. split.
        -- intros s. rewrite elem_of_app, list_elem_of_singleton, Helem.
           split; [tauto|]. intros [H| ->]; [exact H|].
           apply Helem. eapply list_elem_of_lookup_2. exact Hidxv.
        -- intros i j s t Hi Hj Hij.
           destruct (Horder i j s t Hi Hj Hij) as (n & Hn & Ht).
           exists n. split; [apply lookup_app_l_Some; exact Hn|].
           rewrite take_app_le; [exact Ht|].
           apply lookup_lt_Some in Hn. lia.
      * apply Forall2_app; [exact Hidx|]. constructor; [|constructor]. auto.
      * rewrite length_app. simpl. lia.
    + intros [= <- <-]. cbn [DictionaryEncoder.dict_ DictionaryEncoder.dict_values_].
      fold dv.
      assert (Hfresh : v ∉ dv).
      { intros Hin. apply list_elem_of_lookup_1 in Hin as [i Hi].
        assert (Hsome : DictionaryEncoder.dict_ self0 !! v = Some (Z.of_nat i)).
        { apply Hmap. rewrite Nat2Z.id. split; [lia|exact Hi]. }
        congruence. }
      assert (Hu : u32 (Z.of_nat (length dv)) = Z.of_nat (length dv)).
      { apply u32_id. unfold is_u32. lia. }
      rewrite Hu.
      split; [|split; [|split]].
      * split; [|split].
        -- apply NoDup_app. split; [exact Hnodup|]. split.
           ++ intros x Hx. rewrite list_elem_of_singleton. congruence.
           ++ apply NoDup_singleton.
        -- intros s. rewrite !elem_of_app, Helem. reflexivity.
        -- intros i j s t Hi Hj Hij.
           apply lookup_snoc_Some in Hi as [[Hil Hi]|[-> <-]];
             apply lookup_snoc_Some in Hj as [[Hjl Hj]|[-> <-]]; try lia.
           ++ destruct (Horder i j s t Hi Hj Hij) as (n & Hn & Ht).
              exists n. split; [apply lookup_app_l_Some; exact Hn|].
              rewrite take_app_le; [exact Ht|].
              apply lookup_lt_Some in Hn. lia.
           ++ assert (Hs : s ∈ l)
                by (apply Helem; eapply list_elem_of_lookup_2; exact Hi).
              apply list_elem_of_lookup_1 in Hs as [n Hn].
              exists n. split; [apply lookup_app_l_Some; exact Hn|].
              rewrite take_app_le by (apply lookup_lt_Some in Hn; lia).
              intros Hin. apply Hfresh. apply Helem.
              apply elem_of_take in Hin as (k & Hk & _).
              eapply list_elem_of_lookup_2. exact Hk.
      * intros s idx'. destruct (decide (v = s)) as [<-|Hne].
        -- rewrite lookup_insert_eq. split.
           ++ intros [= <-]. rewrite Nat2Z.id. split; [lia|].
              apply list_lookup_middle. reflexivity.
           ++ intros [Hpos Hlook].
              apply lookup_snoc_Some in Hlook as [[_ Hlook]|[Hlook _]].
              ** exfalso. apply Hfresh. eapply list_elem_of_lookup_2.
                 exact Hlook.
              ** f_equal. lia.
        -- rewrite lookup_insert_ne by exact Hne. rewrite Hmap.
           rewrite lookup_snoc_Some. split.
           ++ intros [Hpos Hlook]. split; [exact Hpos|]. left.
              split; [|exact Hlook]. eapply lookup_lt_Some. exact Hlook.
           ++ intros [Hpos [[_ Hlook]|[_ Heq]]]; [auto|congruence].
      * apply Forall2_app.
        -- eapply Forall2_impl; [exact Hidx|]. intros idx' s [Hpos Hlook].
           split; [exact Hpos|]. apply lookup_app_l_Some. exact Hlook.
        -- constructor; [|constructor]. split; [lia|].
           rewrite Nat2Z.id. apply list_lookup_middle. reflexivity.
      * rewrite !length_app. simpl. lia.
Qed.

(** Round trip of a non-empty vector of strings, and the order of the
    dictionary the encoder is left with. *)
Lemma dictionary_round_trip self values :
  values <> [] ->
  Z.of_nat (length values) < 2 ^ 31 ->
  Forall (fun s => Z.of_nat (String.length s) < 2 ^ 32) values ->
  Z.of_nat (length (DictionaryEncoder.encode self values).2) < 2 ^ 64 ->
  DictionaryEncoder.decode (DictionaryEncoder.encode self values).2
    (Z.of_nat (length (DictionaryEncoder.encode self values).2))
    (Z.of_nat (length values))
  = Ok values
  /\ first_seen_order
       (DictionaryEncoder.dict_values_ (DictionaryEncoder.encode self values).1)
       values.
Proof.
  intros Hne Hlen Hstr. unfold DictionaryEncoder.encode, DictionaryEncoder.clear.
  destruct (fold_left DictionaryEncoder.add values (DictionaryEncoder.mk ∅ [], []))
    as [self' indices] eqn:Hfold.
  destruct (fold_add_spec values self' indices ltac:(lia) Hfold)
    as (Hfs & Hmap & Hidx & Hcount).
  cbn [fst snd]. set (dv := DictionaryEncoder.dict_values_ self') in *.
  intros Hsize. split; [|exact Hfs].
  assert (Hk : is_u32 (Z.of_nat (length dv))) by (unfold is_u32; lia).
  rewrite (u32_id _ Hk) in *.
  assert (Hrange : Forall (fun idx => 0 <= idx < Z.of_nat (length dv)) indices).
  { clear -Hidx. induction Hidx as [|idx v ? ? [Hpos Hlook] _ IH];
      constructor; [|exact IH].
    apply lookup_lt_Some in Hlook. lia. }
  assert (Hcast : map i32 indices = indices).
  { rewrite <- (map_id indices) at 2. apply map_ext_in.
    intros idx Hin. rewrite Forall_forall in Hrange.
    apply list_elem_of_In in Hin. specialize (Hrange idx Hin).
    apply i32_id. unfold is_i32. lia. }
  rewrite Hcast in *.
  set (rle := RLEEncoder.encodeInt32 indices) in *.
  set (entries := flat_map DictionaryEncoder.write_entry dv) in *.
  rewrite !length_app, length_le_bytes in Hsize.
  unfold DictionaryEncoder.decode, DictionaryEncoder.read_dictionary.
  rewrite read_le_le_bytes. change (8 * Z.of_nat 4) with 32.
  rewrite Z.mod_small by exact Hk. rewrite Nat2Z.id.
  change 4 with (Z.of_nat (length (le_bytes 4 (Z.of_nat (length dv))))).
  rewrite (read_entries_written dv _ _ rle []); [|reflexivity|].
  2:{ destruct Hfs as (_ & Helem & _). rewrite Forall_forall in Hstr |- *.
      intros s Hs. apply Hstr, Helem, Hs. }
  cbn [bind app]. fold entries.
  rewrite (advance_at _ (le_bytes 4 (Z.of_nat (length dv)) ++ entries) rle)
    by (rewrite <- ?app_assoc; reflexivity).
  rewrite size_sub_id by (rewrite !length_app, length_le_bytes; lia).
  replace (Z.of_nat (length (le_bytes 4 (Z.of_nat (length dv)) ++ entries ++ rle))
           - Z.of_nat (length (le_bytes 4 (Z.of_nat (length dv)) ++ entries)))
    with (Z.of_nat (length rle)) by (rewrite !length_app; lia).
  assert (Hdecode : RLEEncoder.decodeInt32 rle (Z.of_nat (length rle))
                      (Z.of_nat (length values)) = Ok indices).
  { rewrite <- (app_nil_r rle) at 1. subst rle.
    apply RLE_int32_round_trip.
    - intros ->. inversion Hidx; subst. congruence.
    - eapply Forall_impl; [exact Hrange|]. intros idx Hi.
      unfold is_i32. simpl in Hi. lia.
    - apply Forall2_length in Hidx. lia.
    - rewrite app_nil_r. lia.
    - lia.
    - rewrite max_size_4. lia. }
  rewrite Hdecode. cbn [bind].
  destruct (lookup_all_spec dv indices [] ltac:(lia)) as [_ Hok].
  destruct (Hok Hrange) as (strings & -> & Hstrings). cbn [app]. f_equal.
  eapply Forall2_unique; [exact Hstrings| |].
  - eapply Forall2_impl; [exact Hidx|]. intros idx v [_ H]. exact H.
  - intros idx s1 s2 H1 H2. congruence.
Qed.

Example dictionary_indices_first_seen :
  DictionaryEncoder.encode (DictionaryEncoder.mk ∅ ["stale"%string])
    ["b"; "a"; "b"; "c"; "a"]%string
  = (DictionaryEncoder.mk
       (<["c"%string := 2]> (<["a"%string := 1]> (<["b"%string := 0]> ∅)))
       ["b"; "a"; "c"]%string,
     [3; 0; 0; 0; 1; 0; 0; 0; 98; 1; 0; 0; 0; 97; 1; 0; 0; 0; 99;
      5; 1; 0; 1; 2; 1; 0; 1; 4; 1; 2]).
Proof. vm_compute. reflexivity. Qed.

(** * Further properties of the code *)

(** ** Size of a varint *)

Lemma payload_bound bytes :
  0 <= payload bytes < 2 ^ (7 * Z.of_nat (length bytes)).
Proof.
  induction bytes as [|b bytes IH].
  - simpl. lia.
  - cbn [payload length]. pose proof (land_7f_range b) as Hb.
    replace (7 * Z.of_nat (S (length bytes)))
      with (7 + 7 * Z.of_nat (length bytes)) by lia.
    rewrite Z.pow_add_r by lia. nia.
Qed.

Lemma length_encode_loop fuel v k :
  (0 < fuel)%nat -> 0 <= v < 2 ^ (7 * Z.of_nat fuel) -> (1 <= k)%nat ->
  (length (VarintCodec.encode_loop fuel v) <= k)%nat
  <-> v < 2 ^ (7 * Z.of_nat k).
Proof.
  intros Hfuel Hv Hk.
  destruct (encode_loop_spec fuel v Hfuel Hv) as (_ & Hpay & _ & Hlen).
  split.
  - intros Hle. rewrite <- Hpay.
    pose proof (payload_bound (VarintCodec.encode_loop fuel v)) as Hb.
    assert (2 ^ (7 * Z.of_nat (length (VarintCodec.encode_loop fuel v)))
            <= 2 ^ (7 * Z.of_nat k)) by (apply Z.pow_le_mono_r; lia).
    lia.
  - intros Hlt. destruct (Nat.le_gt_cases fuel k) as [Hge|Hgt]; [lia|].
    rewrite (encode_loop_fuel k fuel v) by lia.
    destruct (encode_loop_spec k v ltac:(lia) ltac:(lia)) as (_ & _ & _ & Hl).
    lia.
Qed.

Lemma zigzag_lt v n :
  0 <= n -> zigzag v < 2 ^ (n + 1) <-> - 2 ^ n <= v < 2 ^ n.
Proof.
  intros Hn. rewrite Z.pow_add_r by lia. unfold zigzag.
  destruct (Z.ltb_spec v 0); lia.
Qed.

(** X1: the [while (value >= 0x80)] loops of the varint encoders stop by
    themselves within 5 turns ([encodeUInt32], [encodeInt32]) or 10
    ([encodeInt64]): whatever larger number of turns they are allowed,
    they write the same bytes, at least one and at most 5 (resp. 10),
    each of them in [0, 256).  The [uint8_t temp[10]] buffers of the
    callers are never overrun. *)
Theorem varint_encoders_fit_their_buffer (u n w : Z) :
  is_u32 u -> is_i32 n -> is_i64 w ->
  (forall turns, (5 <= turns)%nat ->
     VarintCodec.encode_loop turns u = VarintCodec.encodeUInt32 u
     /\ VarintCodec.encode_loop turns (VarintCodec.zigzag32 n)
        = VarintCodec.encodeInt32 n)
  /\ (forall turns, (10 <= turns)%nat ->
        VarintCodec.encode_loop turns (VarintCodec.zigzag64 w)
        = VarintCodec.encodeInt64 w)
  /\ (1 <= length (VarintCodec.encodeUInt32 u) <= 5)%nat
  /\ (1 <= length (VarintCodec.encodeInt32 n) <= 5)%nat
  /\ (1 <= length (VarintCodec.encodeInt64 w) <= 10)%nat
  /\ Forall is_u8 (VarintCodec.encodeUInt32 u)
  /\ Forall is_u8 (VarintCodec.encodeInt32 n)
  /\ Forall is_u8 (VarintCodec.encodeInt64 w).
Proof.
  intros Hu Hn Hw.
  destruct (encodeUInt32_spec u Hu) as (_ & _ & Hbu & Hlu).
  destruct (encodeInt32_spec n Hn) as (_ & _ & Hbn & Hln).
  destruct (encodeInt64_spec w Hw) as (_ & _ & Hbw & Hlw).
  split; [|split; [|repeat split; try lia; assumption]].
  - intros turns Hturns.
    unfold VarintCodec.encodeInt32, VarintCodec.encodeUInt32. split.
    + apply encode_loop_fuel; [|lia]. unfold is_u32 in Hu. simpl. lia.
    + apply encode_loop_fuel; [|lia].
      rewrite zigzag32_eq by exact Hn.
      pose proof (zigzag_range n 31 ltac:(lia) Hn). simpl in *. lia.
  - intros turns Hturns. unfold VarintCodec.encodeInt64.
    apply encode_loop_fuel; [|lia].
    rewrite zigzag64_eq by exact Hw.
    pose proof (zigzag_range w 63 ltac:(lia) Hw). simpl in *. lia.
Qed.

Lemma varint_encoders_fit_their_buffer_witness :
  VarintCodec.encode_loop 64 (VarintCodec.zigzag64 (- 2 ^ 63))
  = VarintCodec.encodeInt64 (- 2 ^ 63)
  /\ (1 <= length (VarintCodec.encodeInt64 (- 2 ^ 63)) <= 10)%nat.
Proof.
  assert (Hu : is_u32 (2 ^ 32 - 1)) by (unfold is_u32; lia).
  assert (Hn : is_i32 (- 2 ^ 31)) by (unfold is_i32; lia).
  assert (Hw : is_i64 (- 2 ^ 63)) by (unfold is_i64; lia).
  pose proof (varint_encoders_fit_their_buffer
                (2 ^ 32 - 1) (- 2 ^ 31) (- 2 ^ 63) Hu Hn Hw) as H.
  split.
  - apply (proj1 (proj2 H)). lia.
  - exact (proj1 (proj2 (proj2 (proj2 (proj2 H))))).
Defined.

(** X2: the length of a varint is decided by the magnitude of the value:
    an unsigned value takes at most [k] bytes exactly when it is below
    [2^(7k)], a signed one exactly when it lies in
    [[-2^(7k-1), 2^(7k-1))], so values near zero of either sign take one
    byte. *)
Theorem varint_length_by_magnitude (u n w : Z) (k : nat) :
  is_u32 u -> is_i32 n -> is_i64 w -> (1 <= k)%nat ->
  ((length (VarintCodec.encodeUInt32 u) <= k)%nat
     <-> u < 2 ^ (7 * Z.of_nat k))
  /\ ((length (VarintCodec.encodeInt32 n) <= k)%nat
        <-> - 2 ^ (7 * Z.of_nat k - 1) <= n < 2 ^ (7 * Z.of_nat k - 1))
  /\ ((length (VarintCodec.encodeInt64 w) <= k)%nat
        <-> - 2 ^ (7 * Z.of_nat k - 1) <= w < 2 ^ (7 * Z.of_nat k - 1)).
Proof.
  intros Hu Hn Hw Hk.
  assert (Hz : forall v, zigzag v < 2 ^ (7 * Z.of_nat k)
                         <-> - 2 ^ (7 * Z.of_nat k - 1) <= v
                             < 2 ^ (7 * Z.of_nat k - 1)).
  { intros v. rewrite <- (zigzag_lt v (7 * Z.of_nat k - 1)) by lia.
    replace (7 * Z.of_nat k - 1 + 1) with (7 * Z.of_nat k) by lia.
    reflexivity. }
  split; [|split].
  - apply length_encode_loop; [lia| |exact Hk].
    unfold is_u32 in Hu. simpl. lia.
  - unfold VarintCodec.encodeInt32, VarintCodec.encodeUInt32.
    rewrite zigzag32_eq by exact Hn. rewrite <- Hz.
    apply length_encode_loop; [lia| |exact Hk].
    pose proof (zigzag_range n 31 ltac:(lia) Hn). simpl in *. lia.
  - unfold VarintCodec.encodeInt64.
    rewrite zigzag64_eq by exact Hw. rewrite <- Hz.
    apply length_encode_loop; [lia| |exact Hk].
    pose proof (zigzag_range w 63 ltac:(lia) Hw). simpl in *. lia.
Qed.

Lemma varint_length_by_magnitude_witness :
  (length (VarintCodec.encodeInt32 (-64)) <= 1)%nat
  <-> - 2 ^ (7 * Z.of_nat 1 - 1) <= -64 < 2 ^ (7 * Z.of_nat 1 - 1).
Proof.
  refine (proj1 (proj2
    (varint_length_by_magnitude 0 (-64) 0 1 _ _ _ _)));
    unfold is_u32, is_i32, is_i64; lia.
Defined.

(** ** What a successful bounded read depends on *)

Lemma terminator_prefix data n j :
  terminator (take n data) = Some j ->
  terminator (take (S j) data) = Some j /\ (S j <= n)%nat
  /\ (S j <= length data)%nat.
Proof.
  intros Hj.
  destruct (terminator_extend data [] n n j Hj (Nat.le_refl _))
    as (_ & _ & Hn & Hlen).
  apply terminator_Some in Hj as [Hall (b & Hb & Hc)].
  apply lookup_take_Some in Hb as [Hb _].
  rewrite take_take in Hall. replace (j `min` n)%nat with j in Hall by lia.
  split; [|split; assumption].
  apply (terminator_take _ _ j b); auto.
Qed.

Lemma decodeUInt32Safe_prefix data size v n :
  size <= Z.of_nat (length data) ->
  VarintCodec.decodeUInt32Safe data size = Ok (v, n) ->
  VarintCodec.decodeUInt32Safe (take (Z.to_nat n) data) n = Ok (v, n).
Proof.
  intros Hsize. rewrite decodeUInt32Safe_eq by exact Hsize.
  destruct (terminator _) as [j|] eqn:Hj;
    [|destruct (size <? 5); discriminate].
  intros [= <- <-].
  destruct (terminator_prefix _ _ _ Hj) as (Hj' & Hn & Hlen).
  replace (Z.to_nat (Z.of_nat j + 1)) with (S j) by lia.
  rewrite decodeUInt32Safe_eq by (rewrite length_take; lia).
  replace (Z.to_nat (Z.min (Z.of_nat j + 1) 5)) with (S j) by lia.
  rewrite take_take. replace (S j `min` S j)%nat with (S j) by lia.
  rewrite Hj'. rewrite take_take.
  replace (S j `min` S j)%nat with (S j) by lia. reflexivity.
Qed.

Lemma decodeInt64Safe_prefix data size v n :
  size <= Z.of_nat (length data) ->
  VarintCodec.decodeInt64Safe data size = Ok (v, n) ->
  VarintCodec.decodeInt64Safe (take (Z.to_nat n) data) n = Ok (v, n).
Proof.
  intros Hsize. rewrite decodeInt64Safe_eq by exact Hsize.
  destruct (terminator _) as [j|] eqn:Hj;
    [|destruct (size <? 10); discriminate].
  intros [= <- <-].
  destruct (terminator_prefix _ _ _ Hj) as (Hj' & Hn & Hlen).
  replace (Z.to_nat (Z.of_nat j + 1)) with (S j) by lia.
  rewrite decodeInt64Safe_eq by (rewrite length_take; lia).
  replace (Z.to_nat (Z.min (Z.of_nat j + 1) 10)) with (S j) by lia.
  rewrite take_take. replace (S j `min` S j)%nat with (S j) by lia.
  rewrite Hj'. rewrite take_take.
  replace (S j `min` S j)%nat with (S j) by lia. reflexivity.
Qed.

(** X3: when a bounded decoder returns, the value is in the range of its
    type, [bytes_read] is at least 1 and at most the declared size and
    the byte limit of the type, and the result depends on the first
    [bytes_read] bytes only: the same call on these bytes alone, or on
    the buffer followed by anything with any larger declared size,
    returns the same pair. *)
Theorem bounded_decoders_read_one_varint
  (data extra : list Z) (size size' : Z) :
  size <= Z.of_nat (length data) ->
  size <= size' <= Z.of_nat (length (data ++ extra)) ->
  (forall v n,
      VarintCodec.decodeUInt32Safe data size = Ok (v, n) ->
      is_u32 v /\ 1 <= n <= size /\ n <= 5
      /\ VarintCodec.decodeUInt32Safe (take (Z.to_nat n) data) n = Ok (v, n)
      /\ VarintCodec.decodeUInt32Safe (data ++ extra) size' = Ok (v, n))
  /\ (forall v n,
        VarintCodec.decodeInt32Safe data size = Ok (v, n) ->
        is_i32 v /\ 1 <= n <= size /\ n <= 5
        /\ VarintCodec.decodeInt32Safe (take (Z.to_nat n) data) n = Ok (v, n)
        /\ VarintCodec.decodeInt32Safe (data ++ extra) size' = Ok (v, n))
  /\ (forall v n,
        VarintCodec.decodeInt64Safe data size = Ok (v, n) ->
        is_i64 v /\ 1 <= n <= size /\ n <= 10
        /\ VarintCodec.decodeInt64Safe (take (Z.to_nat n) data) n = Ok (v, n)
        /\ VarintCodec.decodeInt64Safe (data ++ extra) size' = Ok (v, n)).
Proof.
  intros Hsize Hsize'. split; [|split]; intros v n Hv.
  - destruct (decodeUInt32Safe_Ok _ _ _ _ Hsize Hv) as (Hr & Hn & H5 & Hext).
    repeat split; try lia; try apply Hr; auto.
    eapply decodeUInt32Safe_prefix; eauto.
  - destruct (decodeInt32Safe_Ok _ _ _ _ Hsize Hv) as (Hr & Hn & H5 & Hext).
    repeat split; try lia; try apply Hr; auto.
    unfold VarintCodec.decodeInt32Safe in *.
    destruct (VarintCodec.decodeUInt32Safe data size) as [[e m]| |] eqn:He;
      try discriminate.
    cbn [bind] in Hv. injection Hv as <- <-.
    rewrite (decodeUInt32Safe_prefix _ _ _ _ Hsize He). reflexivity.
  - destruct (decodeInt64Safe_Ok _ _ _ _ Hsize Hv) as (Hr & Hn & H5 & Hext).
    repeat split; try lia; try apply Hr; auto.
    eapply decodeInt64Safe_prefix; eauto.
Qed.

Lemma bounded_decoders_read_one_varint_witness :
  VarintCodec.decodeInt32Safe ([172; 2; 9; 9] ++ [7]) 5 = Ok (150, 2).
Proof.
  refine (proj2 (proj2 (proj2 (proj2 (proj1 (proj2
    (bounded_decoders_read_one_varint [172; 2; 9; 9] [7] 3 5 _ _))
    150 2 eq_refl))))); simpl; lia.
Defined.

(** ** The unbounded decoders *)

#[local] Ltac case_leb :=
  match goal with
  | |- context [?a <=? ?b] => destruct (Z.leb_spec a b)
  end.

Section UnboundedLoopFacts.
Variable bits : Z.
Variable max_bytes : Z.
Hypothesis max_bytes_pos : 0 < max_bytes.
Hypothesis last_shift : 7 * (max_bytes - 1) < bits.
Hypothesis first_wide_shift : bits <= 7 * max_bytes.

Lemma unbounded_loop_eq data : forall result pos,
  0 <= pos <= max_bytes ->
  0 <= result < 2 ^ (7 * pos) ->
  VarintCodecLegacy.unbounded_loop bits data result (7 * pos) pos =
    match terminator (take (Z.to_nat (max_bytes - pos)) data) with
    | Some j =>
        Returns ((result + 2 ^ (7 * pos) * payload (take (S j) data))
                   mod 2 ^ bits,
                 pos + Z.of_nat j + 1)
    | None =>
        if Z.of_nat (length data) <=? max_bytes - pos then ReadsPastEnd
        else ShiftsPastWidth
    end.
Proof.
  induction data as [|b data IH]; intros result pos Hpos Hres.
  - simpl. rewrite take_nil. simpl.
    case_leb; [reflexivity|simpl in *; lia].
  - cbn [VarintCodecLegacy.unbounded_loop].
    destruct (Z.leb_spec bits (7 * pos)) as [Hwide|Hnarrow].
    + replace (Z.to_nat (max_bytes - pos)) with O by lia.
      rewrite take_0. cbn [terminator].
      case_leb; [simpl in *; lia|reflexivity].
    + replace (Z.to_nat (max_bytes - pos))
        with (S (Z.to_nat (max_bytes - (pos + 1)))) by lia.
      cbn [take terminator]. unfold continues.
      pose proof (land_7f_range b) as Hb.
      destruct (Z.eqb_spec (Z.land b 128) 0) as [Hterm|Hcont]; cbn [negb].
      * rewrite (accumulate bits) by lia.
        rewrite take_0. cbn [payload].
        rewrite Z.mul_0_r, Z.add_0_r, Nat2Z.inj_0, Z.add_0_r. reflexivity.
      * rewrite (accumulate bits) by lia.
        assert (Hpow : 2 ^ (7 * (pos + 1)) = 2 ^ (7 * pos) * 2 ^ 7).
        { rewrite <- Z.pow_add_r by lia. f_equal. lia. }
        assert (Hbits : 0 < 2 ^ bits) by (apply Z.pow_pos_nonneg; lia).
        replace (7 * pos + 7) with (7 * (pos + 1)) by lia.
        destruct (Z.eq_dec (pos + 1) max_bytes) as [Hlast|Hmore].
        -- rewrite IH.
           ++ replace (Z.to_nat (max_bytes - (pos + 1))) with O by lia.
              rewrite take_0. cbn [terminator fmap option_fmap option_map].
              repeat case_leb; try reflexivity; simpl in *; lia.
           ++ lia.
           ++ pose proof (Z.mod_pos_bound
                            (result + 2 ^ (7 * pos) * Z.land b 127)
                            (2 ^ bits) Hbits) as Hm.
              assert (2 ^ bits <= 2 ^ (7 * (pos + 1)))
                by (apply Z.pow_le_mono_r; lia).
              lia.
        -- assert (Hle : 2 ^ (7 * (pos + 1)) <= 2 ^ bits)
             by (apply Z.pow_le_mono_r; lia).
           rewrite Z.mod_small by nia.
           rewrite IH by nia.
           destruct (terminator _) as [j|];
             cbn [fmap option_fmap option_map].
           ++ cbn [take payload]. f_equal. f_equal; [|lia].
              f_equal. rewrite Hpow. ring.
           ++ repeat case_leb; try reflexivity; simpl in *; lia.
Qed.
End UnboundedLoopFacts.

Lemma take_min_length (data : list Z) n :
  0 <= n ->
  take (Z.to_nat (Z.min (Z.of_nat (length data)) n)) data
  = take (Z.to_nat n) data.
Proof.
  intros Hn. destruct (Z.le_gt_cases (Z.of_nat (length data)) n).
  - rewrite !take_ge by lia. reflexivity.
  - f_equal. lia.
Qed.

Lemma decodeUInt32_eq data :
  VarintCodecLegacy.decodeUInt32 data =
    match terminator (take 5 data) with
    | Some j => Returns (payload (take (S j) data) mod 2 ^ 32, Z.of_nat j + 1)
    | None =>
        if Z.of_nat (length data) <=? 5 then ReadsPastEnd else ShiftsPastWidth
    end.
Proof.
  unfold VarintCodecLegacy.decodeUInt32. change 0 with (7 * 0) at 2.
  rewrite (unbounded_loop_eq 32 5) by (simpl; lia).
  rewrite Z.sub_0_r. change (Z.to_nat 5) with 5%nat.
  destruct (terminator _); [|reflexivity]. do 3 f_equal. simpl. lia.
Qed.

Lemma unbounded_loop64_eq data :
  VarintCodecLegacy.unbounded_loop 64 data 0 0 0 =
    match terminator (take 10 data) with
    | Some j => Returns (payload (take (S j) data) mod 2 ^ 64, Z.of_nat j + 1)
    | None =>
        if Z.of_nat (length data) <=? 10 then ReadsPastEnd else ShiftsPastWidth
    end.
Proof.
  change 0 with (7 * 0) at 2.
  rewrite (unbounded_loop_eq 64 10) by (simpl; lia).
  rewrite Z.sub_0_r. change (Z.to_nat 10) with 10%nat.
  destruct (terminator _); [|reflexivity]. do 3 f_equal. simpl. lia.
Qed.

Lemma decodeUInt32Safe_whole data :
  VarintCodec.decodeUInt32Safe data (Z.of_nat (length data)) =
    match terminator (take 5 data) with
    | Some j => Ok (payload (take (S j) data) mod 2 ^ 32, Z.of_nat j + 1)
    | None =>
        if Z.of_nat (length data) <? 5 then Throw Truncated else Throw Overflow
    end.
Proof.
  rewrite decodeUInt32Safe_eq by lia.
  rewrite take_min_length by lia. reflexivity.
Qed.

Lemma decodeInt64Safe_whole data :
  VarintCodec.decodeInt64Safe data (Z.of_nat (length data)) =
    match terminator (take 10 data) with
    | Some j =>
        Ok (VarintCodec.unzigzag64 (payload (take (S j) data) mod 2 ^ 64),
            Z.of_nat j + 1)
    | None =>
        if Z.of_nat (length data) <? 10 then Throw Truncated else Throw Overflow
    end.
Proof.
  rewrite decodeInt64Safe_eq by lia.
  rewrite take_min_length by lia. reflexivity.
Qed.

(** What the bounded decoders accept in the whole memory, the unbounded
    ones return. *)
Lemma returned_unbounded (data : list Z) :
  (forall r,
      VarintCodec.decodeUInt32Safe data (Z.of_nat (length data)) = Ok r ->
      VarintCodecLegacy.decodeUInt32 data = Returns r)
  /\ (forall r,
        VarintCodec.decodeInt32Safe data (Z.of_nat (length data)) = Ok r ->
        VarintCodecLegacy.decodeInt32 data = Returns r)
  /\ (forall r,
        VarintCodec.decodeInt64Safe data (Z.of_nat (length data)) = Ok r ->
        VarintCodecLegacy.decodeInt64 data = Returns r).
Proof.
  unfold VarintCodecLegacy.decodeInt32, VarintCodec.decodeInt32Safe,
    VarintCodecLegacy.decodeInt64.
  rewrite decodeUInt32_eq, decodeUInt32Safe_whole, unbounded_loop64_eq,
    decodeInt64Safe_whole.
  split; [|split]; intros r H.
  - destruct (terminator (take 5 data)); [injection H as <-; reflexivity|].
    destruct (_ <? 5); discriminate.
  - destruct (terminator (take 5 data)); cbn [bind] in H;
      [injection H as <-; reflexivity|].
    destruct (_ <? 5); discriminate.
  - destruct (terminator (take 10 data)); [injection H as <-; reflexivity|].
    destruct (_ <? 10); discriminate.
Qed.

(** X4: on every input that a bounded decoder accepts, whatever buffer
    size within the memory it is given, the unbounded decoder of the same
    type returns the same value and the same [bytes_read]. *)
Theorem unbounded_decoders_agree_with_bounded (data : list Z) (size : Z) :
  size <= Z.of_nat (length data) ->
  (forall r, VarintCodec.decodeUInt32Safe data size = Ok r ->
             VarintCodecLegacy.decodeUInt32 data = Returns r)
  /\ (forall r, VarintCodec.decodeInt32Safe data size = Ok r ->
                VarintCodecLegacy.decodeInt32 data = Returns r)
  /\ (forall r, VarintCodec.decodeInt64Safe data size = Ok r ->
                VarintCodecLegacy.decodeInt64 data = Returns r).
Proof.
  intros Hsize.
  destruct (returned_unbounded data) as (H32 & Hs32 & H64).
  assert (Hwhole : size <= Z.of_nat (length data)
                   <= Z.of_nat (length (data ++ []))).
  { rewrite app_nil_r. lia. }
  split; [|split]; intros [v n] Hr.
  - apply H32.
    destruct (decodeUInt32Safe_Ok data size v n Hsize Hr) as (_ & _ & _ & Hext).
    specialize (Hext [] _ Hwhole). rewrite app_nil_r in Hext. exact Hext.
  - apply Hs32.
    destruct (decodeInt32Safe_Ok data size v n Hsize Hr) as (_ & _ & _ & Hext).
    specialize (Hext [] _ Hwhole). rewrite app_nil_r in Hext. exact Hext.
  - apply H64.
    destruct (decodeInt64Safe_Ok data size v n Hsize Hr) as (_ & _ & _ & Hext).
    specialize (Hext [] _ Hwhole). rewrite app_nil_r in Hext. exact Hext.
Qed.

Lemma unbounded_decoders_agree_with_bounded_witness :
  VarintCodecLegacy.decodeUInt32 [172; 2; 99] = Returns (300, 2)
  /\ VarintCodecLegacy.decodeInt64 [172; 2; 99] = Returns (150, 2).
Proof.
  assert (Hsize : 2 <= Z.of_nat (length [172; 2; 99])) by (simpl; lia).
  pose proof (unbounded_decoders_agree_with_bounded [172; 2; 99] 2 Hsize) as H.
  split.
  - exact (proj1 H (300, 2) eq_refl).
  - exact (proj2 (proj2 H) (150, 2) eq_refl).
Defined.



(** X6: what an encoder writes, followed by anything, is read back by the
    unbounded decoder of the same type: the value is returned unchanged
    and [bytes_read] is the encoded length. *)
Theorem unbounded_decoders_round_trip (u n w : Z) (extra : list Z) :
  is_u32 u -> is_i32 n -> is_i64 w ->
  VarintCodecLegacy.decodeUInt32 (VarintCodec.encodeUInt32 u ++ extra)
    = Returns (u, Z.of_nat (length (VarintCodec.encodeUInt32 u)))
  /\ VarintCodecLegacy.decodeInt32 (VarintCodec.encodeInt32 n ++ extra)
     = Returns (n, Z.of_nat (length (VarintCodec.encodeInt32 n)))
  /\ VarintCodecLegacy.decodeInt64 (VarintCodec.encodeInt64 w ++ extra)
     = Returns (w, Z.of_nat (length (VarintCodec.encodeInt64 w))).
Proof.
  intros Hu Hn Hw.
  split; [|split].
  - apply (proj1 (returned_unbounded (VarintCodec.encodeUInt32 u ++ extra))).
    apply decode_encodeUInt32; [exact Hu|]. rewrite length_app. lia.
  - apply (proj1 (proj2 (returned_unbounded
                           (VarintCodec.encodeInt32 n ++ extra)))).
    apply decode_encodeInt32; [exact Hn|]. rewrite length_app. lia.
  - apply (proj2 (proj2 (returned_unbounded
                           (VarintCodec.encodeInt64 w ++ extra)))).
    apply decode_encodeInt64; [exact Hw|]. rewrite length_app. lia.
Qed.

Lemma unbounded_decoders_round_trip_witness :
  VarintCodecLegacy.decodeInt32 (VarintCodec.encodeInt32 (-10000) ++ [0; 0])
  = Returns (-10000, Z.of_nat (length (VarintCodec.encodeInt32 (-10000)))).
Proof.
  refine (proj1 (proj2
    (unbounded_decoders_round_trip 300 (-10000) (2 ^ 62) [0; 0] _ _ _)));
    unfold is_u32, is_i32, is_i64; lia.
Defined.

(** ** More on run-length encoding *)

(** X7: for every non-empty vector of fewer than 2^32 int32 (resp. int64)
    values, the RLE decoder applied to the encoder's bytes, followed by
    anything and with any declared size that covers them, returns the
    vector, when [num_values] is the number of values or less. *)
Theorem rle_round_trip_of_nonempty_vectors
  (V32 V64 post : list Z) (slack num_values32 num_values64 : Z) :
  V32 <> [] -> V64 <> [] ->
  Forall is_i32 V32 -> Forall is_i64 V64 ->
  Z.of_nat (length V32) < 2 ^ 32 -> Z.of_nat (length V64) < 2 ^ 32 ->
  0 <= slack <= Z.of_nat (length post) ->
  Z.of_nat (length (RLEEncoder.encodeInt32 V32)) + slack < 2 ^ 64 ->
  Z.of_nat (length (RLEEncoder.encodeInt64 V64)) + slack < 2 ^ 64 ->
  num_values32 <= Z.of_nat (length V32) ->
  num_values64 <= Z.of_nat (length V64) ->
  RLEEncoder.decodeInt32 (RLEEncoder.encodeInt32 V32 ++ post)
    (Z.of_nat (length (RLEEncoder.encodeInt32 V32)) + slack) num_values32
    = Ok V32
  /\ RLEEncoder.decodeInt64 (RLEEncoder.encodeInt64 V64 ++ post)
       (Z.of_nat (length (RLEEncoder.encodeInt64 V64)) + slack) num_values64
     = Ok V64.
Proof.
  intros Hne32 Hne64 Hv32 Hv64 Hl32 Hl64 Hslack Hs32 Hs64 Hn32 Hn64. split.
  - apply RLE_int32_round_trip; auto; [rewrite length_app; lia|].
    rewrite max_size_4. lia.
  - apply RLE_int64_round_trip; auto; [rewrite length_app; lia|].
    rewrite max_size_8. lia.
Qed.

Lemma rle_round_trip_of_nonempty_vectors_witness :
  RLEEncoder.decodeInt32
    (RLEEncoder.encodeInt32 [5; 5; 5; -7; -7; 2147483647] ++ [255])
    (Z.of_nat (length (RLEEncoder.encodeInt32 [5; 5; 5; -7; -7; 2147483647]))
     + 1) 6
  = Ok [5; 5; 5; -7; -7; 2147483647]
  /\ RLEEncoder.decodeInt64
       (RLEEncoder.encodeInt64 [- 2 ^ 63; 1] ++ [255])
       (Z.of_nat (length (RLEEncoder.encodeInt64 [- 2 ^ 63; 1])) + 1) 2
     = Ok [- 2 ^ 63; 1].
Proof.
  apply (rle_round_trip_of_nonempty_vectors
           [5; 5; 5; -7; -7; 2147483647] [- 2 ^ 63; 1] [255] 1 6 2).
  - discriminate.
  - discriminate.
  - repeat constructor; unfold is_i32; lia.
  - repeat constructor; unfold is_i64; lia.
  - simpl. lia.
  - simpl. lia.
  - simpl. lia.
  - vm_compute. reflexivity.
  - vm_compute. reflexivity.
  - simpl. lia.
  - simpl. lia.
Defined.

Lemma build_runs_nil fuel : RLEEncoder.build_runs fuel [] = [].
Proof. destruct fuel; reflexivity. Qed.

(** More turns than values change nothing. *)
Lemma build_runs_fuel fuel : forall fuel' values,
  (length values <= fuel)%nat -> (length values <= fuel')%nat ->
  RLEEncoder.build_runs fuel values = RLEEncoder.build_runs fuel' values.
Proof.
  induction fuel as [|fuel IH]; intros fuel' values Hfuel Hfuel'.
  - destruct values; [|simpl in Hfuel; lia]. rewrite !build_runs_nil.
    reflexivity.
  - destruct values as [|current rest]; [rewrite !build_runs_nil; reflexivity|].
    destruct fuel' as [|fuel']; [simpl in Hfuel'; lia|].
    cbn [RLEEncoder.build_runs].
    destruct (count_run_spec current rest 1) as (m & Hm & Hlen & _).
    rewrite Hm. replace (Z.to_nat (1 + Z.of_nat m)) with (S m) by lia.
    cbn [drop]. f_equal.
    apply IH; rewrite length_drop; simpl in *; lia.
Qed.

Lemma replicate_app_inj (v : Z) : forall n m (A B : list Z),
  match A with [] => True | x :: _ => x <> v end ->
  match B with [] => True | x :: _ => x <> v end ->
  replicate n v ++ A = replicate m v ++ B -> n = m /\ A = B.
Proof.
  induction n as [|n IH]; intros m A B HA HB Heq.
  - destruct m as [|m]; [auto|].
    simpl in Heq. subst A. exfalso. apply HA. reflexivity.
  - destruct m as [|m].
    + simpl in Heq. subst B. exfalso. apply HB. reflexivity.
    + simpl in Heq. injection Heq as Heq.
      destruct (IH m A B HA HB Heq) as [-> ->]. auto.
Qed.

Lemma expand_head runs :
  maximal_runs runs ->
  match runs with
  | [] => RLEEncoder.expand runs = []
  | (_, value) :: _ => exists tail, RLEEncoder.expand runs = value :: tail
  end.
Proof.
  destruct runs as [|[l v] runs]; [reflexivity|].
  intros (Hl & _). cbn [RLEEncoder.expand flat_map].
  destruct (Z.to_nat l) as [|n] eqn:Hn; [lia|].
  simpl. eauto.
Qed.

Lemma maximal_runs_unique runs1 : forall runs2,
  maximal_runs runs1 -> maximal_runs runs2 ->
  RLEEncoder.expand runs1 = RLEEncoder.expand runs2 -> runs1 = runs2.
Proof.
  induction runs1 as [|[l1 v1] runs1 IH]; intros runs2 H1 H2 Heq.
  - destruct runs2 as [|[l2 v2] runs2]; [reflexivity|].
    destruct (expand_head _ H2) as [tail Ht]. rewrite Ht in Heq. discriminate.
  - destruct runs2 as [|[l2 v2] runs2].
    { destruct (expand_head _ H1) as [tail Ht]. rewrite Ht in Heq.
      discriminate. }
    pose proof (expand_head _ H1) as [t1 Ht1].
    pose proof (expand_head _ H2) as [t2 Ht2].
    assert (Hv : v1 = v2) by congruence. subst v2.
    destruct H1 as (Hl1 & Hn1 & Hm1). destruct H2 as (Hl2 & Hn2 & Hm2).
    cbn [RLEEncoder.expand flat_map] in Heq.
    fold (RLEEncoder.expand runs1) in Heq.
    fold (RLEEncoder.expand runs2) in Heq.
    apply replicate_app_inj in Heq as [Hlen Hrest].
    + f_equal; [f_equal; lia|]. apply IH; assumption.
    + pose proof (expand_head _ Hm1) as Hh.
      destruct runs1 as [|[l v] runs1]; [rewrite Hh; exact I|].
      destruct Hh as [tail ->]. congruence.
    + pose proof (expand_head _ Hm2) as Hh.
      destruct runs2 as [|[l v] runs2]; [rewrite Hh; exact I|].
      destruct Hh as [tail ->]. congruence.
Qed.

(** X8: on a vector of fewer than 2^32 values, where the [uint32_t]
    run counter cannot wrap, the runs the RLE encoders build stand for
    the input and are its only decomposition into maximal runs: no run
    is empty, neighbouring runs differ in value, and every list of runs
    with these two properties that expands to the input is the one the
    encoder builds.  Every run length fits the counter, there are never
    more runs than values, and turns of the outer loop beyond
    [values.size()] would change nothing. *)
Theorem rle_encoder_builds_the_maximal_runs (values : list Z) :
  Z.of_nat (length values) < 2 ^ 32 ->
  let runs := RLEEncoder.build_runs (length values) values in
  RLEEncoder.expand runs = values
  /\ maximal_runs runs
  /\ (forall runs',
        maximal_runs runs' -> RLEEncoder.expand runs' = values ->
        runs' = runs)
  /\ Forall (fun run => 1 <= run.1 < 2 ^ 32 /\ In run.2 values) runs
  /\ (length runs <= length values)%nat
  /\ (forall fuel,
        (length values <= fuel)%nat ->
        RLEEncoder.build_runs fuel values = runs).
Proof.
  intros Hlen.
  destruct (build_runs_spec (length values) values (Nat.le_refl _))
    as (Hexp & Hall & Hcount & Hmax & _).
  cbv zeta. split; [exact Hexp|]. split; [exact Hmax|].
  split; [|split; [|split; [exact Hcount|]]].
  - intros runs' Hmax' Hexp'. apply maximal_runs_unique; congruence.
  - eapply Forall_impl; [exact Hall|].
    intros [l v] [Hl Hin]. simpl in *. split; [lia|exact Hin].
  - intros fuel Hfuel. apply build_runs_fuel; lia.
Qed.

Lemma rle_encoder_builds_the_maximal_runs_witness :
  RLEEncoder.build_runs 9 [1; 1; 1; 2; 2; 3; 3; 3; 3]
  = [(3, 1); (2, 2); (4, 3)].
Proof.
  symmetry.
  refine (proj1 (proj2 (proj2
    (rle_encoder_builds_the_maximal_runs [1; 1; 1; 2; 2; 3; 3; 3; 3] _)))
    [(3, 1); (2, 2); (4, 3)] _ eq_refl).
  - simpl. lia.
  - simpl. repeat split; lia.
Defined.

Lemma count_run_replicate v m : forall run_length,
  RLEEncoder.count_run v (replicate m v) run_length
  = run_length + Z.of_nat m.
Proof.
  induction m as [|m IH]; intros run_length; simpl; [lia|].
  rewrite Z.eqb_refl, IH. lia.
Qed.

Lemma encode_replicate encode_value n v :
  (1 <= n)%nat -> Z.of_nat n < 2 ^ 32 ->
  RLEEncoder.encode encode_value (replicate n v)
  = [1] ++ VarintCodec.encodeUInt32 (Z.of_nat n) ++ encode_value v.
Proof.
  intros Hn Hlen. destruct n as [|m]; [lia|].
  cbn [replicate RLEEncoder.encode length RLEEncoder.build_runs].
  rewrite count_run_replicate.
  replace (Z.to_nat (1 + Z.of_nat m)) with (S m) by lia.
  cbn [drop]. rewrite <- (length_replicate m v) at 3.
  rewrite drop_all, build_runs_nil.
  unfold RLEEncoder.write_runs. cbn [length RLEEncoder.run_bytes flat_map].
  rewrite app_nil_r.
  replace (1 + Z.of_nat m) with (Z.of_nat (S m)) by lia. reflexivity.
Qed.

(** X9: a vector of [n] equal values, [1 <= n < 2^32], is written as a
    single run: the byte 1, the varint of [n] and the varint of the
    value, at most 11 bytes for int32 and 16 for int64 however long the
    vector is. *)
Theorem rle_of_a_constant_vector (n : nat) (v32 v64 : Z) :
  (1 <= n)%nat -> Z.of_nat n < 2 ^ 32 -> is_i32 v32 -> is_i64 v64 ->
  RLEEncoder.encodeInt32 (replicate n v32)
    = [1] ++ VarintCodec.encodeUInt32 (Z.of_nat n)
          ++ VarintCodec.encodeInt32 v32
  /\ RLEEncoder.encodeInt64 (replicate n v64)
     = [1] ++ VarintCodec.encodeUInt32 (Z.of_nat n)
           ++ VarintCodec.encodeInt64 v64
  /\ (length (RLEEncoder.encodeInt32 (replicate n v32)) <= 11)%nat
  /\ (length (RLEEncoder.encodeInt64 (replicate n v64)) <= 16)%nat.
Proof.
  intros Hn Hlen H32 H64.
  unfold RLEEncoder.encodeInt32, RLEEncoder.encodeInt64.
  rewrite !encode_replicate by assumption.
  destruct (encodeUInt32_spec (Z.of_nat n)) as (_ & _ & _ & Hc);
    [unfold is_u32; lia|].
  destruct (encodeInt32_spec v32 H32) as (_ & _ & _ & Hl32).
  destruct (encodeInt64_spec v64 H64) as (_ & _ & _ & Hl64).
  repeat split; rewrite ?length_app; simpl; lia.
Qed.

Lemma rle_of_a_constant_vector_witness :
  (length (RLEEncoder.encodeInt32 (replicate 1000 (-3)%Z)) <= 11)%nat.
Proof.
  refine (proj1 (proj2 (proj2
    (rle_of_a_constant_vector 1000 (-3) (2 ^ 40) _ _ _ _))));
    unfold is_i32, is_i64; lia.
Defined.

(** ** Reads of the RLE and delta decoders *)

Lemma decodeUInt32Safe_in_bounds data size :
  size <= Z.of_nat (length data) ->
  VarintCodec.decodeUInt32Safe data size <> OutOfBounds.
Proof.
  intros Hsize. eapply outcome_in_bounds.
  apply decodeUInt32Safe_eq. exact Hsize.
Qed.

Lemma decodeInt32Safe_in_bounds data size :
  size <= Z.of_nat (length data) ->
  VarintCodec.decodeInt32Safe data size <> OutOfBounds.
Proof.
  intros Hsize. unfold VarintCodec.decodeInt32Safe.
  pose proof (decodeUInt32Safe_in_bounds data size Hsize) as H.
  destruct (VarintCodec.decodeUInt32Safe data size) as [[v n]| |];
    cbn [bind]; congruence.
Qed.

Lemma decodeInt64Safe_in_bounds data size :
  size <= Z.of_nat (length data) ->
  VarintCodec.decodeInt64Safe data size <> OutOfBounds.
Proof.
  intros Hsize. eapply outcome_in_bounds.
  apply decodeInt64Safe_eq. exact Hsize.
Qed.

Section DecoderBounds.
Variable decode_value : list Z -> Z -> outcome (Z * Z).
Hypothesis decode_value_Ok : forall data size v n,
  size <= Z.of_nat (length data) ->
  decode_value data size = Ok (v, n) -> 1 <= n <= size.
Hypothesis decode_value_in_bounds : forall data size,
  size <= Z.of_nat (length data) -> decode_value data size <> OutOfBounds.

Lemma decode_runs_in_bounds num_runs : forall data size pos result,
  0 <= pos <= size -> size <= Z.of_nat (length data) -> size < 2 ^ 64 ->
  RLEEncoder.decode_runs decode_value num_runs data size pos result
  <> OutOfBounds.
Proof.
  induction num_runs as [|num_runs IH]; intros data size pos result Hpos Hsize H64;
    [discriminate|].
  cbn [RLEEncoder.decode_runs].
  rewrite size_sub_id by lia.
  pose proof (decodeUInt32Safe_in_bounds (advance data pos) (size - pos)
                ltac:(rewrite length_advance; lia)) as Hb.
  destruct (VarintCodec.decodeUInt32Safe (advance data pos) (size - pos))
    as [[l n]| |] eqn:Hl; cbn [bind]; try congruence.
  apply decodeUInt32Safe_Ok in Hl as (_ & Hn & _);
    [|rewrite length_advance; lia].
  rewrite size_sub_id by lia.
  pose proof (decode_value_in_bounds (advance data (pos + n))
                (size - (pos + n))
                ltac:(rewrite length_advance; lia)) as Hb'.
  destruct (decode_value (advance data (pos + n)) (size - (pos + n)))
    as [[v m]| |] eqn:Hv; cbn [bind]; try congruence.
  apply decode_value_Ok in Hv; [|rewrite length_advance; lia].
  apply IH; lia.
Qed.

Lemma rle_decode_in_bounds data size :
  0 <= size <= Z.of_nat (length data) -> size < 2 ^ 64 ->
  RLEEncoder.decode_reserved decode_value data size <> OutOfBounds.
Proof.
  intros Hsize H64. unfold RLEEncoder.decode_reserved.
  rewrite size_sub_id by lia.
  pose proof (decodeUInt32Safe_in_bounds (advance data 0) (size - 0)
                ltac:(rewrite length_advance; lia)) as Hb.
  destruct (VarintCodec.decodeUInt32Safe (advance data 0) (size - 0))
    as [[l n]| |] eqn:Hl; cbn [bind]; try congruence.
  apply decodeUInt32Safe_Ok in Hl as (_ & Hn & _);
    [|rewrite length_advance; lia].
  apply decode_runs_in_bounds; lia.
Qed.

Variable width : nat.
Variable cast : Z -> Z.

Lemma read_deltas_in_bounds num_deltas : forall data size pos current result,
  0 <= pos <= size -> size <= Z.of_nat (length data) -> size < 2 ^ 64 ->
  DeltaEncoder.read_deltas cast decode_value num_deltas data size pos
    current result
  <> OutOfBounds.
Proof.
  induction num_deltas as [|num_deltas IH];
    intros data size pos current result Hpos Hsize H64; [discriminate|].
  cbn [DeltaEncoder.read_deltas].
  rewrite size_sub_id by lia.
  pose proof (decode_value_in_bounds (advance data pos) (size - pos)
                ltac:(rewrite length_advance; lia)) as Hb.
  destruct (decode_value (advance data pos) (size - pos))
    as [[v m]| |] eqn:Hv; cbn [bind]; try congruence.
  apply decode_value_Ok in Hv; [|rewrite length_advance; lia].
  apply IH; lia.
Qed.

Lemma read_deltas_throws
  (decode_value_throws : forall data size e,
      decode_value data size = Throw e -> e = Truncated \/ e = Overflow)
  num_deltas : forall data size pos current result e,
  DeltaEncoder.read_deltas cast decode_value num_deltas data size pos
    current result = Throw e ->
  e = Truncated \/ e = Overflow.
Proof.
  induction num_deltas as [|num_deltas IH];
    intros data size pos current result e; [discriminate|].
  cbn [DeltaEncoder.read_deltas].
  destruct (decode_value _ _) as [[v m]| |] eqn:Hv; cbn [bind];
    try discriminate.
  - apply IH.
  - intros [= <-]. eapply decode_value_throws. exact Hv.
Qed.

Lemma read_le_Some n : forall data,
  (n <= length data)%nat -> exists raw, read_le n data = Some raw.
Proof.
  induction n as [|n IH]; intros data Hlen; [simpl; eauto|].
  destruct data as [|b data]; [simpl in Hlen; lia|].
  destruct (IH data ltac:(simpl in Hlen; lia)) as [hi Hhi].
  cbn [read_le]. rewrite Hhi. eauto.
Qed.

Lemma delta_decode_in_bounds
  (decode_value_throws : forall data size e,
      decode_value data size = Throw e -> e = Truncated \/ e = Overflow)
  data size :
  Z.of_nat width <= size <= Z.of_nat (length data) -> size < 2 ^ 64 ->
  DeltaEncoder.decode_reserved width cast decode_value data size
    <> OutOfBounds
  /\ forall e,
       DeltaEncoder.decode_reserved width cast decode_value data size
         = Throw e ->
       e = Truncated \/ e = Overflow.
Proof.
  intros Hsize H64. unfold DeltaEncoder.decode_reserved.
  destruct (read_le_Some width data ltac:(lia)) as [raw ->].
  rewrite size_sub_id by lia.
  pose proof (decodeUInt32Safe_in_bounds (advance data (Z.of_nat width))
                (size - Z.of_nat width)
                ltac:(rewrite length_advance; lia)) as Hb.
  destruct (VarintCodec.decodeUInt32Safe (advance data (Z.of_nat width))
              (size - Z.of_nat width))
    as [[l n]| |] eqn:Hl; cbn [bind]; try congruence.
  - apply decodeUInt32Safe_Ok in Hl as (_ & Hn & _);
      [|rewrite length_advance; lia].
    split.
    + apply read_deltas_in_bounds; lia.
    + intros e. apply read_deltas_throws. exact decode_value_throws.
  - split; [discriminate|]. intros e' [= <-].
    eapply decodeUInt32Safe_throws. exact Hl.
Qed.
End DecoderBounds.

(** X10: the RLE decoders never read a byte beyond the declared size,
    whenever that size lies within the memory behind [data]; and they
    throw the length error of [result.reserve] exactly when
    [num_values] exceeds [max_size()]. *)
Theorem rle_decoders_stay_in_bounds (data : list Z) (size num_values : Z) :
  0 <= size <= Z.of_nat (length data) -> size < 2 ^ 64 ->
  (RLEEncoder.decodeInt32 data size num_values <> OutOfBounds
   /\ (RLEEncoder.decodeInt32 data size num_values = Throw LengthError
       <-> max_size 4 < num_values))
  /\ (RLEEncoder.decodeInt64 data size num_values <> OutOfBounds
      /\ (RLEEncoder.decodeInt64 data size num_values = Throw LengthError
          <-> max_size 8 < num_values)).
Proof.
  intros Hsize H64.
  assert (Hgen : forall elem_bytes decode_value,
    (forall data size v n,
        size <= Z.of_nat (length data) ->
        decode_value data size = Ok (v, n) -> 1 <= n <= size) ->
    (forall data size,
        size <= Z.of_nat (length data) ->
        decode_value data size <> OutOfBounds) ->
    (forall data size e,
        decode_value data size = Throw e -> e = Truncated \/ e = Overflow) ->
    RLEEncoder.decode elem_bytes decode_value data size num_values
      <> OutOfBounds
    /\ (RLEEncoder.decode elem_bytes decode_value data size num_values
          = Throw LengthError
        <-> max_size elem_bytes < num_values)).
  { intros elem_bytes decode_value Hok Hin Hthrows. split.
    - destruct (Z.le_gt_cases num_values (max_size elem_bytes)) as [Hfit|Hbig].
      + rewrite rle_decode_reserved by exact Hfit.
        apply rle_decode_in_bounds; auto.
      + rewrite rle_decode_length_error by lia. discriminate.
    - split.
      + intros H.
        destruct (rle_decode_throws _ _ _ _ _ _ Hthrows H)
          as [[_ Hbig]|[_ [?|?]]]; [exact Hbig|discriminate|discriminate].
      + apply rle_decode_length_error. }
  split; apply Hgen.
  - intros d s v n Hs Hv.
    destruct (decodeInt32Safe_Ok d s v n Hs Hv) as (_ & Hn & _). exact Hn.
  - apply decodeInt32Safe_in_bounds.
  - apply decodeInt32Safe_throws.
  - intros d s v n Hs Hv.
    destruct (decodeInt64Safe_Ok d s v n Hs Hv) as (_ & Hn & _). exact Hn.
  - apply decodeInt64Safe_in_bounds.
  - apply decodeInt64Safe_throws.
Qed.

Lemma rle_decoders_stay_in_bounds_witness :
  RLEEncoder.decodeInt32 [200; 1; 3; 10] 4 0 <> OutOfBounds
  /\ RLEEncoder.decodeInt64 [200; 1; 3; 10] 4 0 <> OutOfBounds.
Proof.
  assert (H1 : 0 <= 4 <= Z.of_nat (length [200; 1; 3; 10])) by (simpl; lia).
  assert (H2 : 4 < 2 ^ 64) by lia.
  pose proof (rle_decoders_stay_in_bounds [200; 1; 3; 10] 4 0 H1 H2) as H.
  exact (conj (proj1 (proj1 H)) (proj1 (proj2 H))).
Defined.

(** X11: the only unchecked read of the delta decoders is the base: when
    the declared size lies within the memory behind [data] and covers
    the 4 (resp. 8) bytes of the base, a call reads nothing beyond the
    declared size; and it throws the length error of [result.reserve]
    exactly when [num_values] exceeds [max_size()]. *)
Theorem delta_decoders_stay_in_bounds_past_the_base
  (data : list Z) (size num_values : Z) :
  0 <= size <= Z.of_nat (length data) -> size < 2 ^ 64 ->
  (4 <= size ->
   DeltaEncoder.decodeInt32 data size num_values <> OutOfBounds
   /\ (DeltaEncoder.decodeInt32 data size num_values = Throw LengthError
       <-> max_size 4 < num_values))
  /\ (8 <= size ->
      DeltaEncoder.decodeInt64 data size num_values <> OutOfBounds
      /\ (DeltaEncoder.decodeInt64 data size num_values = Throw LengthError
          <-> max_size 8 < num_values)).
Proof.
  intros Hsize H64.
  assert (Hgen : forall width cast decode_value,
    (forall data size v n,
        size <= Z.of_nat (length data) ->
        decode_value data size = Ok (v, n) -> 1 <= n <= size) ->
    (forall data size,
        size <= Z.of_nat (length data) ->
        decode_value data size <> OutOfBounds) ->
    (forall data size e,
        decode_value data size = Throw e -> e = Truncated \/ e = Overflow) ->
    0 <= max_size (Z.of_nat width) ->
    Z.of_nat width <= size ->
    DeltaEncoder.decode width cast decode_value data size num_values
      <> OutOfBounds
    /\ (DeltaEncoder.decode width cast decode_value data size num_values
          = Throw LengthError
        <-> max_size (Z.of_nat width) < num_values)).
  { intros width cast decode_value Hok Hin Hthrows Hmax Hbase.
    destruct (delta_decode_in_bounds decode_value Hok Hin width cast Hthrows
                data size ltac:(lia) H64) as [Hbound Herr].
    unfold DeltaEncoder.decode, reserve.
    destruct (Z.eqb_spec num_values 0) as [->|Hnz].
    { split; [discriminate|]. split; [discriminate|lia]. }
    destruct (Z.ltb_spec (max_size (Z.of_nat width)) num_values)
      as [Hbig|Hfit]; cbn [bind].
    - split; [discriminate|tauto].
    - split; [exact Hbound|].
      split; [|lia]. intros H. destruct (Herr _ H); discriminate. }
  split; intros Hbase; apply Hgen; try (simpl; lia).
  - intros d s v n Hs Hv.
    destruct (decodeInt32Safe_Ok d s v n Hs Hv) as (_ & Hn & _). exact Hn.
  - apply decodeInt32Safe_in_bounds.
  - apply decodeInt32Safe_throws.
  - vm_compute. discriminate.
  - intros d s v n Hs Hv.
    destruct (decodeInt64Safe_Ok d s v n Hs Hv) as (_ & Hn & _). exact Hn.
  - apply decodeInt64Safe_in_bounds.
  - apply decodeInt64Safe_throws.
  - vm_compute. discriminate.
Qed.

Lemma delta_decoders_stay_in_bounds_past_the_base_witness :
  DeltaEncoder.decodeInt32 [1; 0; 0; 0; 3; 2] 6 4 <> OutOfBounds
  /\ DeltaEncoder.decodeInt64 [1; 0; 0; 0; 0; 0; 0; 0; 3; 2] 10 4
     <> OutOfBounds.
Proof.
  split.
  - refine (proj1 (proj1
      (delta_decoders_stay_in_bounds_past_the_base
         [1; 0; 0; 0; 3; 2] 6 4 _ _) _)); simpl; lia.
  - refine (proj1 (proj2
      (delta_decoders_stay_in_bounds_past_the_base
         [1; 0; 0; 0; 0; 0; 0; 0; 3; 2] 10 4 _ _) _)); simpl; lia.
Defined.

(** ** Encodings that are cut short *)

Lemma shape_prefix_continues bytes : forall m,
  varint_shape bytes = true -> (m < length bytes)%nat ->
  all_continue (take m bytes).
Proof.
  induction bytes as [|b bytes IH]; intros m Hshape Hm; [discriminate|].
  destruct m as [|m]; [constructor|].
  destruct bytes as [|b' bytes]; [simpl in Hm; lia|].
  rewrite varint_shape_cons in Hshape by discriminate.
  apply andb_prop in Hshape as [Hc Hshape].
  cbn [take]. constructor; [exact Hc|].
  apply IH; [exact Hshape|simpl in *; lia].
Qed.

Lemma decodeUInt32Safe_cut bytes extra m :
  varint_shape bytes = true -> (length bytes <= 5)%nat ->
  0 <= m < Z.of_nat (length bytes) ->
  VarintCodec.decodeUInt32Safe (take (Z.to_nat m) (bytes ++ extra)) m
  = Throw Truncated.
Proof.
  intros Hshape Hlen Hm.
  rewrite take_app_le by lia.
  rewrite decodeUInt32Safe_eq by (rewrite length_take; lia).
  rewrite take_take.
  replace (Z.to_nat (Z.min m 5) `min` Z.to_nat m)%nat with (Z.to_nat m) by lia.
  rewrite (proj2 (terminator_None _)
             (shape_prefix_continues bytes (Z.to_nat m) Hshape ltac:(lia))).
  destruct (Z.ltb_spec m 5); [reflexivity|lia].
Qed.

Lemma decodeInt64Safe_cut bytes extra m :
  varint_shape bytes = true -> (length bytes <= 10)%nat ->
  0 <= m < Z.of_nat (length bytes) ->
  VarintCodec.decodeInt64Safe (take (Z.to_nat m) (bytes ++ extra)) m
  = Throw Truncated.
Proof.
  intros Hshape Hlen Hm.
  rewrite take_app_le by lia.
  rewrite decodeInt64Safe_eq by (rewrite length_take; lia).
  rewrite take_take.
  replace (Z.to_nat (Z.min m 10) `min` Z.to_nat m)%nat with (Z.to_nat m) by lia.
  rewrite (proj2 (terminator_None _)
             (shape_prefix_continues bytes (Z.to_nat m) Hshape ltac:(lia))).
  destruct (Z.ltb_spec m 10); [reflexivity|lia].
Qed.

Lemma advance_take pre rest n :
  Z.of_nat (length pre) <= n ->
  advance (take (Z.to_nat n) (pre ++ rest)) (Z.of_nat (length pre))
  = take (Z.to_nat (n - Z.of_nat (length pre))) rest.
Proof.
  intros Hn. unfold advance. rewrite Nat2Z.id.
  rewrite take_app_ge by lia. rewrite drop_app_length.
  f_equal. lia.
Qed.

(** A varint inside a buffer that is cut at [n]: read whole when the cut
    comes after it, Truncated when the cut falls inside it. *)
Lemma decodeUInt32Safe_at_cut v pre rest n :
  is_u32 v -> Z.of_nat (length pre) <= n ->
  n <= Z.of_nat (length (pre ++ VarintCodec.encodeUInt32 v ++ rest)) ->
  n < 2 ^ 64 ->
  VarintCodec.decodeUInt32Safe
    (advance (take (Z.to_nat n) (pre ++ VarintCodec.encodeUInt32 v ++ rest))
       (Z.of_nat (length pre)))
    (size_sub n (Z.of_nat (length pre)))
  = if n <? Z.of_nat (length (pre ++ VarintCodec.encodeUInt32 v))
    then Throw Truncated
    else Ok (v, Z.of_nat (length (VarintCodec.encodeUInt32 v))).
Proof.
  intros Hv Hpre Hn H64. rewrite !length_app in *.
  rewrite advance_take by lia. rewrite size_sub_id by lia.
  destruct (encodeUInt32_spec v Hv) as (Hshape & _ & _ & Hlen).
  destruct (Z.ltb_spec n (Z.of_nat (length pre + length (VarintCodec.encodeUInt32 v)))).
  - apply decodeUInt32Safe_cut; auto; lia.
  - rewrite take_app_ge by lia.
    apply decode_encodeUInt32; [exact Hv|].
    rewrite length_app, length_take. lia.
Qed.

Lemma decodeInt32Safe_at_cut v pre rest n :
  is_i32 v -> Z.of_nat (length pre) <= n ->
  n <= Z.of_nat (length (pre ++ VarintCodec.encodeInt32 v ++ rest)) ->
  n < 2 ^ 64 ->
  VarintCodec.decodeInt32Safe
    (advance (take (Z.to_nat n) (pre ++ VarintCodec.encodeInt32 v ++ rest))
       (Z.of_nat (length pre)))
    (size_sub n (Z.of_nat (length pre)))
  = if n <? Z.of_nat (length (pre ++ VarintCodec.encodeInt32 v))
    then Throw Truncated
    else Ok (v, Z.of_nat (length (VarintCodec.encodeInt32 v))).
Proof.
  intros Hv Hpre Hn H64. rewrite !length_app in *.
  rewrite advance_take by lia. rewrite size_sub_id by lia.
  destruct (encodeInt32_spec v Hv) as (Hshape & _ & _ & Hlen).
  destruct (Z.ltb_spec n (Z.of_nat (length pre + length (VarintCodec.encodeInt32 v)))).
  - unfold VarintCodec.decodeInt32Safe.
    rewrite decodeUInt32Safe_cut; auto; lia.
  - rewrite take_app_ge by lia.
    apply decode_encodeInt32; [exact Hv|].
    rewrite length_app, length_take. lia.
Qed.

Lemma decodeInt64Safe_at_cut v pre rest n :
  is_i64 v -> Z.of_nat (length pre) <= n ->
  n <= Z.of_nat (length (pre ++ VarintCodec.encodeInt64 v ++ rest)) ->
  n < 2 ^ 64 ->
  VarintCodec.decodeInt64Safe
    (advance (take (Z.to_nat n) (pre ++ VarintCodec.encodeInt64 v ++ rest))
       (Z.of_nat (length pre)))
    (size_sub n (Z.of_nat (length pre)))
  = if n <? Z.of_nat (length (pre ++ VarintCodec.encodeInt64 v))
    then Throw Truncated
    else Ok (v, Z.of_nat (length (VarintCodec.encodeInt64 v))).
Proof.
  intros Hv Hpre Hn H64. rewrite !length_app in *.
  rewrite advance_take by lia. rewrite size_sub_id by lia.
  destruct (encodeInt64_spec v Hv) as (Hshape & _ & _ & Hlen).
  destruct (Z.ltb_spec n (Z.of_nat (length pre + length (VarintCodec.encodeInt64 v)))).
  - apply decodeInt64Safe_cut; auto; lia.
  - rewrite take_app_ge by lia.
    apply decode_encodeInt64; [exact Hv|].
    rewrite length_app, length_take. lia.
Qed.

Section CutFacts.
Variable encode_value : Z -> list Z.
Variable decode_value : list Z -> Z -> outcome (Z * Z).
Variable value_ok : Z -> Prop.
Hypothesis value_at_cut : forall v pre rest n,
  value_ok v -> Z.of_nat (length pre) <= n ->
  n <= Z.of_nat (length (pre ++ encode_value v ++ rest)) ->
  n < 2 ^ 64 ->
  decode_value
    (advance (take (Z.to_nat n) (pre ++ encode_value v ++ rest))
       (Z.of_nat (length pre)))
    (size_sub n (Z.of_nat (length pre)))
  = if n <? Z.of_nat (length (pre ++ encode_value v))
    then Throw Truncated
    else Ok (v, Z.of_nat (length (encode_value v))).

Lemma decode_runs_cut runs : forall data pre n result,
  data = pre ++ RLEEncoder.run_bytes encode_value runs ->
  Forall (run_ok value_ok) runs ->
  Z.of_nat (length pre) <= n < Z.of_nat (length data) -> n < 2 ^ 64 ->
  RLEEncoder.decode_runs decode_value (length runs)
    (take (Z.to_nat n) data) n (Z.of_nat (length pre)) result
  = Throw Truncated.
Proof.
  induction runs as [|[l v] runs IH]; intros data pre n result Hdata Hok Hn H64.
  - subst data. simpl in Hn. rewrite app_nil_r in Hn. lia.
  - inversion Hok as [|? ? [Hl Hv] Hoks]; subst. simpl in Hl, Hv.
    cbn [length RLEEncoder.decode_runs RLEEncoder.run_bytes flat_map] in *.
    fold (RLEEncoder.run_bytes encode_value runs) in *.
    set (tail := RLEEncoder.run_bytes encode_value runs) in *.
    rewrite !length_app in Hn.
    replace (pre ++ (VarintCodec.encodeUInt32 l ++ encode_value v) ++ tail)
      with (pre ++ VarintCodec.encodeUInt32 l ++ (encode_value v ++ tail))
      by (rewrite <- ?app_assoc; reflexivity).
    rewrite decodeUInt32Safe_at_cut by (auto; rewrite ?length_app; lia).
    destruct (Z.ltb_spec n (Z.of_nat (length (pre ++ VarintCodec.encodeUInt32 l))))
      as [Hcut|Hpast]; [reflexivity|].
    cbn [bind].
    replace (Z.of_nat (length pre)
             + Z.of_nat (length (VarintCodec.encodeUInt32 l)))
      with (Z.of_nat (length (pre ++ VarintCodec.encodeUInt32 l)))
      by (rewrite length_app; lia).
    replace (pre ++ VarintCodec.encodeUInt32 l ++ (encode_value v ++ tail))
      with ((pre ++ VarintCodec.encodeUInt32 l) ++ encode_value v ++ tail)
      by (rewrite <- ?app_assoc; reflexivity).
    rewrite value_at_cut by (auto; rewrite ?length_app in *; lia).
    destruct (Z.ltb_spec n
                (Z.of_nat (length ((pre ++ VarintCodec.encodeUInt32 l)
                                     ++ encode_value v))))
      as [Hcut'|Hpast']; [reflexivity|].
    cbn [bind].
    replace (Z.of_nat (length (pre ++ VarintCodec.encodeUInt32 l))
             + Z.of_nat (length (encode_value v)))
      with (Z.of_nat (length ((pre ++ VarintCodec.encodeUInt32 l)
                                ++ encode_value v)))
      by (rewrite !length_app; lia).
    apply IH.
    + rewrite <- ?app_assoc. reflexivity.
    + exact Hoks.
    + rewrite !length_app in *. lia.
    + exact H64.
Qed.

Lemma rle_decode_cut runs n :
  Forall (run_ok value_ok) runs ->
  Z.of_nat (length runs) < 2 ^ 32 ->
  0 <= n < Z.of_nat (length (RLEEncoder.write_runs encode_value runs)) ->
  n < 2 ^ 64 ->
  RLEEncoder.decode_reserved decode_value
    (take (Z.to_nat n) (RLEEncoder.write_runs encode_value runs)) n
  = Throw Truncated.
Proof.
  intros Hok Hcount Hn H64.
  unfold RLEEncoder.decode_reserved, RLEEncoder.write_runs in *.
  assert (Hu : is_u32 (Z.of_nat (length runs))) by (unfold is_u32; lia).
  rewrite (u32_id _ Hu) in *.
  set (count := VarintCodec.encodeUInt32 (Z.of_nat (length runs))) in *.
  change 0 with (Z.of_nat (length (@nil Z))) at 1 2.
  change (count ++ RLEEncoder.run_bytes encode_value runs)
    with ([] ++ count ++ RLEEncoder.run_bytes encode_value runs).
  subst count.
  rewrite decodeUInt32Safe_at_cut by (auto; simpl in *; lia).
  cbn [app length].
  destruct (Z.ltb_spec n
              (Z.of_nat (length (VarintCodec.encodeUInt32
                                   (Z.of_nat (length runs))))))
    as [Hcut|Hpast]; [reflexivity|].
  cbn [bind]. rewrite Nat2Z.id. rewrite Z.add_0_l.
  apply decode_runs_cut; auto. rewrite length_app in *. lia.
Qed.

Lemma rle_encode_cut values n :
  Forall value_ok values -> Z.of_nat (length values) < 2 ^ 32 ->
  0 <= n < Z.of_nat (length (RLEEncoder.encode encode_value values)) ->
  n < 2 ^ 64 ->
  RLEEncoder.decode_reserved decode_value
    (take (Z.to_nat n) (RLEEncoder.encode encode_value values)) n
  = Throw Truncated.
Proof.
  intros Hok Hlen Hn H64.
  destruct (build_runs_spec (length values) values (Nat.le_refl _))
    as (_ & Hall & Hcount & _).
  destruct values as [|v values]; [simpl in Hn; lia|].
  unfold RLEEncoder.encode in *. apply rle_decode_cut; auto; [|lia].
  eapply Forall_impl; [exact Hall|].
  intros [l x] [Hl Hin]. split.
  - unfold is_u32. simpl in *. lia.
  - rewrite Forall_forall in Hok. apply Hok.
    apply list_elem_of_In. exact Hin.
Qed.

Variable width : nat.
Variable cast : Z -> Z.
Hypothesis cast_ok : forall z, value_ok (cast z).
Hypothesis cast_step : forall prev v,
  value_ok v -> cast (prev + cast (v - prev)) = v.

Lemma read_deltas_cut rest : forall data pre prev n result,
  data = pre ++ DeltaEncoder.write_deltas cast encode_value prev rest ->
  Forall value_ok rest ->
  Z.of_nat (length pre) <= n < Z.of_nat (length data) -> n < 2 ^ 64 ->
  DeltaEncoder.read_deltas cast decode_value (length rest)
    (take (Z.to_nat n) data) n (Z.of_nat (length pre)) prev result
  = Throw Truncated.
Proof.
  induction rest as [|v rest IH];
    intros data pre prev n result Hdata Hok Hn H64.
  - subst data. simpl in Hn. rewrite app_nil_r in Hn. lia.
  - subst data. inversion Hok as [|? ? Hv Hoks]; subst.
    cbn [length DeltaEncoder.read_deltas DeltaEncoder.write_deltas] in *.
    set (tail := DeltaEncoder.write_deltas cast encode_value v rest) in *.
    rewrite !length_app in Hn.
    rewrite value_at_cut by (auto; rewrite ?length_app; lia).
    destruct (Z.ltb_spec n
                (Z.of_nat (length (pre ++ encode_value (cast (v - prev))))))
      as [Hcut|Hpast]; [reflexivity|].
    cbn [bind]. rewrite cast_step by exact Hv.
    replace (Z.of_nat (length pre)
             + Z.of_nat (length (encode_value (cast (v - prev)))))
      with (Z.of_nat (length (pre ++ encode_value (cast (v - prev)))))
      by (rewrite length_app; lia).
    replace (pre ++ encode_value (cast (v - prev)) ++ tail)
      with ((pre ++ encode_value (cast (v - prev))) ++ tail)
      by (rewrite <- ?app_assoc; reflexivity).
    apply IH.
    + reflexivity.
    + exact Hoks.
    + rewrite !length_app in *. lia.
    + exact H64.
Qed.

Hypothesis cast_read : forall z,
  value_ok z -> cast (z mod 2 ^ (8 * Z.of_nat width)) = z.

Lemma delta_encode_cut values n :
  Forall value_ok values ->
  Z.of_nat (length values) <= 2 ^ 32 ->
  Z.of_nat width
    <= n < Z.of_nat (length (DeltaEncoder.encode width cast encode_value values)) ->
  n < 2 ^ 64 ->
  DeltaEncoder.decode_reserved width cast decode_value
    (take (Z.to_nat n) (DeltaEncoder.encode width cast encode_value values)) n
  = Throw Truncated.
Proof.
  intros Hok Hlen Hn H64. unfold DeltaEncoder.decode_reserved.
  destruct values as [|base rest]; [simpl in Hn; lia|].
  inversion Hok as [|? ? Hbase Hrest]; subst.
  cbn [DeltaEncoder.encode] in *.
  assert (Hcount : is_u32 (Z.of_nat (length rest)))
    by (unfold is_u32; simpl in Hlen; lia).
  replace (Z.of_nat (length (base :: rest)) - 1)
    with (Z.of_nat (length rest)) in * by (simpl; lia).
  rewrite (u32_id _ Hcount) in *.
  set (count := VarintCodec.encodeUInt32 (Z.of_nat (length rest))) in *.
  set (tail := DeltaEncoder.write_deltas cast encode_value base rest) in *.
  rewrite !length_app, length_le_bytes in Hn.
  assert (Htake : take (Z.to_nat n) (le_bytes width base ++ count ++ tail)
                  = le_bytes width base
                      ++ take (Z.to_nat n - width) (count ++ tail)).
  { rewrite take_app_ge by (rewrite length_le_bytes; lia).
    rewrite length_le_bytes. reflexivity. }
  rewrite Htake at 1. rewrite read_le_le_bytes.
  rewrite cast_read by exact Hbase.
  replace (Z.of_nat width)
    with (Z.of_nat (length (le_bytes width base)))
    by (rewrite length_le_bytes; reflexivity).
  subst count.
  rewrite decodeUInt32Safe_at_cut
    by (auto; rewrite ?length_app, ?length_le_bytes; lia).
  destruct (Z.ltb_spec n
              (Z.of_nat (length (le_bytes width base
                                   ++ VarintCodec.encodeUInt32
                                        (Z.of_nat (length rest))))))
    as [Hcut|Hpast]; [reflexivity|].
  cbn [bind]. rewrite Nat2Z.id.
  replace (Z.of_nat (length (le_bytes width base))
           + Z.of_nat (length (VarintCodec.encodeUInt32
                                 (Z.of_nat (length rest)))))
    with (Z.of_nat (length (le_bytes width base
                              ++ VarintCodec.encodeUInt32
                                   (Z.of_nat (length rest)))))
    by (rewrite length_app; lia).
  replace (le_bytes width base
             ++ VarintCodec.encodeUInt32 (Z.of_nat (length rest)) ++ tail)
    with ((le_bytes width base
             ++ VarintCodec.encodeUInt32 (Z.of_nat (length rest))) ++ tail)
    by (rewrite <- ?app_assoc; reflexivity).
  apply read_deltas_cut.
  - reflexivity.
  - exact Hrest.
  - rewrite !length_app, ?length_le_bytes in *. lia.
  - exact H64.
Qed.
End CutFacts.

(** X12: an RLE encoding that is cut short is rejected: for every vector
    of fewer than 2^32 values, the decoder applied to any proper prefix
    of the encoder's bytes (the empty prefix included), with the length
    of the prefix as size and [num_values] the number of values or less,
    throws Truncated; it never returns a shorter or different vector. *)
Theorem rle_rejects_cut_encodings
  (V32 V64 : list Z) (n32 n64 num_values32 num_values64 : Z) :
  Forall is_i32 V32 -> Forall is_i64 V64 ->
  Z.of_nat (length V32) < 2 ^ 32 -> Z.of_nat (length V64) < 2 ^ 32 ->
  0 <= n32 < Z.of_nat (length (RLEEncoder.encodeInt32 V32)) ->
  0 <= n64 < Z.of_nat (length (RLEEncoder.encodeInt64 V64)) ->
  n32 < 2 ^ 64 -> n64 < 2 ^ 64 ->
  num_values32 <= Z.of_nat (length V32) ->
  num_values64 <= Z.of_nat (length V64) ->
  RLEEncoder.decodeInt32
    (take (Z.to_nat n32) (RLEEncoder.encodeInt32 V32)) n32 num_values32
    = Throw Truncated
  /\ RLEEncoder.decodeInt64
       (take (Z.to_nat n64) (RLEEncoder.encodeInt64 V64)) n64 num_values64
     = Throw Truncated.
Proof.
  intros Hv32 Hv64 Hl32 Hl64 Hn32 Hn64 Hs32 Hs64 Hnum32 Hnum64. split.
  - unfold RLEEncoder.decodeInt32.
    rewrite rle_decode_reserved by (rewrite max_size_4; lia).
    apply (rle_encode_cut VarintCodec.encodeInt32 VarintCodec.decodeInt32Safe
             is_i32 decodeInt32Safe_at_cut); assumption.
  - unfold RLEEncoder.decodeInt64.
    rewrite rle_decode_reserved by (rewrite max_size_8; lia).
    apply (rle_encode_cut VarintCodec.encodeInt64 VarintCodec.decodeInt64Safe
             is_i64 decodeInt64Safe_at_cut); assumption.
Qed.

Lemma rle_rejects_cut_encodings_witness :
  RLEEncoder.decodeInt32
    (take (Z.to_nat 5) (RLEEncoder.encodeInt32 [5; 5; 5; 5; 10; 10; 3]))
    5 7
  = Throw Truncated
  /\ RLEEncoder.decodeInt64
       (take (Z.to_nat 3) (RLEEncoder.encodeInt64 [1; 1; 2])) 3 3
     = Throw Truncated.
Proof.
  apply (rle_rejects_cut_encodings
           [5; 5; 5; 5; 10; 10; 3] [1; 1; 2] 5 3 7 3).
  - repeat constructor; unfold is_i32; lia.
  - repeat constructor; unfold is_i64; lia.
  - simpl. lia.
  - simpl. lia.
  - vm_compute. split; congruence.
  - vm_compute. split; congruence.
  - lia.
  - lia.
  - simpl. lia.
  - simpl. lia.
Defined.

(** X13: a delta encoding that is cut short anywhere after the base is
    rejected: for every vector of at most 2^32 values, the decoder
    applied to a proper prefix that still holds the 4 (resp. 8) bytes of
    the base, with a non-zero [num_values] that is the number of values
    or less, throws Truncated. *)
Theorem delta_rejects_cut_encodings
  (V32 V64 : list Z) (n32 n64 num_values32 num_values64 : Z) :
  Forall is_i32 V32 -> Forall is_i64 V64 ->
  Z.of_nat (length V32) <= 2 ^ 32 -> Z.of_nat (length V64) <= 2 ^ 32 ->
  num_values32 <> 0 -> num_values64 <> 0 ->
  num_values32 <= Z.of_nat (length V32) ->
  num_values64 <= Z.of_nat (length V64) ->
  4 <= n32 < Z.of_nat (length (DeltaEncoder.encodeInt32 V32)) ->
  8 <= n64 < Z.of_nat (length (DeltaEncoder.encodeInt64 V64)) ->
  n32 < 2 ^ 64 -> n64 < 2 ^ 64 ->
  DeltaEncoder.decodeInt32
    (take (Z.to_nat n32) (DeltaEncoder.encodeInt32 V32)) n32 num_values32
    = Throw Truncated
  /\ DeltaEncoder.decodeInt64
       (take (Z.to_nat n64) (DeltaEncoder.encodeInt64 V64)) n64 num_values64
     = Throw Truncated.
Proof.
  intros Hv32 Hv64 Hl32 Hl64 Hnz32 Hnz64 Hnum32 Hnum64 Hn32 Hn64 Hs32 Hs64.
  split.
  - unfold DeltaEncoder.decodeInt32.
    rewrite delta_decode_reserved;
      [|exact Hnz32|pose proof width_fits_4; lia].
    apply (delta_encode_cut VarintCodec.encodeInt32 VarintCodec.decodeInt32Safe
             is_i32 decodeInt32Safe_at_cut 4 i32 i32_range i32_step i32_read);
      assumption.
  - unfold DeltaEncoder.decodeInt64.
    rewrite delta_decode_reserved;
      [|exact Hnz64|pose proof width_fits_8; lia].
    apply (delta_encode_cut VarintCodec.encodeInt64 VarintCodec.decodeInt64Safe
             is_i64 decodeInt64Safe_at_cut 8 i64 i64_range i64_step i64_read);
      assumption.
Qed.

Lemma delta_rejects_cut_encodings_witness :
  DeltaEncoder.decodeInt32
    (take (Z.to_nat 5) (DeltaEncoder.encodeInt32 [10; 15; 20])) 5 3
  = Throw Truncated
  /\ DeltaEncoder.decodeInt64
       (take (Z.to_nat 10)
          (DeltaEncoder.encodeInt64 [1000; 1100; 1200; 1300; 1400])) 10 5
     = Throw Truncated.
Proof.
  apply (delta_rejects_cut_encodings
           [10; 15; 20] [1000; 1100; 1200; 1300; 1400] 5 10 3 5).
  - repeat constructor; unfold is_i32; lia.
  - repeat constructor; unfold is_i64; lia.
  - simpl. lia.
  - simpl. lia.
  - lia.
  - lia.
  - simpl. lia.
  - simpl. lia.
  - vm_compute. split; congruence.
  - vm_compute. split; congruence.
  - lia.
  - lia.
Defined.

(** ** The value count of the delta decoders *)

Lemma read_deltas_length cast decode_value num_deltas :
  forall data size pos current result values,
  DeltaEncoder.read_deltas cast decode_value num_deltas data size pos
    current result = Ok values ->
  length values = (length result + num_deltas)%nat.
Proof.
  induction num_deltas as [|num_deltas IH];
    intros data size pos current result values.
  - simpl. intros [= <-]. lia.
  - cbn [DeltaEncoder.read_deltas].
    destruct (decode_value _ _) as [[d m]| |]; cbn [bind]; try discriminate.
    intros H. apply IH in H. rewrite length_app in H. simpl in H. lia.
Qed.

Lemma delta_decode_length width cast decode_value data size values :
  DeltaEncoder.decode_reserved width cast decode_value data size = Ok values ->
  exists raw num_deltas bytes_read,
    read_le width data = Some raw
    /\ VarintCodec.decodeUInt32Safe (advance data (Z.of_nat width))
         (size_sub size (Z.of_nat width)) = Ok (num_deltas, bytes_read)
    /\ head values = Some (cast raw)
    /\ Z.of_nat (length values) = 1 + num_deltas.
Proof.
  unfold DeltaEncoder.decode_reserved.
  destruct (read_le width data) as [raw|]; [|discriminate].
  destruct (VarintCodec.decodeUInt32Safe _ _) as [[k n]| |] eqn:Hk;
    cbn [bind]; try discriminate.
  intros H. exists raw, k, n. split; [reflexivity|]. split; [reflexivity|].
  assert (Hpos : 0 <= k) by (eapply safe_loop_nonneg; [|exact Hk]; lia).
  pose proof (read_deltas_length _ _ _ _ _ _ _ _ _ H) as Hlen.
  simpl in Hlen. split; [|lia].
  clear -H. revert H. generalize (Z.of_nat width + n). intros p.
  assert (Hgen : forall m d s q c r vs,
             DeltaEncoder.read_deltas cast decode_value m d s q c r = Ok vs ->
             head r = Some (cast raw) -> head vs = Some (cast raw)).
  { induction m as [|m IH]; intros d s q c r vs.
    - simpl. intros [= <-]. auto.
    - cbn [DeltaEncoder.read_deltas].
      destruct (decode_value _ _) as [[x y]| |]; cbn [bind]; try discriminate.
      intros Hr Hh. eapply IH; [exact Hr|].
      destruct r; [discriminate|exact Hh]. }
  intros H. eapply Hgen; [exact H|reflexivity].
Qed.

(** X14: the delta decoders take the number of values from the buffer,
    not from [num_values], which only chooses among three paths.  With
    [num_values = 0] they return the empty vector without looking at the
    buffer; with [num_values] above [max_size()] they throw the length
    error of [result.reserve] without looking at the buffer; otherwise
    a returned vector starts with the base read from the first 4 (resp.
    8) bytes and holds [1 + num_deltas] values, [num_deltas] being the
    varint that follows the base, and a call that declares fewer values,
    but not zero, returns the same vector. *)
Theorem delta_decoders_take_the_count_from_the_buffer
  (data : list Z) (size num_values num_values' : Z) :
  0 < num_values' <= num_values ->
  (DeltaEncoder.decodeInt32 data size 0 = Ok []
   /\ (max_size 4 < num_values ->
       DeltaEncoder.decodeInt32 data size num_values = Throw LengthError)
   /\ forall values,
        DeltaEncoder.decodeInt32 data size num_values = Ok values ->
        (exists raw num_deltas bytes_read,
            read_le 4 data = Some raw
            /\ VarintCodec.decodeUInt32Safe (advance data 4) (size_sub size 4)
               = Ok (num_deltas, bytes_read)
            /\ head values = Some (i32 raw)
            /\ Z.of_nat (length values) = 1 + num_deltas)
        /\ DeltaEncoder.decodeInt32 data size num_values' = Ok values)
  /\ (DeltaEncoder.decodeInt64 data size 0 = Ok []
      /\ (max_size 8 < num_values ->
          DeltaEncoder.decodeInt64 data size num_values = Throw LengthError)
      /\ forall values,
           DeltaEncoder.decodeInt64 data size num_values = Ok values ->
           (exists raw num_deltas bytes_read,
               read_le 8 data = Some raw
               /\ VarintCodec.decodeUInt32Safe (advance data 8)
                    (size_sub size 8)
                  = Ok (num_deltas, bytes_read)
               /\ head values = Some (i64 raw)
               /\ Z.of_nat (length values) = 1 + num_deltas)
           /\ DeltaEncoder.decodeInt64 data size num_values' = Ok values).
Proof.
  intros Hless.
  assert (Hgen : forall width cast decode_value,
    0 <= max_size (Z.of_nat width) ->
    DeltaEncoder.decode width cast decode_value data size 0 = Ok []
    /\ (max_size (Z.of_nat width) < num_values ->
        DeltaEncoder.decode width cast decode_value data size num_values
        = Throw LengthError)
    /\ forall values,
         DeltaEncoder.decode width cast decode_value data size num_values
           = Ok values ->
         (exists raw num_deltas bytes_read,
             read_le width data = Some raw
             /\ VarintCodec.decodeUInt32Safe (advance data (Z.of_nat width))
                  (size_sub size (Z.of_nat width))
                = Ok (num_deltas, bytes_read)
             /\ head values = Some (cast raw)
             /\ Z.of_nat (length values) = 1 + num_deltas)
         /\ DeltaEncoder.decode width cast decode_value data size num_values'
            = Ok values).
  { intros width cast decode_value Hmax.
    split; [reflexivity|]. split.
    - intros Hbig. apply delta_decode_length_error; assumption.
    - intros values Hvalues.
      destruct (Z.le_gt_cases num_values (max_size (Z.of_nat width)))
        as [Hfit|Hbig].
      + rewrite delta_decode_reserved in Hvalues by lia.
        rewrite delta_decode_reserved by lia.
        split; [|exact Hvalues].
        apply delta_decode_length with (decode_value := decode_value).
        exact Hvalues.
      + rewrite delta_decode_length_error in Hvalues by (assumption || lia).
        discriminate. }
  split.
  - apply (Hgen 4%nat i32). vm_compute. discriminate.
  - apply (Hgen 8%nat i64). vm_compute. discriminate.
Qed.

Lemma delta_decoders_take_the_count_from_the_buffer_witness :
  DeltaEncoder.decodeInt32 [10; 0; 0; 0; 2; 10; 10] 7 1 = Ok [10; 15; 20]
  /\ DeltaEncoder.decodeInt64 [10; 0; 0; 0; 0; 0; 0; 0; 2; 10; 10] 11 1
     = Ok [10; 15; 20].
Proof.
  assert (H13 : 0 < 1 <= 3) by lia.
  split.
  - exact (proj2 (proj2 (proj2 (proj1
      (delta_decoders_take_the_count_from_the_buffer
         [10; 0; 0; 0; 2; 10; 10] 7 3 1 H13))) [10; 15; 20] eq_refl)).
  - exact (proj2 (proj2 (proj2 (proj2
      (delta_decoders_take_the_count_from_the_buffer
         [10; 0; 0; 0; 0; 0; 0; 0; 2; 10; 10] 11 3 1 H13)))
      [10; 15; 20] eq_refl)).
Defined.

(** ** Size of a delta encoding *)

Lemma write_deltas_deltas cast encode_value values : forall prev,
  DeltaEncoder.write_deltas cast encode_value prev values
  = flat_map encode_value (deltas cast prev values).
Proof.
  induction values as [|v values IH]; intros prev; [reflexivity|].
  simpl. rewrite IH. reflexivity.
Qed.

Lemma length_deltas cast values : forall prev,
  length (deltas cast prev values) = length values.
Proof.
  induction values as [|v values IH]; intros prev; simpl; [|rewrite IH];
    reflexivity.
Qed.

Lemma Forall_deltas cast (P : Z -> Prop) values : forall prev,
  (forall z, P (cast z)) -> Forall P (deltas cast prev values).
Proof.
  induction values as [|v values IH]; intros prev HP; simpl; constructor; auto.
Qed.

Lemma one_byte_int32 d :
  -64 <= d < 64 -> length (VarintCodec.encodeInt32 d) = 1%nat.
Proof.
  intros Hd. assert (Hi : is_i32 d) by (unfold is_i32; lia).
  destruct (encodeInt32_spec d Hi) as (_ & _ & _ & Hlen).
  assert ((length (VarintCodec.encodeInt32 d) <= 1)%nat); [|lia].
  unfold VarintCodec.encodeInt32, VarintCodec.encodeUInt32.
  rewrite zigzag32_eq by exact Hi.
  apply length_encode_loop; try lia.
  - pose proof (zigzag_range d 31 ltac:(lia) Hi). simpl in *. lia.
  - apply (zigzag_lt d 6); lia.
Qed.

Lemma one_byte_int64 d :
  -64 <= d < 64 -> length (VarintCodec.encodeInt64 d) = 1%nat.
Proof.
  intros Hd. assert (Hi : is_i64 d) by (unfold is_i64; lia).
  destruct (encodeInt64_spec d Hi) as (_ & _ & _ & Hlen).
  assert ((length (VarintCodec.encodeInt64 d) <= 1)%nat); [|lia].
  unfold VarintCodec.encodeInt64.
  rewrite zigzag64_eq by exact Hi.
  apply length_encode_loop; try lia.
  - pose proof (zigzag_range d 63 ltac:(lia) Hi). simpl in *. lia.
  - apply (zigzag_lt d 6); lia.
Qed.

Lemma length_flat_map_ones (f : Z -> list Z) l :
  Forall (fun x => (1 <= length (f x))%nat) l ->
  (length l <= length (flat_map f l))%nat
  /\ (length (flat_map f l) = length l
      <-> Forall (fun x => length (f x) = 1%nat) l).
Proof.
  induction 1 as [|x l Hx _ [IHle IHeq]]; simpl.
  - split; [lia|]. split; [constructor|reflexivity].
  - rewrite length_app. split; [lia|]. split.
    + intros Heq. constructor; [lia|]. apply IHeq. lia.
    + intros Hall. inversion Hall as [|? ? H1 Hrest]; subst.
      apply IHeq in Hrest. lia.
Qed.

Lemma one_byte_int32_iff d :
  is_i32 d -> length (VarintCodec.encodeInt32 d) = 1%nat <-> -64 <= d < 64.
Proof.
  intros Hi. split; [|apply one_byte_int32].
  intros Hlen.
  assert (Hle : (length (VarintCodec.encodeInt32 d) <= 1)%nat) by lia.
  clear Hlen.
  unfold VarintCodec.encodeInt32, VarintCodec.encodeUInt32 in Hle.
  rewrite zigzag32_eq in Hle by exact Hi.
  pose proof (zigzag_range d 31 ltac:(lia) Hi) as Hrange.
  apply length_encode_loop in Hle; [|lia|change (7 * Z.of_nat 5) with 35; lia|lia].
  apply (zigzag_lt d 6) in Hle; lia.
Qed.

Lemma one_byte_int64_iff d :
  is_i64 d -> length (VarintCodec.encodeInt64 d) = 1%nat <-> -64 <= d < 64.
Proof.
  intros Hi. split; [|apply one_byte_int64].
  intros Hlen.
  assert (Hle : (length (VarintCodec.encodeInt64 d) <= 1)%nat) by lia.
  clear Hlen.
  unfold VarintCodec.encodeInt64 in Hle.
  rewrite zigzag64_eq in Hle by exact Hi.
  pose proof (zigzag_range d 63 ltac:(lia) Hi) as Hrange.
  apply length_encode_loop in Hle; [|lia|change (7 * Z.of_nat 10) with 70; lia|lia].
  apply (zigzag_lt d 6) in Hle; lia.
Qed.

Section DeltaSize.
Variable width : nat.
Variable cast : Z -> Z.
Variable encode_value : Z -> list Z.
Variable value_ok : Z -> Prop.
Hypothesis cast_ok : forall z, value_ok (cast z).
Hypothesis at_least_one : forall d,
  value_ok d -> (1 <= length (encode_value d))%nat.
Hypothesis one_byte : forall d,
  value_ok d -> length (encode_value d) = 1%nat <-> -64 <= d < 64.

Lemma delta_size base rest :
  let count :=
    length (VarintCodec.encodeUInt32 (u32 (Z.of_nat (length rest)))) in
  let encoded := DeltaEncoder.encode width cast encode_value (base :: rest) in
  (width + count + length rest <= length encoded)%nat
  /\ (length encoded = (width + count + length rest)%nat
      <-> Forall (fun d => -64 <= d < 64) (deltas cast base rest)).
Proof.
  cbv zeta. cbn [DeltaEncoder.encode].
  rewrite !length_app, length_le_bytes, write_deltas_deltas.
  replace (Z.of_nat (length (base :: rest)) - 1)
    with (Z.of_nat (length rest)) by (simpl; lia).
  assert (Hok : Forall value_ok (deltas cast base rest))
    by (apply Forall_deltas; exact cast_ok).
  destruct (length_flat_map_ones encode_value (deltas cast base rest))
    as [Hle Heq].
  { eapply Forall_impl; [exact Hok|]. exact at_least_one. }
  rewrite length_deltas in Hle, Heq.
  split; [lia|].
  transitivity (length (flat_map encode_value (deltas cast base rest))
                = length rest); [lia|].
  rewrite Heq. rewrite !Forall_forall. rewrite Forall_forall in Hok.
  split; intros H d Hd; apply (one_byte d (Hok d Hd)); apply H; exact Hd.
Qed.
End DeltaSize.

(** X15: the encoding of a vector takes at least the base, the count
    varint and one byte per further value, and exactly that many bytes
    when, and only when, every wrapped difference of adjacent values
    lies in [[-64, 64)], differences that are small only after wrapping
    included. *)
Theorem delta_encoded_size (base : Z) (rest : list Z) :
  let count :=
    length (VarintCodec.encodeUInt32 (u32 (Z.of_nat (length rest)))) in
  ((4 + count + length rest
    <= length (DeltaEncoder.encodeInt32 (base :: rest)))%nat
   /\ (length (DeltaEncoder.encodeInt32 (base :: rest))
       = (4 + count + length rest)%nat
       <-> Forall (fun d => -64 <= d < 64) (deltas i32 base rest)))
  /\ ((8 + count + length rest
       <= length (DeltaEncoder.encodeInt64 (base :: rest)))%nat
      /\ (length (DeltaEncoder.encodeInt64 (base :: rest))
          = (8 + count + length rest)%nat
          <-> Forall (fun d => -64 <= d < 64) (deltas i64 base rest))).
Proof.
  cbv zeta. split.
  - apply (delta_size 4 i32 VarintCodec.encodeInt32 is_i32 i32_range).
    + intros d Hd. destruct (encodeInt32_spec d Hd) as (_ & _ & _ & H). lia.
    + exact one_byte_int32_iff.
  - apply (delta_size 8 i64 VarintCodec.encodeInt64 is_i64 i64_range).
    + intros d Hd. destruct (encodeInt64_spec d Hd) as (_ & _ & _ & H). lia.
    + exact one_byte_int64_iff.
Qed.

Lemma delta_encoded_size_witness :
  length (DeltaEncoder.encodeInt32 [2147483647; -2147483648; -2147483640])
  = 7%nat
  /\ length (DeltaEncoder.encodeInt64 [1000; 1010; 1020; 1030; 1040]) = 13%nat.
Proof.
  split.
  - refine (proj2 (proj2 (proj1
      (delta_encoded_size 2147483647 [-2147483648; -2147483640]))) _).
    repeat constructor; vm_compute; congruence.
  - refine (proj2 (proj2 (proj2
      (delta_encoded_size 1000 [1010; 1020; 1030; 1040]))) _).
    repeat constructor; vm_compute; congruence.
Defined.

(** ** More on dictionary encoding *)

(** X16: for every non-empty vector of fewer than 2^31 strings, each
    shorter than 2^32 bytes, [DictionaryEncoder::decode] applied to the
    bytes of [encode], with their length and [num_values = |V|], returns
    the vector, whatever state the encoder object was in before. *)
Theorem dictionary_round_trip_of_nonempty_vectors
  (self : DictionaryEncoder.t) (values : list string) :
  values <> [] ->
  Z.of_nat (length values) < 2 ^ 31 ->
  Forall (fun s => Z.of_nat (String.length s) < 2 ^ 32) values ->
  Z.of_nat (length (DictionaryEncoder.encode self values).2) < 2 ^ 64 ->
  DictionaryEncoder.decode (DictionaryEncoder.encode self values).2
    (Z.of_nat (length (DictionaryEncoder.encode self values).2))
    (Z.of_nat (length values))
  = Ok values.
Proof.
  intros Hne Hlen Hstr Hsize.
  exact (proj1 (dictionary_round_trip self values Hne Hlen Hstr Hsize)).
Qed.

Lemma dictionary_round_trip_of_nonempty_vectors_witness :
  let V := ["Paris"; "Lyon"; "Paris"; "Nice"; "Lyon"]%string in
  let self := DictionaryEncoder.mk ∅ ["old"%string] in
  DictionaryEncoder.decode (DictionaryEncoder.encode self V).2
    (Z.of_nat (length (DictionaryEncoder.encode self V).2))
    (Z.of_nat (length V))
  = Ok V.
Proof.
  apply dictionary_round_trip_of_nonempty_vectors.
  - discriminate.
  - simpl. lia.
  - repeat constructor; simpl; lia.
  - vm_compute. reflexivity.
Defined.

(** X17: what [encode] leaves in the encoder and writes.  The dictionary
    holds each distinct string of the input once, in the order of first
    appearance; the map [dict_] sends a string to an index exactly when
    the dictionary holds the string at that index; the bytes are the
    dictionary size, the entries with their lengths, and the RLE encoding
    of one index per input string, each pointing at that string; and
    nothing of this depends on the state the encoder had before the
    call. *)
Theorem dictionary_encoder_state
  (self other : DictionaryEncoder.t) (values : list string) :
  Z.of_nat (length values) < 2 ^ 32 ->
  let self' := (DictionaryEncoder.encode self values).1 in
  let dictionary := DictionaryEncoder.dict_values_ self' in
  first_seen_order dictionary values
  /\ (forall s idx,
        DictionaryEncoder.dict_ self' !! s = Some idx
        <-> 0 <= idx /\ dictionary !! Z.to_nat idx = Some s)
  /\ (exists indices,
        (DictionaryEncoder.encode self values).2
        = le_bytes 4 (Z.of_nat (length dictionary))
            ++ flat_map DictionaryEncoder.write_entry dictionary
            ++ RLEEncoder.encodeInt32 (map i32 indices)
        /\ Forall2 (fun idx v =>
                      0 <= idx /\ dictionary !! Z.to_nat idx = Some v)
                   indices values)
  /\ (length dictionary <= length values)%nat
  /\ DictionaryEncoder.encode other values
     = DictionaryEncoder.encode self values.
Proof.
  intros Hlen. unfold DictionaryEncoder.encode, DictionaryEncoder.clear.
  destruct (fold_left DictionaryEncoder.add values (DictionaryEncoder.mk ∅ [], []))
    as [self' indices] eqn:Hfold.
  destruct (fold_add_spec values self' indices Hlen Hfold)
    as (Hfs & Hmap & Hidx & Hcount).
  cbn [fst snd]. split; [exact Hfs|]. split; [exact Hmap|].
  split; [|split; [exact Hcount|reflexivity]].
  exists indices. split; [|exact Hidx].
  rewrite u32_id by (unfold is_u32; lia). reflexivity.
Qed.

Lemma dictionary_encoder_state_witness :
  DictionaryEncoder.encode (DictionaryEncoder.mk ∅ ["old"%string])
    ["b"; "a"; "b"]%string
  = DictionaryEncoder.encode (DictionaryEncoder.mk ∅ []) ["b"; "a"; "b"]%string.
Proof.
  symmetry.
  refine (proj2 (proj2 (proj2 (proj2
    (dictionary_encoder_state
       (DictionaryEncoder.mk ∅ ["old"%string]) (DictionaryEncoder.mk ∅ [])
       ["b"; "a"; "b"]%string _))))).
  simpl. lia.
Defined.

(** ** Splitting a string *)

Lemma list_ascii_of_string_append a b :
  list_ascii_of_string (String.append a b)
  = list_ascii_of_string a ++ list_ascii_of_string b.
Proof. induction a as [|c a IH]; simpl; [|rewrite IH]; reflexivity. Qed.

Lemma split_loop_spec delimiter str : forall tokens token tokens' token',
  Cli.split_loop str delimiter tokens token = (tokens', token') ->
  Forall (fun t => t <> EmptyString
                   /\ ~ In delimiter (list_ascii_of_string t)) tokens ->
  ~ In delimiter (list_ascii_of_string token) ->
  Forall (fun t => t <> EmptyString
                   /\ ~ In delimiter (list_ascii_of_string t)) tokens'
  /\ ~ In delimiter (list_ascii_of_string token')
  /\ concat (map list_ascii_of_string tokens') ++ list_ascii_of_string token'
     = concat (map list_ascii_of_string tokens) ++ list_ascii_of_string token
       ++ List.filter (fun c => negb (Ascii.eqb c delimiter))
            (list_ascii_of_string str).
Proof.
  induction str as [|c str IH]; intros tokens token tokens' token' Hloop Hok Htok.
  - simpl in Hloop. injection Hloop as <- <-. simpl. rewrite app_nil_r. auto.
  - cbn [Cli.split_loop] in Hloop. cbn [list_ascii_of_string List.filter].
    destruct (Ascii.eqb_spec c delimiter) as [->|Hne]; cbn [negb].
    + destruct (String.eqb_spec token EmptyString) as [->|Hnonempty];
        cbn [negb] in Hloop.
      * apply IH in Hloop; auto.
      * apply IH in Hloop as (H1 & H2 & H3).
        -- split; [exact H1|]. split; [exact H2|]. rewrite H3.
           rewrite map_app, concat_app. simpl.
           rewrite app_nil_r, <- app_assoc. reflexivity.
        -- apply Forall_app. split; [exact Hok|]. constructor; auto.
        -- simpl. tauto.
    + apply IH in Hloop as (H1 & H2 & H3).
      * split; [exact H1|]. split; [exact H2|]. rewrite H3.
        rewrite list_ascii_of_string_append. simpl.
        rewrite <- !app_assoc. reflexivity.
      * exact Hok.
      * rewrite list_ascii_of_string_append. simpl.
        rewrite in_app_iff. simpl. intros [H|[H|[]]]; [tauto|congruence].
Qed.

Lemma append_empty_r token : String.append token EmptyString = token.
Proof.
  induction token as [|x token IHt]; [reflexivity|].
  change (String x (String.append token EmptyString) = String x token).
  congruence.
Qed.

Lemma append_one token c str :
  String.append (String.append token (String c EmptyString)) str
  = String.append token (String c str).
Proof.
  induction token as [|x token IHt]; [reflexivity|].
  change (String x (String.append (String.append token (String c EmptyString)) str)
          = String x (String.append token (String c str))).
  congruence.
Qed.

Lemma split_loop_plain delimiter str : forall tokens token,
  ~ In delimiter (list_ascii_of_string str) ->
  Cli.split_loop str delimiter tokens token
  = (tokens, String.append token str).
Proof.
  induction str as [|c str IH]; intros tokens token Hno.
  - simpl. rewrite append_empty_r. reflexivity.
  - cbn [Cli.split_loop]. simpl in Hno.
    destruct (Ascii.eqb_spec c delimiter) as [->|Hne]; [tauto|].
    rewrite IH by tauto. rewrite append_one. reflexivity.
Qed.

(** X18: [split] never yields an empty token nor a token that contains
    the delimiter, and the tokens, read one after the other, are the
    input with its delimiters removed: leading, trailing and repeated
    delimiters produce nothing.  A non-empty string without the
    delimiter comes back as its only token. *)
Theorem split_tokens (str : string) (delimiter : ascii) :
  Forall (fun t => t <> EmptyString
                   /\ ~ In delimiter (list_ascii_of_string t))
         (Cli.split str delimiter)
  /\ concat (map list_ascii_of_string (Cli.split str delimiter))
     = List.filter (fun c => negb (Ascii.eqb c delimiter))
         (list_ascii_of_string str)
  /\ (str <> EmptyString -> ~ In delimiter (list_ascii_of_string str) ->
      Cli.split str delimiter = [str]).
Proof.
  unfold Cli.split. split; [|split].
  - destruct (Cli.split_loop str delimiter [] EmptyString)
      as [tokens token] eqn:Hloop.
    apply split_loop_spec in Hloop as (H1 & H2 & _); [|constructor|simpl; tauto].
    destruct (String.eqb_spec token EmptyString) as [->|Hne]; cbn [negb];
      [exact H1|].
    apply Forall_app. split; [exact H1|]. constructor; auto.
  - destruct (Cli.split_loop str delimiter [] EmptyString)
      as [tokens token] eqn:Hloop.
    apply split_loop_spec in Hloop as (_ & _ & H3); [|constructor|simpl; tauto].
    simpl in H3. rewrite <- H3.
    destruct (String.eqb_spec token EmptyString) as [->|Hne]; cbn [negb].
    + simpl. rewrite app_nil_r. reflexivity.
    + rewrite map_app, concat_app. simpl. rewrite app_nil_r. reflexivity.
  - intros Hne Hno. rewrite split_loop_plain by exact Hno.
    change (String.append EmptyString str) with str.
    destruct (String.eqb_spec str EmptyString) as [?|_]; [congruence|].
    reflexivity.
Qed.

Lemma split_tokens_witness :
  Cli.split "value" ","%char = ["value"%string].
Proof.
  refine (proj2 (proj2 (split_tokens "value" ","%char)) _ _).
  - discriminate.
  - simpl. intros H. repeat destruct H as [H|H]; try discriminate H.
    exact H.
Defined.

Example split_select_list :
  Cli.split ",id,,value,category," ","%char
  = ["id"; "value"; "category"]%string.
Proof. reflexivity. Qed.
